(** * pharmpy: the local-directory model database and naming context

    A shallow embedding of
      - [pharmpy/workflows/model_database/local_directory.py] and
      - [pharmpy/workflows/context/local_directory.py]
    over an explicit model of the filesystem they persist to.

    Conventions of the embedding.
      - A path is the list of its components from the filesystem root
        (pathlib's [parts]); a model name, a key, a context name and a hash
        are single components.
      - The filesystem is a finite map from paths to nodes.  Python raises
        exceptions and keeps the side effects made so far, so every
        operation maps a filesystem to an outcome that carries the
        filesystem it leaves behind.
      - File formats (the CSV of a dataset, JSON, model code) belong to
        external serialisers; a file written by one of them holds the value
        that was written into it.  The log and the annotations are written
        by the code itself, character by character, and are held as text.
      - Lock acquisition is the only blocking point of the code.  The
        sequential semantics below assumes every lock is granted; the
        section on the lock discipline treats the locks on their own. *)

From Stdlib Require Import ZArith Ascii String List.
From stdpp Require Import base option gmap strings list fin_maps.
From stdpp Require Import sorting.

Open Scope string_scope.
Open Scope list_scope.
Open Scope nat_scope.
Open Scope stdpp_scope.

(** ** Values stored in files *)

Abbreviation path := (list string).

(** [pandas.DataFrame]: rows of numbers; [df.equals] is structural equality. *)
Definition DataFrame := list (list Z).

(** [DataInfo]: the column description of a dataset and the path of its
    file.  [__eq__] does not compare paths. *)
Record DataInfo := mkDataInfo {
  di_path : option path;
  di_columns : list string;
}.

Definition datainfo_eq (a b : DataInfo) : bool :=
  bool_decide (di_columns a = di_columns b).

Record Model := mkModel {
  name : string;
  filename_extension : string;
  code : string;
  dataset : DataFrame;
  datainfo : DataInfo;
}.

Definition model_replace_datainfo (m : Model) (di : DataInfo) : Model :=
  {| name := name m; filename_extension := filename_extension m;
     code := code m; dataset := dataset m; datainfo := di |}.

(** One row of the log as [pd.read_csv] gives it: path, time, severity,
    message. *)
Record LogRow := mkLogRow {
  row_path : string;
  row_time : string;
  row_severity : string;
  row_message : string;
}.

Inductive content :=
  | Empty
  | Csv (df : DataFrame)
  | DataInfoJson (di : DataInfo)
  | ModelFile (m : Model)
  | Json (doc : string)
  | Text (text : string).

Inductive node :=
  | Dir
  | File (c : content)
  | Symlink (target : path).

#[global] Instance DataInfo_eq_dec : EqDecision DataInfo.
Proof. solve_decision. Defined.
#[global] Instance Model_eq_dec : EqDecision Model.
Proof. solve_decision. Defined.
#[global] Instance LogRow_eq_dec : EqDecision LogRow.
Proof. solve_decision. Defined.
#[global] Instance content_eq_dec : EqDecision content.
Proof. solve_decision. Defined.
#[global] Instance node_eq_dec : EqDecision node.
Proof. solve_decision. Defined.

(** ** Exceptions and outcomes *)

Inductive exn :=
  | PendingTransactionError
  | KeyError
  | ValueError
  | FileNotFoundError
  | FileExistsError
  | NotADirectoryError
  | IsADirectoryError
  | SameFileError.

#[global] Instance exn_eq_dec : EqDecision exn.
Proof. solve_decision. Defined.

Abbreviation FS := (gmap path node).

Inductive outcome (A : Type) :=
  | Ok (a : A) (fs : FS)
  | Raise (e : exn) (fs : FS).
Arguments Ok {A} a fs.
Arguments Raise {A} e fs.

Definition M (A : Type) := FS → outcome A.

#[global] Instance M_ret : MRet M := λ A a fs, Ok a fs.
#[global] Instance M_bind : MBind M := λ A B k m fs,
  match m fs with
  | Ok a fs' => k a fs'
  | Raise e fs' => Raise e fs'
  end.

Definition raise {A} (e : exn) : M A := λ fs, Raise e fs.

(** An observation of the filesystem that changes nothing. *)
Definition reads {A} (f : FS → A) : M A := λ fs, Ok (f fs) fs.

(** [try: m except e: h] *)
Definition catch {A} (m : M A) (e : exn) (h : M A) : M A :=
  λ fs, match m fs with
        | Raise e' fs' => if decide (e' = e) then h fs' else Raise e' fs'
        | r => r
        end.

Definition final_fs {A} (o : outcome A) : FS :=
  match o with Ok _ fs => fs | Raise _ fs => fs end.

Definition result {A} (o : outcome A) : A + exn :=
  match o with Ok a _ => inl a | Raise e _ => inr e end.

(** ** Filesystem primitives

    The paths the store builds contain no link in an intermediate position,
    so a path is looked up as it is; [resolve] follows the link a path
    itself names.  The directories the store makes are never links: [mkdir]
    takes a link for an entry that is not a directory.  Modification times
    are not part of a node. *)

Definition parent (p : path) : path := removelast p.

Definition path_name (p : path) : string := List.last p "".

(** [os.path.lexists] *)
Definition lexists (p : path) (fs : FS) : bool :=
  bool_decide (is_Some (fs !! p)).

(** [os.path.normpath]: [..] steps back, [.] stays. *)
Fixpoint normalize_onto (stack : path) (p : path) : path :=
  match p with
  | [] => rev stack
  | c :: r =>
      if decide (c = "..") then normalize_onto (tail stack) r
      else if decide (c = ".") then normalize_onto stack r
      else normalize_onto (c :: stack) r
  end.

Definition normalize (p : path) : path := normalize_onto [] p.

(** [os.path.relpath target start] on absolute paths. *)
Fixpoint relpath (target start : path) : path :=
  match target, start with
  | t :: ts, s :: ss =>
      if decide (t = s) then relpath ts ss
      else replicate (length start) ".." ++ target
  | _, _ => replicate (length start) ".." ++ target
  end.

(** [Path.resolve]: a link is replaced by what it points to, read from the
    directory that holds it. *)
Definition resolve (p : path) (fs : FS) : path :=
  match fs !! p with
  | Some (Symlink t) => normalize (parent p ++ t)
  | _ => p
  end.

(** [Path.exists], [Path.is_dir], [Path.is_file] follow the link. *)
Definition exists_ (p : path) (fs : FS) : bool :=
  bool_decide (is_Some (fs !! resolve p fs)).

Definition is_dir (p : path) (fs : FS) : bool :=
  bool_decide (fs !! resolve p fs = Some Dir).

Definition is_file (p : path) (fs : FS) : bool :=
  match fs !! resolve p fs with
  | Some (File _) => true
  | _ => false
  end.

(** [Path.mkdir(parents=True, exist_ok=True)], walking from the root to the
    directory: missing components are created, a component that is not a
    directory raises. *)
Fixpoint mkdir_from (pre rest : path) : M unit := λ fs,
  match rest with
  | [] => Ok () fs
  | c :: rest' =>
      let p := pre ++ [c] in
      match fs !! p with
      | None => mkdir_from p rest' (<[p := Dir]> fs)
      | Some Dir => mkdir_from p rest' fs
      | Some _ =>
          Raise (if rest' is [] then FileExistsError else NotADirectoryError) fs
      end
  end.

Definition mkdir_parents (p : path) : M unit := mkdir_from [] p.

(** Creation of a new entry [n] at [p]: the parent must be a directory. *)
Definition create (p : path) (n : node) : M unit := λ fs,
  match fs !! parent p with
  | Some Dir => Ok () (<[p := n]> fs)
  | Some _ => Raise NotADirectoryError fs
  | None => Raise FileNotFoundError fs
  end.

(** [Path.mkdir(parents=False, exist_ok=...)] *)
Definition mkdir (p : path) (exist_ok : bool) : M unit := λ fs,
  match fs !! p with
  | Some Dir => if exist_ok then Ok () fs else Raise FileExistsError fs
  | Some _ => Raise FileExistsError fs
  | None => create p Dir fs
  end.

(** [Path.mkdir(parents=True)], without [exist_ok] *)
Definition mkdir_parents_new (p : path) : M unit := λ fs,
  match fs !! p with
  | Some _ => Raise FileExistsError fs
  | None => mkdir_parents p fs
  end.

(** [Path.touch(exist_ok=True)] *)
Definition touch (p : path) : M unit := λ fs,
  match fs !! p with
  | Some _ => Ok () fs
  | None => create p (File Empty) fs
  end.

(** [Path.touch(exist_ok=False)] *)
Definition touch_excl (p : path) : M unit := λ fs,
  match fs !! p with
  | Some _ => Raise FileExistsError fs
  | None => create p (File Empty) fs
  end.

(** [Path.unlink] *)
Definition unlink (p : path) : M unit := λ fs,
  match fs !! p with
  | None => Raise FileNotFoundError fs
  | Some Dir => Raise IsADirectoryError fs
  | Some _ => Ok () (delete p fs)
  end.

(** [open(p, 'w')] followed by writing [c] *)
Definition write_file (p : path) (c : content) : M unit := λ fs,
  match fs !! p with
  | Some Dir => Raise IsADirectoryError fs
  | _ => create p (File c) fs
  end.

(** [open(p, 'r')] followed by reading *)
Definition read_file (p : path) : M content := λ fs,
  match fs !! p with
  | Some (File c) => Ok c fs
  | Some Dir => Raise IsADirectoryError fs
  | _ => Raise FileNotFoundError fs
  end.

(** [Path.symlink_to] *)
Definition symlink_to (p target : path) : M unit := λ fs,
  match fs !! p with
  | Some _ => Raise FileExistsError fs
  | None => create p (Symlink target) fs
  end.

(** [Path.iterdir]: the names of the entries of a directory.  The order is
    the filesystem's; the model lists them in the order of the map. *)
Definition iterdir (p : path) (fs : FS) : list string :=
  omap (λ qn : path * node,
          if decide (qn.1 ≠ [] ∧ parent qn.1 = p)
          then Some (path_name qn.1) else None)
       (map_to_list fs).

(** [shutil.copy2(src, dst)].  A destination that is a directory takes the
    copy inside it, under the name of the source.  Source and destination
    are opened through the links they name: the same file on both sides is
    a [SameFileError], the file the source leads to is read, and the file
    the destination leads to is written.  The path returned is the
    destination as it was joined. *)
Definition copy2_entry (src dst : path) (fs : FS) : path :=
  if is_dir dst fs then resolve dst fs ++ [path_name src] else dst.

Definition copy2_target (src dst : path) (fs : FS) : path :=
  resolve (copy2_entry src dst fs) fs.

Definition copy2 (src dst : path) : M path := λ fs,
  let dst' := if is_dir dst fs then dst ++ [path_name src] else dst in
  let target := copy2_target src dst fs in
  if bool_decide (target = resolve src fs) && exists_ src fs
  then Raise SameFileError fs
  else match fs !! resolve src fs with
       | Some (File c) =>
           match write_file target c fs with
           | Ok _ fs' => Ok dst' fs'
           | Raise e fs' => Raise e fs'
           end
       | Some Dir => Raise IsADirectoryError fs
       | _ => Raise FileNotFoundError fs
       end.

(** [shutil.copytree]: the destination must not exist; the whole subtree
    is copied under it. *)
Definition subtree (src : path) (fs : FS) : list (path * node) :=
  omap (λ qn : path * node,
          if decide (src `prefix_of` qn.1)
          then Some (drop (length src) qn.1, qn.2) else None)
       (map_to_list fs).

Definition copytree (src dst : path) : M unit := λ fs,
  if lexists dst fs then Raise FileExistsError fs
  else match mkdir_parents (parent dst) fs with
       | Raise e fs' => Raise e fs'
       | Ok _ fs' =>
           Ok () (foldr (λ qn acc, <[dst ++ qn.1 := qn.2]> acc) fs'
                        (subtree src fs))
       end.

(** A filesystem is well formed when the root is a directory and every
    entry lies in a directory. *)
Definition wf (fs : FS) : Prop :=
  fs !! [] = Some Dir ∧
  map_Forall (λ p _, p = [] ∨ fs !! parent p = Some Dir) fs.

#[global] Instance wf_dec fs : Decision (wf fs).
Proof. unfold wf. apply _. Defined.

Definition root_fs : FS := {[ [] := Dir ]}.

(** [PurePath.suffix] of a final component: from the last dot on, unless
    that dot is the first or the last character. *)
Fixpoint rfind_dot (s : string) : option nat :=
  match s with
  | EmptyString => None
  | String a r =>
      match rfind_dot r with
      | Some i => Some (S i)
      | None => if decide (a = "."%char) then Some 0 else None
      end
  end.

Definition suffix (nm : string) : string :=
  match rfind_dot nm with
  | Some i =>
      if decide (0 < i ∧ i < String.length nm - 1)
      then substring i (String.length nm - i) nm else ""
  | None => ""
  end.

(** [PurePath.with_suffix] *)
Definition with_suffix_name (nm suf : string) : string :=
  substring 0 (String.length nm - String.length (suffix nm)) nm +:+ suf.

Definition with_suffix (p : path) (suf : string) : path :=
  parent p ++ [with_suffix_name (path_name p) suf].

(** The last character of a string. *)
Fixpoint str_last (s : string) : ascii :=
  match s with
  | EmptyString => "000"%char
  | String c EmptyString => c
  | String _ r => str_last r
  end.

(** The characters of a line break. *)
Definition LF : ascii := ascii_of_nat 10.
Definition CR : ascii := ascii_of_nat 13.

(** * The model database: [model_database/local_directory.py] *)

Definition DIRECTORY_PHARMPY_METADATA := ".pharmpy".
Definition DIRECTORY_DATASETS := ".datasets".
Definition DIRECTORY_INDEX := ".hash".
Definition FILE_METADATA := "metadata.json".
Definition FILE_MODELFIT_RESULTS := "results.json".
Definition FILE_PENDING := "PENDING".
Definition FILE_LOCK := ".lock".

(** [ModelEntry]: a model with its fit results, when it has any. *)
Record ModelEntry := mkModelEntry {
  model : Model;
  modelfit_results : option string;
}.

(** [ModelEntry.create] *)
Definition ModelEntry_create (m : Model) : ModelEntry :=
  {| model := m; modelfit_results := None |}.

(** What [path_lock(path, shared)] is asked for.  In the sequential
    semantics entering the lock is granted and leaves the files as they
    are. *)
Record lock_request := path_lock { lock_path : path; shared : bool }.

#[global] Instance lock_request_eq_dec : EqDecision lock_request.
Proof. solve_decision. Defined.

Definition with_lock {A} (lk : M lock_request) (body : M A) : M A :=
  _ ← lk; body.

Record LocalModelDirectoryDatabase := mkDatabase {
  db_path : path;
  file_extension : string;
}.

(** [LocalModelDirectoryDatabase.__init__]; the path is absolute. *)
Definition LocalModelDirectoryDatabase_init (p : path) (ext : string)
  : M LocalModelDirectoryDatabase :=
  mkdir_parents p;; mret {| db_path := p; file_extension := ext |}.

Definition _read_lock (db : LocalModelDirectoryDatabase) : M lock_request :=
  let path := db_path db ++ [FILE_LOCK] in
  touch path;; mret (path_lock path true).

Definition _write_lock (db : LocalModelDirectoryDatabase) : M lock_request :=
  let path := db_path db ++ [FILE_LOCK] in
  touch path;; mret (path_lock path false).

Record LocalModelDirectoryDatabaseSnapshot := mkSnapshot {
  snap_db : LocalModelDirectoryDatabase;
  snap_name : string;
}.

Record LocalModelDirectoryDatabaseTransaction := mkTransaction {
  txn_db : LocalModelDirectoryDatabase;
  model_entry : ModelEntry;
}.

(** [LocalModelDirectoryDatabaseTransaction.__init__] *)
Definition Transaction_init (db : LocalModelDirectoryDatabase)
    (model_or_model_entry : Model + ModelEntry)
  : LocalModelDirectoryDatabaseTransaction :=
  match model_or_model_entry with
  | inr me => {| txn_db := db; model_entry := me |}
  | inl m => {| txn_db := db; model_entry := ModelEntry_create m |}
  end.

Definition model_name_of (model_or_model_entry : Model + ModelEntry) : string :=
  match model_or_model_entry with
  | inr me => name (model me)
  | inl m => name m
  end.

Definition metadata_dir (db : LocalModelDirectoryDatabase) (model_name : string)
  : path :=
  db_path db ++ [model_name] ++ [DIRECTORY_PHARMPY_METADATA].

Definition pending_path (db : LocalModelDirectoryDatabase) (model_name : string)
  : path :=
  metadata_dir db model_name ++ [FILE_PENDING].

(** [snapshot], a generator-based context manager.  [snapshot_enter] is the
    generator up to its [yield]; nothing follows the [yield] but the release
    of the lock. *)
Definition snapshot_enter (db : LocalModelDirectoryDatabase) (model_name : string)
  : M LocalModelDirectoryDatabaseSnapshot :=
  let destination := metadata_dir db model_name in
  mkdir_parents destination;;
  with_lock (_read_lock db) (
    let path := destination ++ [FILE_PENDING] in
    pending ← reads (exists_ path);
    if pending : bool then raise PendingTransactionError
    else mret (mkSnapshot db model_name)).

Definition snapshot {A} (db : LocalModelDirectoryDatabase) (model_name : string)
    (body : LocalModelDirectoryDatabaseSnapshot → M A) : M A :=
  snap ← snapshot_enter db model_name; body snap.

(** [transaction].  [transaction_enter] is the generator up to its [yield],
    [transaction_commit] what follows it.  An exception of the body is
    thrown into the generator at the [yield]: nothing catches it there, so
    the commit is skipped. *)
Definition transaction_enter (db : LocalModelDirectoryDatabase)
    (model_or_model_entry : Model + ModelEntry)
  : M LocalModelDirectoryDatabaseTransaction :=
  let model_name := model_name_of model_or_model_entry in
  let destination := metadata_dir db model_name in
  mkdir_parents destination;;
  with_lock (_write_lock db) (
    let path := destination ++ [FILE_PENDING] in
    catch (touch_excl path) FileExistsError (raise PendingTransactionError);;
    mret (Transaction_init db model_or_model_entry)).

Definition transaction_commit (db : LocalModelDirectoryDatabase)
    (model_or_model_entry : Model + ModelEntry) : M unit :=
  unlink (pending_path db (model_name_of model_or_model_entry)).

Definition transaction {A} (db : LocalModelDirectoryDatabase)
    (model_or_model_entry : Model + ModelEntry)
    (body : LocalModelDirectoryDatabaseTransaction → M A) : M A :=
  txn ← transaction_enter db model_or_model_entry;
  r ← body txn;
  transaction_commit db model_or_model_entry;;
  mret r.

(** ** External collaborators used by the transaction and the snapshot

    [pharmpy.model] and [pharmpy.modeling] read and write the files of a
    model; here a file holds the value written into it. *)

(** [DataInfo.read_json] *)
Definition DataInfo_read_json (p : path) : M DataInfo :=
  c ← read_file p;
  match c with
  | DataInfoJson di => mret di
  | _ => raise ValueError
  end.

(** [DataInfo.to_json] *)
Definition DataInfo_to_json (di : DataInfo) (p : path) : M unit :=
  write_file p (DataInfoJson di).

(** [read_dataset_from_datainfo]: the dataset is read from the path the
    datainfo records. *)
Definition read_dataset_from_datainfo (di : DataInfo) : M DataFrame :=
  match di_path di with
  | None => raise ValueError
  | Some p =>
      c ← read_file p;
      match c with
      | Csv df => mret df
      | _ => raise ValueError
      end
  end.

(** [DataInfo.replace(path=...)] *)
Definition datainfo_replace (di : DataInfo) (p : option path) : DataInfo :=
  {| di_path := p; di_columns := di_columns di |}.

(** [write_csv(model, path, force=True)]: writes the dataset and returns
    the model with the path recorded. *)
Definition write_csv (m : Model) (p : path) : M Model :=
  write_file p (Csv (dataset m));;
  mret (model_replace_datainfo m (datainfo_replace (datainfo m) (Some p))).

(** [write_model(model, path, force=True)] *)
Definition write_model (m : Model) (p : path) : M unit :=
  write_file p (ModelFile m).

(** [Model.parse_model] *)
Definition Model_parse_model (p : path) : M Model :=
  c ← read_file p;
  match c with
  | ModelFile m => mret m
  | _ => raise ValueError
  end.

(** [read_results] *)
Definition read_results (p : path) : M string :=
  c ← read_file p;
  match c with
  | Json doc => mret doc
  | _ => raise ValueError
  end.

(** [os.stat(path).st_size]; only whether it is zero matters. *)
Definition st_size (c : content) : nat :=
  match c with
  | Empty => 0
  | Csv df => length df
  | DataInfoJson _ => 1
  | ModelFile m => String.length (code m)
  | Json doc => String.length doc
  | Text text => String.length text
  end.

(** [PurePath.stem] of a final component *)
Definition stem (nm : string) : string :=
  substring 0 (String.length nm - String.length (suffix nm)) nm.

(** ** The transaction *)

Section Transaction.

(** [pharmpy.internals.df.hash_df_fs], the content hash of a dataset. *)
Variable hash_df_fs : DataFrame → string.

(** The [for hpath in h_dir.iterdir()] loop of [store_model]: [Some] is the
    model at the [break], [None] is a loop that ran to its end. *)
Fixpoint store_model_scan (datasets_path : path) (m : Model)
    (entries : list string) : M (option Model) :=
  match entries with
  | [] => mret None
  | matching_model_filename :: rest =>
      let data_path := datasets_path ++ [matching_model_filename] in
      let dipath := with_suffix data_path ".datainfo" in
      curdi ← DataInfo_read_json dipath;
      if datainfo_eq curdi (datainfo m) then
        df ← read_dataset_from_datainfo curdi;
        if decide (df = dataset m) then
          let datainfo' := datainfo_replace (datainfo m) (di_path curdi) in
          mret (Some (model_replace_datainfo m datainfo'))
        else store_model_scan datasets_path m rest
      else store_model_scan datasets_path m rest
  end.

Definition store_model (txn : LocalModelDirectoryDatabaseTransaction)
  : M Model :=
  let m := model (model_entry txn) in
  let db := txn_db txn in
  let datasets_path := db_path db ++ [DIRECTORY_DATASETS] in
  let h := hash_df_fs (dataset m) in
  let h_dir := datasets_path ++ [DIRECTORY_INDEX] ++ [h] in
  mkdir_parents h_dir;;
  entries ← reads (iterdir h_dir);
  found ← store_model_scan datasets_path m entries;
  m ← match found with
      | Some m' => mret m'
      | None =>
          let model_filename := name m +:+ ".csv" in
          let index_path := h_dir ++ [model_filename] in
          touch index_path;;
          let data_path := datasets_path ++ [model_filename] in
          let datainfo' := datainfo_replace (datainfo m) (Some data_path) in
          let m := model_replace_datainfo m datainfo' in
          m ← write_csv m data_path;
          DataInfo_to_json (datainfo m)
            (datasets_path ++ [name m +:+ ".datainfo"]);;
          mret m
      end;
  let model_path := db_path db ++ [name m] in
  mkdir model_path true;;
  write_model m (model_path ++ [name m +:+ filename_extension m]);;
  mret m.

(** [new_filename] is used when it is given and not empty. *)
Definition truthy (new_filename : option string) : option string :=
  match new_filename with
  | Some s => if decide (s = "") then None else Some s
  | None => None
  end.

Definition store_local_file (txn : LocalModelDirectoryDatabaseTransaction)
    (p : path) (new_filename : option string) : M unit :=
  is_f ← reads (is_file p);
  if is_f : bool then
    let destination := db_path (txn_db txn) ++ [name (model (model_entry txn))] in
    mkdir_parents destination;;
    let destination :=
      match truthy new_filename with
      | Some s => destination ++ [s]
      | None => destination
      end in
    copy2 p destination;; mret ()
  else mret ().

Definition store_metadata (txn : LocalModelDirectoryDatabaseTransaction)
    (metadata : string) : M unit :=
  let destination :=
    metadata_dir (txn_db txn) (name (model (model_entry txn))) in
  mkdir_parents destination;;
  write_file (destination ++ [FILE_METADATA]) (Json metadata).

Definition store_modelfit_results (txn : LocalModelDirectoryDatabaseTransaction)
  : M unit :=
  let destination :=
    metadata_dir (txn_db txn) (name (model (model_entry txn))) in
  mkdir_parents destination;;
  match modelfit_results (model_entry txn) with
  | Some res => write_file (destination ++ [FILE_MODELFIT_RESULTS]) (Json res)
  | None => mret ()
  end.

Definition store_model_entry (txn : LocalModelDirectoryDatabaseTransaction)
  : M unit :=
  store_model txn;; store_modelfit_results txn.

End Transaction.

(** ** The non-transactional database, [LocalDirectoryDatabase] *)

Record LocalDirectoryDatabase := mkFlatDatabase {
  flat_path : path;
  flat_file_extension : string;
}.

Definition ignored_names : list string :=
  ["stdout"; "stderr"; "nonmem.json"; "nlmixr.json"].

Definition LocalDirectoryDatabase_store_local_file (db : LocalDirectoryDatabase)
    (p : path) (new_filename : option string) : M unit :=
  is_f ← reads (is_file p);
  if bool_decide (path_name p ∉ ignored_names) && is_f then
    let dest_path :=
      match truthy new_filename with
      | Some s => flat_path db ++ [s]
      | None => flat_path db
      end in
    copy2 p dest_path;; mret ()
  else mret ().

(** ** The snapshot *)

Section Snapshot.

(** [get_modelfit_results]: the parsers of the external tools, which read
    the result files next to the model file. *)
Variable get_modelfit_results : Model → path → FS → option string.

Fixpoint find_in_extensions (root : path) (nm : string)
    (extensions : list string) : M path :=
  match extensions with
  | [] => raise KeyError
  | extension :: rest =>
      let filename := nm +:+ extension in
      let path := root ++ [filename] in
      is_f ← reads (is_file path);
      if is_f : bool then mret path else find_in_extensions root nm rest
  end.

Definition _find_full_model_path (snap : LocalModelDirectoryDatabaseSnapshot)
  : M path :=
  let extensions := [".mod"; ".ctl"] in
  let root := db_path (snap_db snap) ++ [snap_name snap] in
  find_in_extensions root (snap_name snap) extensions.

Definition retrieve_model (snap : LocalModelDirectoryDatabaseSnapshot)
  : M Model :=
  path ← _find_full_model_path snap;
  Model_parse_model path.

Definition retrieve_file (snap : LocalModelDirectoryDatabaseSnapshot)
    (filename : string) : M path :=
  let path := db_path (snap_db snap) ++ [snap_name snap] ++ [filename] in
  c ← reads (λ fs, fs !! resolve path fs);
  match c with
  | Some (File c) => if decide (0 < st_size c) then mret path
                     else raise FileNotFoundError
  | _ => raise FileNotFoundError
  end.

Fixpoint retrieve_local_files_loop (root destination_path : path)
    (files : list string) : M unit :=
  match files with
  | [] => mret ()
  | f_name :: rest =>
      let f := root ++ [f_name] in
      is_f ← reads (is_file f);
      (if is_f : bool then copy2 f destination_path;; mret ()
       else copytree f (destination_path ++ [stem f_name]));;
      retrieve_local_files_loop root destination_path rest
  end.

(** [path.glob('*')] lists the entries of the directory, hidden ones
    included. *)
Definition retrieve_local_files (snap : LocalModelDirectoryDatabaseSnapshot)
    (destination_path : path) : M unit :=
  let path := db_path (snap_db snap) ++ [snap_name snap] in
  files ← reads (iterdir path);
  retrieve_local_files_loop path destination_path files.

Definition retrieve_modelfit_results (snap : LocalModelDirectoryDatabaseSnapshot)
  : M string :=
  m ← retrieve_model snap;
  path ← _find_full_model_path snap;
  res ← reads (get_modelfit_results m path);
  match res with
  | Some res => mret res
  | None =>
      read_results (metadata_dir (snap_db snap) (snap_name snap)
                      ++ [FILE_MODELFIT_RESULTS])
  end.

End Snapshot.

(** ** Retrieval from the non-transactional database *)

(** [LocalDirectoryDatabase.retrieve_file] *)
Definition LocalDirectoryDatabase_retrieve_file (db : LocalDirectoryDatabase)
    (filename : string) : M path :=
  let path := flat_path db ++ [filename] in
  c ← reads (λ fs, fs !! resolve path fs);
  match c with
  | Some (File c) => if decide (0 < st_size c) then mret path
                     else raise FileNotFoundError
  | _ => raise FileNotFoundError
  end.

(** [LocalDirectoryDatabase.retrieve_model]: a missing model file is a
    [KeyError]. *)
Definition LocalDirectoryDatabase_retrieve_model (db : LocalDirectoryDatabase)
    (nm : string) : M Model :=
  let filename := nm +:+ flat_file_extension db in
  let path := flat_path db ++ [filename] in
  catch (Model_parse_model path) FileNotFoundError (raise KeyError).

(** ** The models of a database *)

(** The order of [str]: by code points, a proper prefix first. *)
Definition str_le (a b : string) : Prop := String.leb a b = true.

#[global] Instance str_le_dec a b : Decision (str_le a b).
Proof. unfold str_le. apply _. Defined.

(** [sorted] on a list of [str] *)
Definition sorted (l : list string) : list string := merge_sort str_le l.

(** [str.startswith] *)
Definition startswith (s pre : string) : bool := String.prefix pre s.

(** [LocalModelDirectoryDatabase.list_models]: [self.path.glob('*')] gives
    every entry of the database directory, hidden ones included. *)
Definition list_models (db : LocalModelDirectoryDatabase) (fs : FS)
  : list string :=
  let model_dir_names :=
    filter (λ nm, startswith nm "." = false) (iterdir (db_path db) fs) in
  sorted model_dir_names.

(** * The naming context: [context/local_directory.py] *)

(** Modelled from the spec: [ModelHash] of [pharmpy.workflows.hashing], the
    StoreKey, an opaque identifier naming one model record.  [str] gives its
    digest and [ModelHash(digest)] the key with that digest. *)
Record ModelHash := mkModelHash { str : string }.

#[global] Instance ModelHash_eq_dec : EqDecision ModelHash.
Proof. solve_decision. Defined.

(** Modelled from the spec: the [key] attribute of a snapshot, declared by
    the base class [ModelSnapshot]: the key the snapshot was opened on. *)
Definition key (snap : LocalModelDirectoryDatabaseSnapshot) : ModelHash :=
  mkModelHash (snap_name snap).

(** Modelled from the spec: [create_directory_symlink] of
    [pharmpy.internals.fs.symlink]: the NameLink is realised as a filesystem
    link from [link_path] to [target_path]. *)
Definition create_directory_symlink (link_path target_path : path) : M unit :=
  symlink_to link_path target_path.

Record LocalDirectoryContext := mkContext {
  ctx_path : path;
  _top_path : path;
  model_database : LocalModelDirectoryDatabase;
}.

(** The loop of [_init_top_path], on the reversed path: a context lies
    either at the top or in the [subcontexts] directory of its parent. *)
Fixpoint top_path_rev (r : path) : option path :=
  match r with
  | [] => None
  | nm :: r' =>
      match r' with
      | [] => Some r
      | sub :: r'' =>
          if decide (sub = "subcontexts") then top_path_rev r'' else Some r
      end
  end.

Definition _init_top_path (p : path) : M path :=
  match top_path_rev (rev p) with
  | Some r => mret (rev r)
  | None => raise FileNotFoundError
  end.

Definition _log_path (ctx : LocalDirectoryContext) : path :=
  _top_path ctx ++ ["log.csv"].
Definition _metadata_path (ctx : LocalDirectoryContext) : path :=
  ctx_path ctx ++ ["metadata.json"].
Definition _models_path (ctx : LocalDirectoryContext) : path :=
  ctx_path ctx ++ ["models"].
Definition _annotations_path (ctx : LocalDirectoryContext) : path :=
  ctx_path ctx ++ ["annotations"].
Definition _common_options_path (ctx : LocalDirectoryContext) : path :=
  _top_path ctx ++ ["common_options"].

Definition _init_path (p : path) : M unit :=
  d ← reads (is_dir p);
  (if d : bool then mret () else mkdir_parents_new p);;
  d ← reads (is_dir (p ++ ["subcontexts"]));
  if d : bool then mret () else mkdir (p ++ ["subcontexts"]) false.

Definition _init_annotations (ctx : LocalDirectoryContext) : M unit :=
  f ← reads (is_file (_annotations_path ctx));
  if f : bool then mret () else touch (_annotations_path ctx).

Definition _init_model_name_map (ctx : LocalDirectoryContext) : M unit :=
  mkdir (_models_path ctx) true.

(** The first line of the log *)
Definition log_header : string :=
  "path,time,severity,message" +:+ String LF EmptyString.

Definition _init_log (ctx : LocalDirectoryContext) : M unit :=
  f ← reads (is_file (_log_path ctx));
  if f : bool then mret () else write_file (_log_path ctx) (Text log_header).

Definition _store_common_options (ctx : LocalDirectoryContext)
    (common_options : option string) : M unit :=
  let common_options := default "{}" common_options in
  if decide (ctx_path ctx = _top_path ctx) then
    f ← reads (is_file (_common_options_path ctx));
    if f : bool then mret ()
    else write_file (_common_options_path ctx) (Json common_options)
  else mret ().

(** [LocalDirectoryContext.__init__]; [ref] is absolute. *)
Definition LocalDirectoryContext_init (nm : string) (ref : path)
    (common_options : option string) : M LocalDirectoryContext :=
  let path := ref ++ [nm] in
  _init_path path;;
  top ← _init_top_path path;
  db ← LocalModelDirectoryDatabase_init (top ++ [".modeldb"]) ".mod";
  let ctx := {| ctx_path := path; _top_path := top; model_database := db |} in
  _init_annotations ctx;;
  _init_model_name_map ctx;;
  _init_log ctx;;
  _store_common_options ctx common_options;;
  mret ctx.

Definition create_subcontext (ctx : LocalDirectoryContext) (nm : string)
  : M LocalDirectoryContext :=
  LocalDirectoryContext_init nm (ctx_path ctx ++ ["subcontexts"]) None.

Definition get_subcontext (ctx : LocalDirectoryContext) (nm : string)
  : M LocalDirectoryContext :=
  let path := ctx_path ctx ++ ["subcontexts"] ++ [nm] in
  d ← reads (is_dir path);
  if d : bool then LocalDirectoryContext_init nm (parent path) None
  else raise ValueError.

(** [parts[0::2]] *)
Fixpoint every_other (l : path) : path :=
  match l with
  | [] => []
  | x :: r => x :: match r with [] => [] | _ :: r' => every_other r' end
  end.

(** ['/'.join] *)
Fixpoint join_slash (l : path) : string :=
  match l with
  | [] => ""
  | [x] => x
  | x :: r => x +:+ "/" +:+ join_slash r
  end.

(** [str.count('/')] *)
Fixpoint count_slash (s : string) : nat :=
  match s with
  | EmptyString => 0
  | String c r => (if decide (c = "/"%char) then 1 else 0) + count_slash r
  end.

(** [context_path]: the path relative to the parent of the top context,
    without the [subcontexts] steps. *)
Definition context_path (ctx : LocalDirectoryContext) : string :=
  let relpath := drop (length (parent (_top_path ctx))) (ctx_path ctx) in
  join_slash (every_other relpath).

(** ** Name links *)

Definition store_key (ctx : LocalDirectoryContext) (nm : string)
    (k : ModelHash) : M unit :=
  let from_path := _models_path ctx ++ [nm] in
  bound ← reads (exists_ from_path);
  if bound : bool then mret ()
  else
    let absolute_to_path := db_path (model_database ctx) ++ [str k] in
    present ← reads (exists_ absolute_to_path);
    if present : bool then
      let relative_to_path := relpath absolute_to_path (parent from_path) in
      create_directory_symlink from_path relative_to_path
    else mret ().

Definition retrieve_key (ctx : LocalDirectoryContext) (nm : string)
  : M ModelHash :=
  let symlink_path := _models_path ctx ++ [nm] in
  resolved_path ← reads (resolve symlink_path);
  if decide (symlink_path = resolved_path) then raise KeyError
  else
    let digest := path_name resolved_path in
    let db := model_database ctx in
    snapshot db (str (mkModelHash digest)) (λ txn, mret (key txn)).

Fixpoint retrieve_name_loop (models : path) (mydigest : string)
    (links : list string) : M string :=
  match links with
  | [] => raise KeyError
  | link_name :: rest =>
      let link_path := models ++ [link_name] in
      resolved ← reads (resolve link_path);
      let digest := path_name resolved in
      if decide (digest = mydigest) then mret (path_name link_path)
      else retrieve_name_loop models mydigest rest
  end.

Definition retrieve_name (ctx : LocalDirectoryContext) (k : ModelHash)
  : M string :=
  let path := _models_path ctx in
  let mydigest := str k in
  d ← reads (is_dir path);
  if d : bool then
    links ← reads (iterdir path);
    retrieve_name_loop path mydigest links
  else raise FileNotFoundError.

(** ** The log *)

Definition dquote : ascii := ascii_of_nat 34.

(** [message.replace] of every quote by two *)
Fixpoint double_quotes (s : string) : string :=
  match s with
  | EmptyString => EmptyString
  | String c r =>
      if decide (c = dquote) then String dquote (String dquote (double_quotes r))
      else String c (double_quotes r)
  end.

Definition mangle_message (message : string) : string :=
  String dquote (double_quotes message) +:+ String dquote EmptyString.

(** The lock of one file: [path.with_suffix('.lock')] *)
Definition ctx_read_lock (p : path) : M lock_request :=
  let path := with_suffix p ".lock" in
  touch path;; mret (path_lock path true).

Definition ctx_write_lock (p : path) : M lock_request :=
  let path := with_suffix p ".lock" in
  touch path;; mret (path_lock path false).

(** The characters of a text file, as they are on disk: a file made by
    [touch] is empty. *)
Definition raw_text (c : content) : option string :=
  match c with
  | Empty => Some EmptyString
  | Text text => Some text
  | _ => None
  end.

(** [open(p, 'a')] followed by [fh.write(s)]: the text is put at the end of
    the file, which is made when it is not there.  The platform is POSIX: a
    line feed is written as it is. *)
Definition append_text (p : path) (s : string) : M unit := λ fs,
  match fs !! p with
  | None => create p (File (Text s)) fs
  | Some (File c) =>
      match raw_text c with
      | Some text => Ok () (<[p := File (Text (text +:+ s))]> fs)
      | None => Raise ValueError fs
      end
  | Some Dir => Raise IsADirectoryError fs
  | Some (Symlink _) => Raise ValueError fs
  end.

(** The line [store_message] writes: the message is quoted, the other
    three fields are written as they are. *)
Definition log_line (ctxpath date severity message : string) : string :=
  ctxpath +:+ "," +:+ date +:+ "," +:+ severity +:+ ","
  +:+ mangle_message message +:+ String LF EmptyString.

Definition store_message (ctx : LocalDirectoryContext)
    (severity ctxpath date message : string) : M unit :=
  let log_path := _log_path ctx in
  with_lock (ctx_write_lock log_path)
    (append_text log_path (log_line ctxpath date severity message)).

(** Modelled from the spec: [log_message] of the base class [Context],
    [append_log(severity, message)]: always appended at the root log, tagged
    with this Context's logical path; [date] is the time of the call. *)
Definition log_message (ctx : LocalDirectoryContext)
    (severity date message : string) : M unit :=
  store_message ctx severity (context_path ctx) date message.

(** *** Reading the log: [pd.read_csv]

    The reader of pandas with its default options, on the characters of
    the file: fields are separated by commas and records by line breaks
    (a line feed, a carriage return, or both); blank lines are skipped; a
    field that starts with a double quote runs to the quote that closes it,
    commas and line breaks included, and two quotes inside it read as one;
    a file that ends inside a quoted field is an error.  The automaton
    below has the states of the reader. *)
Inductive csv_state :=
  | START_RECORD
  | START_FIELD
  | IN_FIELD
  | IN_QUOTED_FIELD
  | QUOTE_IN_QUOTED_FIELD
  | EAT_CRNL
  | EAT_CRNL_NOP.

(** The state, the characters of the field that is being read, and the
    fields of the record that is being read. *)
Record csv_reader := mkReader {
  csv_st : csv_state;
  csv_field : string;
  csv_fields : list string;
}.

Definition csv_init : csv_reader := mkReader START_RECORD EmptyString [].

Definition push_char (s : string) (c : ascii) : string :=
  s +:+ String c EmptyString.

(** One character at the start of a field, after the fields [fs].  Each
    step gives the record it completes, if it completes one, and the
    reader after it. *)
Definition csv_start_field (fs : list string) (c : ascii)
  : option (list string) * csv_reader :=
  if decide (c = LF) then (Some (fs ++ [EmptyString]), csv_init)
  else if decide (c = CR)
       then (None, mkReader EAT_CRNL EmptyString (fs ++ [EmptyString]))
  else if decide (c = dquote) then (None, mkReader IN_QUOTED_FIELD EmptyString fs)
  else if decide (c = ","%char)
       then (None, mkReader START_FIELD EmptyString (fs ++ [EmptyString]))
  else (None, mkReader IN_FIELD (String c EmptyString) fs).

Definition csv_start_record (c : ascii) : option (list string) * csv_reader :=
  if decide (c = LF) then (None, csv_init)
  else if decide (c = CR) then (None, mkReader EAT_CRNL_NOP EmptyString [])
  else csv_start_field [] c.

Definition csv_step (r : csv_reader) (c : ascii)
  : option (list string) * csv_reader :=
  let ended := csv_fields r ++ [csv_field r] in
  match csv_st r with
  | START_RECORD => csv_start_record c
  | START_FIELD => csv_start_field (csv_fields r) c
  | IN_FIELD =>
      if decide (c = LF) then (Some ended, csv_init)
      else if decide (c = CR) then (None, mkReader EAT_CRNL EmptyString ended)
      else if decide (c = ","%char)
           then (None, mkReader START_FIELD EmptyString ended)
      else (None, mkReader IN_FIELD (push_char (csv_field r) c) (csv_fields r))
  | IN_QUOTED_FIELD =>
      if decide (c = dquote)
      then (None, mkReader QUOTE_IN_QUOTED_FIELD (csv_field r) (csv_fields r))
      else (None, mkReader IN_QUOTED_FIELD (push_char (csv_field r) c)
                    (csv_fields r))
  | QUOTE_IN_QUOTED_FIELD =>
      if decide (c = dquote)
      then (None, mkReader IN_QUOTED_FIELD (push_char (csv_field r) c)
                    (csv_fields r))
      else if decide (c = ","%char)
           then (None, mkReader START_FIELD EmptyString ended)
      else if decide (c = LF) then (Some ended, csv_init)
      else if decide (c = CR) then (None, mkReader EAT_CRNL EmptyString ended)
      else (None, mkReader IN_FIELD (push_char (csv_field r) c) (csv_fields r))
  | EAT_CRNL =>
      if decide (c = LF) then (Some (csv_fields r), csv_init)
      else (Some (csv_fields r), (csv_start_record c).2)
  | EAT_CRNL_NOP =>
      if decide (c = LF) then (None, csv_init) else csv_start_record c
  end.

(** The end of the file: [None] is the error of a file that ends inside a
    quoted field, [Some] the record the end completes, if any. *)
Definition csv_eof (r : csv_reader) : option (option (list string)) :=
  match csv_st r with
  | START_RECORD | EAT_CRNL_NOP => Some None
  | IN_QUOTED_FIELD => None
  | EAT_CRNL => Some (Some (csv_fields r))
  | START_FIELD | IN_FIELD | QUOTE_IN_QUOTED_FIELD =>
      Some (Some (csv_fields r ++ [csv_field r]))
  end.

Definition with_record (rec : option (list string))
    (recs : list (list string)) : list (list string) :=
  match rec with Some x => x :: recs | None => recs end.

(** The records of a text, or [None] for the error. *)
Fixpoint tokenize (r : csv_reader) (s : string) : option (list (list string)) :=
  match s with
  | EmptyString => (λ rec, with_record rec []) <$> csv_eof r
  | String c s' =>
      with_record (csv_step r c).1 <$> tokenize (csv_step r c).2 s'
  end.

(** The columns of the log *)
Definition LOG_COLUMNS : list string := ["path"; "time"; "severity"; "message"].

Definition row_of (rec : list string) : option LogRow :=
  match rec with
  | [p; t; s; m] => Some (mkLogRow p t s m)
  | _ => None
  end.

(** [pd.read_csv] on the text of the log, with the [KeyError] of
    [df['path']] on a frame without that column.  The first record names
    the columns, the others are the rows.  The cells are kept as their
    text, and a frame is a list of rows of the four columns of the log: a
    text without a record ([EmptyDataError]) or that ends in a quoted field
    ([ParserError]) raises; a log with other columns, or with a record that
    does not have four fields, is not a frame of the model (pandas raises,
    pads the record or shifts the columns) and raises as well. *)
Definition pd_read_csv (text : string) : list LogRow + exn :=
  match tokenize csv_init text with
  | Some (header :: records) =>
      if decide ("path" ∈ header) then
        if decide (header = LOG_COLUMNS) then
          match mapM row_of records with
          | Some rows => inl rows
          | None => inr ValueError
          end
        else inr ValueError
      else inr KeyError
  | _ => inr ValueError
  end.

Definition read_csv (p : path) : M (list LogRow) :=
  c ← read_file p;
  match raw_text c with
  | Some text =>
      match pd_read_csv text with
      | inl rows => mret rows
      | inr e => raise e
      end
  | None => raise ValueError
  end.

Definition retrieve_log (ctx : LocalDirectoryContext) (level : string)
  : M (list LogRow) :=
  let log_path := _log_path ctx in
  df ← with_lock (ctx_read_lock log_path) (read_csv log_path);
  let count := λ r, count_slash (row_path r) in
  let curlevel := count_slash (context_path ctx) in
  if decide (level = "lower") then
    mret (filter (λ r, curlevel ≤ count r) df)
  else if decide (level = "current") then
    mret (filter (λ r, count r = curlevel) df)
  else mret df.

(** ** Contexts on disk: [exists], the parent, the options, the metadata *)

(** [LocalDirectoryContext.exists], a static method *)
Definition LocalDirectoryContext_exists (nm : string) (ref : path) (fs : FS)
  : bool :=
  let path := ref ++ [nm] in
  is_dir path fs && is_dir (path ++ ["subcontexts"]) fs
  && is_file (path ++ ["annotations"]) fs.

Definition get_parent_context (ctx : LocalDirectoryContext)
  : M LocalDirectoryContext :=
  if decide (ctx_path ctx = _top_path ctx) then raise ValueError
  else
    let parent_path := parent (parent (ctx_path ctx)) in
    LocalDirectoryContext_init (path_name parent_path) (parent parent_path) None.

(** [json.load] of the file at [p] *)
Definition json_load (p : path) : M string :=
  c ← read_file p;
  match c with
  | Json doc => mret doc
  | _ => raise ValueError
  end.

Definition retrieve_common_options (ctx : LocalDirectoryContext) : M string :=
  json_load (_common_options_path ctx).

(** [LocalDirectoryContext.store_metadata] and [retrieve_metadata] *)
Definition LocalDirectoryContext_store_metadata (ctx : LocalDirectoryContext)
    (metadata : string) : M unit :=
  write_file (_metadata_path ctx) (Json metadata).

Definition retrieve_metadata (ctx : LocalDirectoryContext) : M string :=
  json_load (_metadata_path ctx).

(** ** Annotations

    The annotations of a context are one text file with a line
    [name annotation] for each name. *)

(** Reading in text mode: a carriage return, with the line feed that follows
    it when there is one, is read as one line feed. *)
Fixpoint universal_newlines (s : string) : string :=
  match s with
  | EmptyString => EmptyString
  | String c r =>
      if decide (c = CR) then
        match r with
        | String c' r' =>
            if decide (c' = LF) then String LF (universal_newlines r')
            else String LF (universal_newlines r)
        | EmptyString => String LF EmptyString
        end
      else String c (universal_newlines r)
  end.

(** The text [open(p, 'r')] gives for reading *)
Definition text_of (c : content) : option string :=
  universal_newlines <$> raw_text c.

Definition read_text (p : path) : M string :=
  c ← read_file p;
  match text_of c with
  | Some text => mret text
  | None => raise ValueError
  end.

(** [fh.readlines()]: the lines with their line feeds; the last line may
    have none. *)
Fixpoint readlines (s : string) : list string :=
  match s with
  | EmptyString => []
  | String c r =>
      if decide (c = LF) then String LF EmptyString :: readlines r
      else match readlines r with
           | [] => [String c EmptyString]
           | l :: ls => String c l :: ls
           end
  end.

(** [fh.writelines(lines)]: the lines one after the other *)
Definition writelines (lines : list string) : string :=
  foldr String.append EmptyString lines.

(** [line.split(" ", 1)]: [a[0]], the part before the first space, and
    [a[1]], the part after it, when there is a space. *)
Fixpoint split_space (s : string) : string * option string :=
  match s with
  | EmptyString => (EmptyString, None)
  | String c r =>
      if decide (c = " "%char) then (EmptyString, Some r)
      else (String c (split_space r).1, (split_space r).2)
  end.

(** [s[:-1]] *)
Fixpoint drop_last (s : string) : string :=
  match s with
  | EmptyString => EmptyString
  | String c EmptyString => EmptyString
  | String c r => String c (drop_last r)
  end.

(** The line written for a name and its annotation *)
Definition annotation_line (name annotation : string) : string :=
  name +:+ " " +:+ annotation +:+ String LF EmptyString.

(** The loop of [store_annotation]: the lines to write, and [found]. *)
Fixpoint store_annotation_loop (name annotation : string)
    (lines : list string) : list string * bool :=
  match lines with
  | [] => ([], false)
  | line :: rest =>
      let a := split_space line in
      let r := store_annotation_loop name annotation rest in
      if decide (a.1 = name)
      then (annotation_line name annotation :: r.1, true)
      else (line :: r.1, r.2)
  end.

Definition store_annotation (ctx : LocalDirectoryContext)
    (name annotation : string) : M unit :=
  let path := _annotations_path ctx in
  with_lock (ctx_write_lock path) (
    text ← read_text path;
    let r := store_annotation_loop name annotation (readlines text) in
    let lines :=
      if r.2 then r.1 else r.1 ++ [annotation_line name annotation] in
    write_file path (Text (writelines lines))).

(** The two exceptions of the lookup in the annotations: [KeyError], when
    the loop comes to its end, and [IndexError], for [a[1]] on a line without
    a space.  [IndexError] is not among the exceptions of the file
    operations; the lookup returns its own two as values. *)
Inductive lookup_error := LookupKeyError | LookupIndexError.

#[global] Instance lookup_error_eq_dec : EqDecision lookup_error.
Proof. solve_decision. Defined.

Fixpoint retrieve_annotation_loop (name : string) (lines : list string)
  : string + lookup_error :=
  match lines with
  | [] => inr LookupKeyError
  | line :: rest =>
      let a := split_space line in
      if decide (a.1 = name) then
        match a.2 with
        | Some a1 => inl (drop_last a1)
        | None => inr LookupIndexError
        end
      else retrieve_annotation_loop name rest
  end.

Definition retrieve_annotation (ctx : LocalDirectoryContext) (name : string)
  : M (string + lookup_error) :=
  let path := _annotations_path ctx in
  with_lock (ctx_read_lock path) (
    text ← read_text path;
    mret (retrieve_annotation_loop name (readlines text))).

(** * The lock discipline

    The sequential semantics above grants every lock.  Here the locks that
    are held are part of the state, and entering a lock may block. *)

(** Modelled from the spec: [path_lock] of [pharmpy.internals.fs.lock], the
    Locking Primitive.  Shared locks may be held concurrently by many
    holders; an exclusive lock excludes all other holders, shared or
    exclusive, of the same resource; locking one resource never blocks
    access to another; acquisition blocks until the lock is obtainable. *)
Definition holder := nat.

Definition held := list (holder * lock_request).

Definition compatible (a b : lock_request) : bool :=
  negb (bool_decide (lock_path a = lock_path b)) || (shared a && shared b).

Definition obtainable (l : lock_request) (hs : held) : bool :=
  forallb (λ h : holder * lock_request, compatible l h.2) hs.

(** [None]: the caller blocks. *)
Definition acquire (p : holder) (l : lock_request) (hs : held) : option held :=
  if obtainable l hs then Some ((p, l) :: hs) else None.

Fixpoint release (p : holder) (l : lock_request) (hs : held) : held :=
  match hs with
  | [] => []
  | h :: hs' =>
      if bool_decide (h = (p, l)) then hs' else h :: release p l hs'
  end.

(** How far an operation gets: it blocks, or it comes to an outcome with
    the locks that are held then. *)
Inductive progress (A : Type) :=
  | Blocked
  | Done (o : outcome A) (hs : held).
Arguments Blocked {A}.
Arguments Done {A} o hs.

(** [with lk: body], for the holder [p], up to the [yield] of [body]: the
    lock file is touched, the lock is acquired, and [body] runs.  When
    [body] returns the scope stays open and the lock is held; an exception
    leaves the scope and the lock is released. *)
Definition with_lock_held {A} (p : holder) (lk : M lock_request) (body : M A)
    (hs : held) (fs : FS) : progress A :=
  match lk fs with
  | Raise e fs1 => Done (Raise e fs1) hs
  | Ok l fs1 =>
      match acquire p l hs with
      | None => Blocked
      | Some hs' =>
          match body fs1 with
          | Ok a fs2 => Done (Ok a fs2) hs'
          | Raise e fs2 => Done (Raise e fs2) hs
          end
      end
  end.

(** [transaction] up to its [yield], with the lock. *)
Definition transaction_open (p : holder) (db : LocalModelDirectoryDatabase)
    (model_or_model_entry : Model + ModelEntry) (hs : held) (fs : FS)
  : progress LocalModelDirectoryDatabaseTransaction :=
  let model_name := model_name_of model_or_model_entry in
  let destination := metadata_dir db model_name in
  match mkdir_parents destination fs with
  | Raise e fs1 => Done (Raise e fs1) hs
  | Ok _ fs1 =>
      with_lock_held p (_write_lock db)
        (let path := destination ++ [FILE_PENDING] in
         catch (touch_excl path) FileExistsError (raise PendingTransactionError);;
         mret (Transaction_init db model_or_model_entry))
        hs fs1
  end.

(** What follows the [yield] of [transaction]: on a clean exit the marker
    is removed; then, on every exit, the lock is released. *)
Definition transaction_close (p : holder) (db : LocalModelDirectoryDatabase)
    (model_or_model_entry : Model + ModelEntry) (clean : bool)
    (hs : held) (fs : FS) : outcome unit * held :=
  let l := path_lock (db_path db ++ [FILE_LOCK]) false in
  ((if clean then transaction_commit db model_or_model_entry fs else Ok () fs),
   release p l hs).

(** [with db.transaction(m) as txn: body], for the holder [p]: the
    opening, the body at the [yield], and what follows the [yield]. *)
Definition transaction_scope {A} (p : holder) (db : LocalModelDirectoryDatabase)
    (model_or_model_entry : Model + ModelEntry)
    (body : LocalModelDirectoryDatabaseTransaction → M A)
    (hs : held) (fs : FS) : progress A :=
  match transaction_open p db model_or_model_entry hs fs with
  | Blocked => Blocked
  | Done (Raise e fs1) hs1 => Done (Raise e fs1) hs1
  | Done (Ok txn fs1) hs1 =>
      match body txn fs1 with
      | Raise e fs2 =>
          Done (Raise e fs2)
               (transaction_close p db model_or_model_entry false hs1 fs2).2
      | Ok r fs2 =>
          let closed := transaction_close p db model_or_model_entry true hs1 fs2 in
          Done (match closed.1 with
                | Ok _ fs3 => Ok r fs3
                | Raise e fs3 => Raise e fs3
                end) closed.2
      end
  end.

(** [snapshot] up to its [yield], with the lock. *)
Definition snapshot_open (p : holder) (db : LocalModelDirectoryDatabase)
    (model_name : string) (hs : held) (fs : FS)
  : progress LocalModelDirectoryDatabaseSnapshot :=
  let destination := metadata_dir db model_name in
  match mkdir_parents destination fs with
  | Raise e fs1 => Done (Raise e fs1) hs
  | Ok _ fs1 =>
      with_lock_held p (_read_lock db)
        (let path := destination ++ [FILE_PENDING] in
         pending ← reads (exists_ path);
         if pending : bool then raise PendingTransactionError
         else mret (mkSnapshot db model_name))
        hs fs1
  end.

Definition snapshot_close (p : holder) (db : LocalModelDirectoryDatabase)
    (hs : held) : held :=
  release p (path_lock (db_path db ++ [FILE_LOCK]) true) hs.

(** The lock of a database, exclusive for a transaction and shared for a
    snapshot: one resource for the whole database, whatever the key. *)
Definition database_lock (db : LocalModelDirectoryDatabase) (is_shared : bool)
  : lock_request :=
  path_lock (db_path db ++ [FILE_LOCK]) is_shared.

(** A transaction, on whatever key, is active in the database. *)
Definition transaction_active (db : LocalModelDirectoryDatabase) (hs : held)
  : Prop :=
  ∃ p, (p, database_lock db false) ∈ hs.

Definition snapshot_active (db : LocalModelDirectoryDatabase) (hs : held)
  : Prop :=
  ∃ p, (p, database_lock db true) ∈ hs.

(** No lock on the database is held. *)
Definition database_free (db : LocalModelDirectoryDatabase) (hs : held)
  : Prop :=
  ∀ h, h ∈ hs → lock_path h.2 ≠ db_path db ++ [FILE_LOCK].

(** The directory [p] can be made: every entry on the way to it, and at
    it, is a directory. *)
Definition can_make_dir (p : path) (fs : FS) : Prop :=
  ∀ q, q `prefix_of` p → fs !! q = None ∨ fs !! q = Some Dir.

(** * Predicates of the specification *)

(** The PendingMarker of a record is there. *)
Definition marker_present (db : LocalModelDirectoryDatabase) (k : string)
    (fs : FS) : Prop :=
  is_Some (fs !! pending_path db k).

#[global] Instance marker_present_dec db k fs : Decision (marker_present db k fs).
Proof. unfold marker_present. apply _. Defined.

(** Every entry of [fs] is in [fs'] as it was. *)
Definition preserved (fs fs' : FS) : Prop :=
  ∀ q n, fs !! q = Some n → fs' !! q = Some n.

(** A path without [.] and [..] steps, as [path_absolute] returns it. *)
Definition plain (p : path) : Prop := Forall (λ c, c ≠ ".." ∧ c ≠ ".") p.

#[global] Instance plain_dec p : Decision (plain p).
Proof. unfold plain. apply _. Defined.

(** A context as its constructor builds it: the top path is found from the
    path by [_init_top_path] and the model database lies at its
    [.modeldb]. *)
#[global] Instance LocalModelDirectoryDatabase_eq_dec :
  EqDecision LocalModelDirectoryDatabase.
Proof. solve_decision. Defined.

Definition is_context (ctx : LocalDirectoryContext) : Prop :=
  top_path_rev (rev (ctx_path ctx)) = Some (rev (_top_path ctx)) ∧
  model_database ctx = mkDatabase (_top_path ctx ++ [".modeldb"]) ".mod".

#[global] Instance is_context_dec ctx : Decision (is_context ctx).
Proof. unfold is_context. apply _. Defined.

(** The steps from a context down to a descendant: one [subcontexts]
    directory and one name for each level. *)
Definition subcontext_steps (names : list string) : path :=
  concat (map (λ n, ["subcontexts"; n]) names).

(** The shape of a node forgets what a file holds; two filesystems of the
    same shape differ at most in the contents of their files.  An operation
    is blind to contents when, on filesystems of the same shape, it gives
    the same result and leaves filesystems of the same shape: it has read
    no byte of any file. *)
Definition shape (n : node) : node :=
  match n with File _ => File Empty | _ => n end.

Definition same_shape (fs1 fs2 : FS) : Prop :=
  ∀ q, shape <$> fs1 !! q = shape <$> fs2 !! q.

Definition content_blind {A} (op : M A) : Prop :=
  ∀ fs1 fs2, same_shape fs1 fs2 →
    result (op fs1) = result (op fs2) ∧
    same_shape (final_fs (op fs1)) (final_fs (op fs2)).

(** An operation that leaves the filesystem as it found it, whatever its
    outcome.  Run again, it finds the same filesystem and gives the same
    outcome. *)
Definition pure {A} (op : M A) : Prop := ∀ fs, final_fs (op fs) = fs.

(** Outside [dest], an operation changes nothing; it may make the
    directories that lead to [dest]. *)
Definition writes_under (dest : path) (fs fs' : FS) : Prop :=
  ∀ q, ¬ dest `prefix_of` q →
    fs' !! q = fs !! q ∨
    fs !! q = None ∧ fs' !! q = Some Dir ∧ q `prefix_of` dest.

(** ** The dataset store of a database *)

Definition datasets_path (db : LocalModelDirectoryDatabase) : path :=
  db_path db ++ [DIRECTORY_DATASETS].

(** The physical file of the dataset stored first by the model [n], and
    the description that goes with it. *)
Definition csv_path (db : LocalModelDirectoryDatabase) (n : string) : path :=
  datasets_path db ++ [n +:+ ".csv"].

Definition datainfo_path (db : LocalModelDirectoryDatabase) (n : string) : path :=
  datasets_path db ++ [n +:+ ".datainfo"].

(** The entry [e] of the content index under the hash [h]. *)
Definition index_path (db : LocalModelDirectoryDatabase) (h e : string) : path :=
  datasets_path db ++ [DIRECTORY_INDEX] ++ [h] ++ [e].

(** The directory of the index for the hash [h]. *)
Definition hash_dir (db : LocalModelDirectoryDatabase) (h : string) : path :=
  datasets_path db ++ [DIRECTORY_INDEX] ++ [h].

(** The two parts of [store_model] that follow the scan of the index: the
    [else] branch of the loop, which stores a new dataset, and the writing
    of the model file. *)
Definition store_new_dataset (db : LocalModelDirectoryDatabase) (h : string)
    (m : Model) : M Model :=
  touch (index_path db h (name m +:+ ".csv"));;
  m ← write_csv
        (model_replace_datainfo m
           (datainfo_replace (datainfo m) (Some (csv_path db (name m)))))
        (csv_path db (name m));
  DataInfo_to_json (datainfo m) (datainfo_path db (name m));;
  mret m.

Definition store_model_file (db : LocalModelDirectoryDatabase) (m : Model)
  : M Model :=
  mkdir (db_path db ++ [name m]) true;;
  write_model m ((db_path db ++ [name m]) ++ [name m +:+ filename_extension m]);;
  mret m.

(** A live entry: the dataset [df] stored under the name [n], with its
    description [di], which records where the dataset is. *)
Definition live (db : LocalModelDirectoryDatabase) (fs : FS) (n : string)
    (df : DataFrame) (di : DataInfo) : Prop :=
  fs !! csv_path db n = Some (File (Csv df)) ∧
  fs !! datainfo_path db n = Some (File (DataInfoJson di)) ∧
  di_path di = Some (csv_path db n).

(** No two live entries hold the same dataset with the same description. *)
Definition no_duplicates (db : LocalModelDirectoryDatabase) (fs : FS) : Prop :=
  ∀ n1 n2 df di1 di2,
    live db fs n1 df di1 → live db fs n2 df di2 →
    datainfo_eq di1 di2 = true → n1 = n2.

(** The invariant of the dataset store: the dataset area holds the index
    directory and files; the index holds one directory for each hash; every
    entry of the index names a live entry; every live entry is indexed
    under the hash of its dataset; there are no duplicates. *)
Definition dataset_store_ok (hash_df_fs : DataFrame → string)
    (db : LocalModelDirectoryDatabase) (fs : FS) : Prop :=
  wf fs ∧
  (∀ x, fs !! datasets_path db = Some x → x = Dir) ∧
  (∀ c x, fs !! (datasets_path db ++ [c]) = Some x →
     if decide (c = DIRECTORY_INDEX) then x = Dir else ∃ y, x = File y) ∧
  (∀ h x, fs !! (datasets_path db ++ [DIRECTORY_INDEX] ++ [h]) = Some x →
     x = Dir) ∧
  (∀ h e, is_Some (fs !! index_path db h e) →
     ∃ n df di, e = n +:+ ".csv" ∧ n ≠ "" ∧ live db fs n df di) ∧
  (∀ n df di, live db fs n df di →
     is_Some (fs !! index_path db (hash_df_fs df) (n +:+ ".csv"))) ∧
  no_duplicates db fs.

(** A transaction that is open on a model can write the model file: the
    record directory is there and the model file is not a directory. *)
Definition ready (txn : LocalModelDirectoryDatabaseTransaction) (fs : FS)
  : Prop :=
  let m := model (model_entry txn) in
  fs !! (db_path (txn_db txn) ++ [name m]) = Some Dir ∧
  fs !! (db_path (txn_db txn) ++ [name m] ++ [name m +:+ filename_extension m])
  ≠ Some Dir.

(** ** Frames and invariants of operations *)

(** An operation keeps a property of the filesystem, whatever its outcome. *)
Definition keeps (P : FS → Prop) {A} (op : M A) : Prop :=
  ∀ fs, P fs → P (final_fs (op fs)).

(** An operation changes no entry outside [S]. *)
Definition changes_only (S : path → Prop) {A} (op : M A) : Prop :=
  ∀ fs q, ¬ S q → final_fs (op fs) !! q = fs !! q.

(** An operation neither removes nor changes an entry. *)
Definition extends {A} (op : M A) : Prop :=
  ∀ fs, preserved fs (final_fs (op fs)).

(** At most the file at [q] was written, and [q] was no directory. *)
Definition written (q : path) (fs fs' : FS) : Prop :=
  fs' = fs ∨ ∃ c, fs' = <[q := File c]> fs ∧ fs !! q ≠ Some Dir.

(** The paths [store_model] may write: the dataset area with the
    directories that lead to it, the directory of the record and the model
    file. *)
Definition store_model_area (db : LocalModelDirectoryDatabase) (m : Model)
    (q : path) : Prop :=
  q `prefix_of` datasets_path db ∨ datasets_path db `prefix_of` q ∨
  q = db_path db ++ [name m] ∨
  q = db_path db ++ [name m] ++ [name m +:+ filename_extension m].

(** The paths the opening and the commit of a transaction may write. *)
Definition transaction_area (db : LocalModelDirectoryDatabase) (k : string)
    (q : path) : Prop :=
  q `prefix_of` metadata_dir db k ∨ q = db_path db ++ [FILE_LOCK] ∨
  q = pending_path db k.

(** ** The state of a context on disk *)

(** What the constructor of a context leaves on disk. *)
Definition opened (ctx : LocalDirectoryContext) (fs : FS) : Prop :=
  is_context ctx ∧
  fs !! ctx_path ctx = Some Dir ∧
  is_dir (ctx_path ctx ++ ["subcontexts"]) fs = true ∧
  fs !! db_path (model_database ctx) = Some Dir ∧
  is_Some (fs !! _annotations_path ctx) ∧
  fs !! _models_path ctx = Some Dir ∧
  is_file (_log_path ctx) fs = true ∧
  (ctx_path ctx = _top_path ctx →
   is_file (_common_options_path ctx) fs = true).

(** ** Text of the annotations *)

(** The character [c] occurs in [s]. *)
Fixpoint occurs (c : ascii) (s : string) : bool :=
  match s with
  | EmptyString => false
  | String a r => bool_decide (a = c) || occurs c r
  end.

(** A text whose last line, if it has one, ends with a line feed. *)
Definition terminated (text : string) : Prop :=
  text = EmptyString ∨ str_last text = LF.

(** A line as [store_annotation] writes it: it ends with its only line
    feed and has no carriage return. *)
Definition proper_line (l : string) : Prop :=
  ∃ b, l = b +:+ String LF EmptyString ∧
       occurs LF b = false ∧ occurs CR b = false.

(** The names of the lines of the annotations *)
Definition annotation_names (lines : list string) : list string :=
  (λ l, (split_space l).1) <$> lines.

(** A field that is read back as it is written, without quotes: it holds
    no comma, no double quote and no line break. *)
Definition plain_field (s : string) : Prop :=
  occurs ","%char s = false ∧ occurs dquote s = false ∧
  occurs LF s = false ∧ occurs CR s = false.

#[global] Instance plain_field_dec s : Decision (plain_field s).
Proof. unfold plain_field. apply _. Defined.

Definition plain_row (r : LogRow) : Prop :=
  plain_field (row_path r) ∧ plain_field (row_time r) ∧
  plain_field (row_severity r).

(** The text of a log that holds the rows [rows]: the first line, and the
    line of each row as [store_message] writes it. *)
Definition log_text (rows : list LogRow) : string :=
  log_header +:+
  writelines ((λ r, log_line (row_path r) (row_time r) (row_severity r)
                      (row_message r)) <$> rows).

(** Neither [d] nor an entry directly in it is a link. *)
Definition no_link_in (d : path) (fs : FS) : Prop :=
  (∀ t, fs !! d ≠ Some (Symlink t)) ∧
  ∀ c t, fs !! (d ++ [c]) ≠ Some (Symlink t).

(** The annotations file of a context holds a text, read as [text]. *)
Definition annotations_text (ctx : LocalDirectoryContext) (fs : FS)
    (text : string) : Prop :=
  ∃ c, fs !! _annotations_path ctx = Some (File c) ∧ text_of c = Some text.

(** The link that [store_key] makes for the key [k]: relative to the link
    directory of the context. *)
Definition link_to (ctx : LocalDirectoryContext) (k : ModelHash) : node :=
  Symlink (relpath (db_path (model_database ctx) ++ [str k]) (_models_path ctx)).

(** * A small store, used by the examples

    A top context [work/run] with a subcontext [A], and two models with the
    same dataset stored from [A]. *)

Definition demo_hash (df : DataFrame) : string := "d41d8c".

Definition demo_db : LocalModelDirectoryDatabase :=
  mkDatabase ["work"; "run"; ".modeldb"] ".mod".

Definition demo_R : LocalDirectoryContext :=
  mkContext ["work"; "run"] ["work"; "run"] demo_db.

Definition demo_A : LocalDirectoryContext :=
  mkContext ["work"; "run"; "subcontexts"; "A"] ["work"; "run"] demo_db.

Definition demo_D1 : DataFrame := [[1; 10]; [2; 20]]%Z.

Definition demo_m1 : Model :=
  mkModel "m1" ".mod" "$PROBLEM one" demo_D1 (mkDataInfo None ["ID"; "DV"]).

Definition demo_m2 : Model :=
  mkModel "m2" ".mod" "$PROBLEM two" demo_D1 (mkDataInfo None ["ID"; "DV"]).

(** A third model, with the dataset of the other two and another
    description of its columns. *)
Definition demo_m3 : Model :=
  mkModel "m3" ".mod" "$PROBLEM three" demo_D1 (mkDataInfo None ["ID"; "CONC"]).

(** The filesystem after the two contexts have been made. *)
Definition demo_fs0 : FS :=
  final_fs (create_subcontext demo_R "A"
    (final_fs (LocalDirectoryContext_init "run" ["work"] None root_fs))).

(** ... and after [m1] and [m2] have been stored and committed. *)
Definition demo_fs : FS :=
  final_fs (transaction demo_db (inl demo_m2) (store_model demo_hash)
    (final_fs (transaction demo_db (inl demo_m1) (store_model demo_hash)
       demo_fs0))).

Definition demo_k1 : ModelHash := mkModelHash "m1".
Definition demo_k2 : ModelHash := mkModelHash "m2".

(** * Properties of the filesystem primitives *)

Ltac unfold_M :=
  unfold with_lock, catch, raise, reads in *;
  unfold mbind, mret in *; unfold M_bind, M_ret in *.

Lemma parent_snoc (p : path) (c : string) : parent (p ++ [c]) = p.
Proof. apply removelast_last. Qed.

Lemma path_name_snoc (p : path) (c : string) : path_name (p ++ [c]) = c.
Proof. apply last_last. Qed.

Lemma snoc_neq_self (p : path) (c : string) : p ++ [c] ≠ p.
Proof.
  intros H. apply (f_equal length) in H. rewrite length_app in H.
  simpl in H. lia.
Qed.

Lemma parent_neq (p : path) : p ≠ [] → parent p ≠ p.
Proof.
  intros Hp H. destruct (exists_last Hp) as (q & c & ->).
  rewrite parent_snoc in H. symmetry in H. by apply snoc_neq_self in H.
Qed.

Lemma prefix_snoc_inv (k l : path) (x : string) :
  k `prefix_of` l ++ [x] → k `prefix_of` l ∨ k = l ++ [x].
Proof.
  intros [r Hr]. destruct r as [|y r _] using rev_ind.
  - right. by rewrite app_nil_r in Hr.
  - left. rewrite app_assoc in Hr. apply app_inj_tail in Hr as [-> _].
    by exists r.
Qed.

Lemma wf_root fs : wf fs → fs !! [] = Some Dir.
Proof. by intros [? _]. Qed.

Lemma wf_parent fs p n :
  wf fs → fs !! p = Some n → p ≠ [] → fs !! parent p = Some Dir.
Proof.
  intros [_ H] Hp Hne. destruct (H p n Hp) as [->|?]; [done|done].
Qed.

(** In a well-formed filesystem everything above an entry is a directory. *)
Lemma wf_ancestor fs (p k : path) :
  wf fs → is_Some (fs !! (p ++ k)) → k ≠ [] → fs !! p = Some Dir.
Proof.
  intros Hwf. revert p. induction k as [|c k IH] using rev_ind; [done|].
  intros p [n Hn] _. rewrite app_assoc in Hn.
  assert (fs !! (p ++ k) = Some Dir) as Hd.
  { rewrite <- (parent_snoc (p ++ k) c). eapply wf_parent; eauto.
    by destruct (p ++ k). }
  destruct k as [|c' k'].
  - by rewrite app_nil_r in Hd.
  - apply IH; [by rewrite Hd|done].
Qed.

Lemma wf_insert fs p n :
  wf fs → p ≠ [] → fs !! parent p = Some Dir →
  (fs !! p = Some Dir → n = Dir) → wf (<[p := n]> fs).
Proof.
  intros Hwf Hp Hpar Hn. split.
  - rewrite lookup_insert_ne; [by apply wf_root|done].
  - intros q x Hq. destruct (decide (q = [])) as [|Hq0]; [by left|right].
    destruct (decide (q = p)) as [->|Hqp].
    + rewrite lookup_insert_ne; [done|by apply not_eq_sym, parent_neq].
    + rewrite lookup_insert_ne in Hq; [|done].
      pose proof (wf_parent _ _ _ Hwf Hq Hq0) as Hd.
      destruct (decide (p = parent q)) as [->|Hne].
      * rewrite lookup_insert_eq. by rewrite (Hn Hd).
      * by rewrite lookup_insert_ne.
Qed.

Lemma wf_delete fs p :
  wf fs → fs !! p ≠ Some Dir → wf (delete p fs).
Proof.
  intros Hwf Hp. split.
  - rewrite lookup_delete_ne; [by apply wf_root|].
    intros ->. by rewrite (wf_root _ Hwf) in Hp.
  - intros q x Hq. destruct (decide (q = [])) as [|Hq0]; [by left|right].
    destruct (decide (p = q)) as [->|Hqp].
    + by rewrite lookup_delete_eq in Hq.
    + rewrite lookup_delete_ne in Hq; [|done].
      pose proof (wf_parent _ _ _ Hwf Hq Hq0) as Hd.
      rewrite lookup_delete_ne; [done|]. intros ->. by rewrite Hd in Hp.
Qed.

Lemma wf_root_fs : wf root_fs.
Proof. apply (bool_decide_unpack _). by vm_compute. Qed.

(** ** [create] and the operations built on it *)

Lemma create_wf p n fs :
  wf fs → p ≠ [] → (fs !! p = Some Dir → n = Dir) →
  wf (final_fs (create p n fs)).
Proof.
  intros Hwf Hp Hn. unfold create.
  destruct (fs !! parent p) as [[]|] eqn:E; simpl; try done.
  by apply wf_insert.
Qed.

Lemma create_ok p n fs :
  fs !! parent p = Some Dir → create p n fs = Ok () (<[p := n]> fs).
Proof. intros H. unfold create. by rewrite H. Qed.

Lemma touch_wf p fs : wf fs → wf (final_fs (touch p fs)).
Proof.
  intros Hwf. unfold touch. destruct (fs !! p) eqn:E; [done|].
  apply create_wf; [done| |by rewrite E].
  intros ->. by rewrite (wf_root _ Hwf) in E.
Qed.

Lemma touch_excl_wf p fs : wf fs → wf (final_fs (touch_excl p fs)).
Proof.
  intros Hwf. unfold touch_excl. destruct (fs !! p) eqn:E; [done|].
  apply create_wf; [done| |by rewrite E].
  intros ->. by rewrite (wf_root _ Hwf) in E.
Qed.

Lemma unlink_wf p fs : wf fs → wf (final_fs (unlink p fs)).
Proof.
  intros Hwf. unfold unlink. destruct (fs !! p) as [[]|] eqn:E; simpl; try done.
  all: apply wf_delete; [done|by rewrite E].
Qed.

Lemma write_file_wf p c fs : wf fs → wf (final_fs (write_file p c fs)).
Proof.
  intros Hwf. unfold write_file.
  assert (p = [] → fs !! p = Some Dir) as H0 by (intros ->; by apply wf_root).
  destruct (fs !! p) as [[]|] eqn:E; simpl; try done.
  all: apply create_wf; [done| |by rewrite E]; intros Hp; by specialize (H0 Hp).
Qed.

Lemma symlink_to_wf p t fs : wf fs → wf (final_fs (symlink_to p t fs)).
Proof.
  intros Hwf. unfold symlink_to. destruct (fs !! p) eqn:E; [done|].
  apply create_wf; [done| |by rewrite E].
  intros ->. by rewrite (wf_root _ Hwf) in E.
Qed.

(** ** [mkdir_parents] *)

(** Whatever the outcome, a path is as before or is a new directory on the
    way to the target. *)
Lemma mkdir_from_lookup pre rest fs q :
  final_fs (mkdir_from pre rest fs) !! q = fs !! q ∨
  (fs !! q = None ∧ final_fs (mkdir_from pre rest fs) !! q = Some Dir ∧
   ∃ k, k ≠ [] ∧ k `prefix_of` rest ∧ q = pre ++ k).
Proof.
  revert pre fs. induction rest as [|c rest IH]; intros pre fs; simpl; [by left|].
  destruct (fs !! (pre ++ [c])) as [[]|] eqn:E; simpl; try by left.
  - destruct (IH (pre ++ [c]) fs) as [H|(H1 & H2 & k & Hk & Hpre & ->)]; [by left|].
    right. split_and!; [done|done|]. exists (c :: k).
    split_and!; [done|by apply prefix_cons|by rewrite <- app_assoc].
  - destruct (IH (pre ++ [c]) (<[pre ++ [c] := Dir]> fs))
      as [H|(H1 & H2 & k & Hk & Hpre & ->)].
    + destruct (decide (q = pre ++ [c])) as [->|Hne].
      * right. rewrite H, lookup_insert_eq. split_and!; [done|done|].
        exists [c]. split_and!; [done| |done].
        by apply prefix_cons, prefix_nil.
      * left. by rewrite H, lookup_insert_ne.
    + right. destruct (decide (pre ++ [c] = (pre ++ [c]) ++ k)) as [Heq|Hne].
      { rewrite <- Heq, lookup_insert_eq in H1. done. }
      rewrite lookup_insert_ne in H1; [|done].
      split_and!; [done|done|]. exists (c :: k).
      split_and!; [done|by apply prefix_cons|by rewrite <- app_assoc].
Qed.

Lemma mkdir_from_ok_dirs pre rest fs fs' k :
  mkdir_from pre rest fs = Ok () fs' →
  k ≠ [] → k `prefix_of` rest → fs' !! (pre ++ k) = Some Dir.
Proof.
  revert pre fs k. induction rest as [|c rest IH]; intros pre fs k Hok Hk Hpre.
  { apply prefix_nil_inv in Hpre. done. }
  destruct k as [|c' k]; [done|].
  apply prefix_cons_inv_1 in Hpre as Hc. apply prefix_cons_inv_2 in Hpre as Hk'.
  subst c'. simpl in Hok.
  assert (∀ fs0, fs0 !! (pre ++ [c]) = Some Dir →
            mkdir_from (pre ++ [c]) rest fs0 = Ok () fs' →
            fs' !! (pre ++ c :: k) = Some Dir) as Hstep.
  { intros fs0 Hd H0. destruct k as [|c2 k].
    - pose proof (mkdir_from_lookup (pre ++ [c]) rest fs0 (pre ++ [c])) as H.
      rewrite H0 in H. simpl in H. destruct H as [H|(H & _)]; congruence.
    - replace (pre ++ c :: c2 :: k) with ((pre ++ [c]) ++ c2 :: k)
        by (by rewrite <- app_assoc).
      by eapply IH. }
  destruct (fs !! (pre ++ [c])) as [[]|] eqn:E; try done.
  - by eapply Hstep.
  - eapply Hstep; [|done]. by rewrite lookup_insert_eq.
Qed.

Lemma mkdir_from_id pre rest fs :
  (∀ k, k ≠ [] → k `prefix_of` rest → fs !! (pre ++ k) = Some Dir) →
  mkdir_from pre rest fs = Ok () fs.
Proof.
  revert pre. induction rest as [|c rest IH]; intros pre H; [done|].
  simpl. rewrite (H [c]); [|done|by apply prefix_cons, prefix_nil].
  apply IH. intros k Hk Hpre. rewrite <- app_assoc. simpl.
  apply H; [done|by apply prefix_cons].
Qed.

Lemma mkdir_from_wf pre rest fs :
  wf fs → (pre = [] ∨ fs !! pre = Some Dir) →
  wf (final_fs (mkdir_from pre rest fs)).
Proof.
  revert pre fs. induction rest as [|c rest IH]; intros pre fs Hwf Hpre; [done|].
  simpl. destruct (fs !! (pre ++ [c])) as [[]|] eqn:E; simpl; try done.
  - apply IH; [done|by right].
  - apply IH.
    + apply wf_insert; [done|by destruct pre| |by rewrite E].
      rewrite parent_snoc. destruct Hpre as [->|?]; [by apply wf_root|done].
    + right. by rewrite lookup_insert_eq.
Qed.

Lemma mkdir_parents_wf p fs : wf fs → wf (final_fs (mkdir_parents p fs)).
Proof. intros. apply mkdir_from_wf; auto. Qed.

Lemma mkdir_parents_lookup p fs q :
  final_fs (mkdir_parents p fs) !! q = fs !! q ∨
  (fs !! q = None ∧ final_fs (mkdir_parents p fs) !! q = Some Dir ∧
   q ≠ [] ∧ q `prefix_of` p).
Proof.
  destruct (mkdir_from_lookup [] p fs q) as [?|(?&?&k&?&?&->)]; [by left|].
  right. done.
Qed.

Lemma mkdir_parents_ok_dir p fs fs' :
  mkdir_parents p fs = Ok () fs' → p ≠ [] → fs' !! p = Some Dir.
Proof. intros H Hp. by apply (mkdir_from_ok_dirs [] p fs fs' p). Qed.

Lemma mkdir_parents_ok_prefix p fs fs' q :
  mkdir_parents p fs = Ok () fs' → q ≠ [] → q `prefix_of` p →
  fs' !! q = Some Dir.
Proof. intros H Hq Hp. by apply (mkdir_from_ok_dirs [] p fs fs' q). Qed.

(** A directory that is there, in a well-formed filesystem, is left alone. *)
Lemma mkdir_parents_id p fs :
  wf fs → fs !! p = Some Dir → mkdir_parents p fs = Ok () fs.
Proof.
  intros Hwf Hp. apply mkdir_from_id. intros k Hk [r ->]. simpl.
  destruct r as [|c r]; [by rewrite app_nil_r in Hp|].
  apply (wf_ancestor fs k (c :: r)); [done|by rewrite Hp|done].
Qed.

(** The entries that are there are kept. *)
Lemma mkdir_parents_mono p fs q n :
  fs !! q = Some n → final_fs (mkdir_parents p fs) !! q = Some n.
Proof.
  intros H. destruct (mkdir_parents_lookup p fs q) as [->|(H'&_)]; congruence.
Qed.

Lemma mkdir_from_raise pre rest fs e fs' :
  mkdir_from pre rest fs = Raise e fs' →
  e = FileExistsError ∨ e = NotADirectoryError.
Proof.
  revert pre fs. induction rest as [|c rest IH]; intros pre fs; simpl; [done|].
  destruct (fs !! (pre ++ [c])) as [[]|]; try by apply IH.
  all: intros [= <- _]; destruct rest; auto.
Qed.

(** A directory can be made when nothing but directories is on the way. *)
Lemma mkdir_from_ok_if pre rest fs :
  (∀ k, k ≠ [] → k `prefix_of` rest →
        fs !! (pre ++ k) = None ∨ fs !! (pre ++ k) = Some Dir) →
  ∃ fs', mkdir_from pre rest fs = Ok () fs'.
Proof.
  revert pre fs. induction rest as [|c rest IH]; intros pre fs H;
    [by eexists|].
  simpl. destruct (H [c]) as [E|E]; [done|by apply prefix_cons, prefix_nil|..];
    rewrite E.
  - apply IH. intros k Hk Hp. rewrite <- app_assoc. simpl.
    rewrite lookup_insert_ne.
    + apply H; [done|by apply prefix_cons].
    + destruct k; [done|]. intros Heq. apply (f_equal length) in Heq.
      rewrite !length_app in Heq. simpl in Heq. lia.
  - apply IH. intros k Hk Hp. rewrite <- app_assoc. simpl.
    apply H; [done|by apply prefix_cons].
Qed.

Lemma mkdir_parents_ok_if p fs :
  (∀ k, k ≠ [] → k `prefix_of` p → fs !! k = None ∨ fs !! k = Some Dir) →
  ∃ fs', mkdir_parents p fs = Ok () fs'.
Proof. intros H. by apply mkdir_from_ok_if. Qed.

Lemma can_make_dir_mkdir p fs :
  can_make_dir p fs → ∃ fs', mkdir_parents p fs = Ok () fs'.
Proof. intros H. apply mkdir_parents_ok_if. intros k _ Hk. by apply H. Qed.

Lemma can_make_dir_dir p fs :
  wf fs → fs !! p = Some Dir → can_make_dir p fs.
Proof.
  intros Hwf Hp q [r ->]. right. destruct r as [|c r].
  - by rewrite app_nil_r in Hp.
  - apply (wf_ancestor fs q (c :: r)); [done|by rewrite Hp|done].
Qed.

(** The prefixes of a path are finitely many. *)
Lemma can_make_dir_intro p fs :
  Forall (λ n, fs !! take n p = None ∨ fs !! take n p = Some Dir)
         (seq 0 (S (length p))) →
  can_make_dir p fs.
Proof.
  intros H q [r ->]. rewrite Forall_forall in H.
  specialize (H (length q)). rewrite take_app_length in H. apply H.
  apply elem_of_seq. rewrite length_app. lia.
Qed.

Ltac path_neq :=
  let H := fresh in
  intros H; apply (f_equal length) in H;
  repeat (rewrite ?length_app in H; simpl in H); lia.

(** * The pending marker: transactions and snapshots *)

Lemma preserved_refl fs : preserved fs fs.
Proof. by intros q n. Qed.

Lemma preserved_trans fs1 fs2 fs3 :
  preserved fs1 fs2 → preserved fs2 fs3 → preserved fs1 fs3.
Proof. intros H1 H2 q n H. by apply H2, H1. Qed.

Lemma preserved_insert fs p n : fs !! p = None → preserved fs (<[p := n]> fs).
Proof.
  intros Hp q x Hq. rewrite lookup_insert_ne; [done|]. intros ->. congruence.
Qed.

Lemma mkdir_parents_preserved p fs :
  preserved fs (final_fs (mkdir_parents p fs)).
Proof. intros q n. apply mkdir_parents_mono. Qed.

Lemma touch_preserved p fs : preserved fs (final_fs (touch p fs)).
Proof.
  unfold touch. destruct (fs !! p) eqn:E; [apply preserved_refl|].
  unfold create. destruct (fs !! parent p) as [[]|]; simpl;
    try apply preserved_refl.
  by apply preserved_insert.
Qed.

(** The lock file of the database can be touched once the metadata
    directory of a record has been made. *)
Lemma touch_lock_ok db k fs fs1 :
  wf fs → mkdir_parents (metadata_dir db k) fs = Ok () fs1 →
  ∃ fs2, touch (db_path db ++ [FILE_LOCK]) fs1 = Ok () fs2 ∧
         (∀ q, q ≠ db_path db ++ [FILE_LOCK] → fs2 !! q = fs1 !! q) ∧
         is_Some (fs2 !! (db_path db ++ [FILE_LOCK])) ∧
         preserved fs1 fs2.
Proof.
  intros Hwf H1. pose proof (mkdir_parents_wf (metadata_dir db k) fs Hwf) as Hwf1.
  rewrite H1 in Hwf1. simpl in Hwf1.
  assert (fs1 !! db_path db = Some Dir) as Hdb.
  { destruct (decide (db_path db = [])) as [->|Hne]; [by apply wf_root|].
    apply (mkdir_parents_ok_prefix (metadata_dir db k) fs fs1); [done|done|].
    by exists [k; ".pharmpy"]. }
  pose proof (touch_preserved (db_path db ++ [FILE_LOCK]) fs1) as Hpres.
  unfold touch in *. destruct (fs1 !! (db_path db ++ [FILE_LOCK])) eqn:E.
  - exists fs1. split_and!; [done|done|by rewrite E|done].
  - rewrite create_ok; [|by rewrite parent_snoc].
    rewrite create_ok in Hpres; [|by rewrite parent_snoc].
    eexists. split_and!; [done| |by rewrite lookup_insert_eq|done].
    intros q Hq. by rewrite lookup_insert_ne.
Qed.

Lemma pending_path_parent db k : parent (pending_path db k) = metadata_dir db k.
Proof. unfold pending_path. apply parent_snoc. Qed.

Lemma pending_not_lock db k : pending_path db k ≠ db_path db ++ [FILE_LOCK].
Proof. unfold pending_path, metadata_dir. path_neq. Qed.

Lemma pending_not_on_way db k q :
  q `prefix_of` metadata_dir db k → q ≠ pending_path db k.
Proof.
  intros Hq ->. apply prefix_length in Hq. revert Hq.
  unfold pending_path, metadata_dir.
  repeat (rewrite ?length_app; simpl). lia.
Qed.

(** What making the metadata directory and touching the lock file, the
    common start of [snapshot] and [transaction], leaves behind. *)
Lemma mkdir_meta_pending db k fs :
  final_fs (mkdir_parents (metadata_dir db k) fs) !! pending_path db k
  = fs !! pending_path db k.
Proof.
  destruct (mkdir_parents_lookup (metadata_dir db k) fs (pending_path db k))
    as [?|(_&_&_&H)]; [done|]. by apply pending_not_on_way in H.
Qed.

Lemma mkdir_meta_ok db k fs :
  wf fs → marker_present db k fs →
  mkdir_parents (metadata_dir db k) fs = Ok () fs.
Proof.
  intros Hwf [n Hn]. apply mkdir_parents_id; [done|].
  rewrite <- pending_path_parent. eapply wf_parent; [done|done|].
  unfold pending_path. by destruct (metadata_dir db k).
Qed.

Lemma transaction_enter_spec db moe fs :
  wf fs →
  let k := model_name_of moe in
  match transaction_enter db moe fs with
  | Ok txn fs' =>
      txn = Transaction_init db moe ∧ ¬ marker_present db k fs ∧
      fs' !! pending_path db k = Some (File Empty) ∧
      wf fs' ∧ preserved fs fs'
  | Raise e fs' =>
      (e = PendingTransactionError ↔ marker_present db k fs) ∧
      wf fs' ∧ preserved fs fs'
  end.
Proof.
  intros Hwf k. unfold transaction_enter, _write_lock. fold k. unfold_M.
  pose proof (mkdir_parents_wf (metadata_dir db k) fs Hwf) as Hwf1.
  pose proof (mkdir_parents_preserved (metadata_dir db k) fs) as Hp1.
  pose proof (mkdir_meta_pending db k fs) as Hm1.
  destruct (mkdir_parents (metadata_dir db k) fs) as [[] fs1|e fs1] eqn:E1;
    simpl in *.
  2:{ split_and!; [|done|done]. split.
      - intros ->. apply mkdir_from_raise in E1. by destruct E1.
      - intros Hm. by rewrite (mkdir_meta_ok db k fs Hwf Hm) in E1. }
  destruct (touch_lock_ok db k fs fs1 Hwf E1) as (fs2 & E2 & Hf2 & _ & Hp2).
  pose proof (touch_wf (db_path db ++ [FILE_LOCK]) fs1 Hwf1) as Hwf2.
  rewrite E2 in *. simpl in Hwf2.
  assert (fs2 !! pending_path db k = fs !! pending_path db k) as Hm2.
  { rewrite Hf2; [done|apply pending_not_lock]. }
  fold (pending_path db k).
  unfold touch_excl. destruct (fs2 !! pending_path db k) as [n|] eqn:E3.
  - simpl. split_and!; [|done|by eapply preserved_trans].
    split; [|done]. intros _. unfold marker_present. by rewrite <- Hm2.
  - rewrite create_ok.
    2:{ rewrite pending_path_parent. eapply Hp2, mkdir_parents_ok_dir; [done|].
        unfold metadata_dir. by destruct (db_path db). }
    split_and!; [done| |by rewrite lookup_insert_eq| |].
    + unfold marker_present. rewrite <- Hm2. by intros [].
    + apply wf_insert; [done| | |by rewrite E3].
      * unfold pending_path. by destruct (metadata_dir db k).
      * rewrite pending_path_parent. eapply Hp2, mkdir_parents_ok_dir; [done|].
        unfold metadata_dir. by destruct (db_path db).
    + eapply preserved_trans; [done|]. eapply preserved_trans; [done|].
      by apply preserved_insert.
Qed.

Lemma result_raise {A} (o : outcome A) e :
  result o = inr e ↔ o = Raise e (final_fs o).
Proof. destruct o; simpl; split; congruence. Qed.

Lemma result_ok {A} (o : outcome A) a :
  result o = inl a ↔ o = Ok a (final_fs o).
Proof. destruct o; simpl; split; congruence. Qed.

Lemma exists_absent p fs : fs !! p = None → exists_ p fs = false.
Proof.
  intros H. unfold exists_, resolve. rewrite H, H. by apply bool_decide_eq_false_2.
Qed.

Lemma exists_not_link p fs n :
  fs !! p = Some n → (∀ t, n ≠ Symlink t) → exists_ p fs = true.
Proof.
  intros H Hn. unfold exists_, resolve. rewrite H.
  destruct n; try (by rewrite H; apply bool_decide_eq_true_2).
  by destruct (Hn target).
Qed.

Lemma snapshot_enter_spec db k fs :
  wf fs → (∀ t, fs !! pending_path db k ≠ Some (Symlink t)) →
  match snapshot_enter db k fs with
  | Ok snap fs' =>
      snap = mkSnapshot db k ∧ ¬ marker_present db k fs ∧
      wf fs' ∧ preserved fs fs' ∧
      ∀ q, fs' !! q = fs !! q ∨
           fs !! q = None ∧
           (fs' !! q = Some Dir ∧ q ≠ [] ∧ q `prefix_of` metadata_dir db k ∨
            fs' !! q = Some (File Empty) ∧ q = db_path db ++ [FILE_LOCK])
  | Raise e fs' =>
      (e = PendingTransactionError ↔ marker_present db k fs) ∧
      wf fs' ∧ preserved fs fs'
  end.
Proof.
  intros Hwf Hlink. unfold snapshot_enter, _read_lock. unfold_M.
  pose proof (mkdir_parents_wf (metadata_dir db k) fs Hwf) as Hwf1.
  pose proof (mkdir_parents_preserved (metadata_dir db k) fs) as Hp1.
  pose proof (mkdir_meta_pending db k fs) as Hm1.
  pose proof (mkdir_parents_lookup (metadata_dir db k) fs) as Hl1.
  destruct (mkdir_parents (metadata_dir db k) fs) as [[] fs1|e fs1] eqn:E1;
    simpl in *.
  2:{ split_and!; [|done|done]. split.
      - intros ->. apply mkdir_from_raise in E1. by destruct E1.
      - intros Hm. by rewrite (mkdir_meta_ok db k fs Hwf Hm) in E1. }
  destruct (touch_lock_ok db k fs fs1 Hwf E1) as (fs2 & E2 & Hf2 & _ & Hp2).
  pose proof (touch_wf (db_path db ++ [FILE_LOCK]) fs1 Hwf1) as Hwf2.
  rewrite E2 in *. simpl in Hwf2.
  assert (fs2 !! pending_path db k = fs !! pending_path db k) as Hm2.
  { rewrite Hf2; [done|apply pending_not_lock]. }
  fold (pending_path db k).
  destruct (fs !! pending_path db k) as [n|] eqn:E3.
  - rewrite (exists_not_link _ _ n); [|done|].
    2:{ intros t ->. by apply (Hlink t). }
    split_and!; [|done|by eapply preserved_trans].
    split; [|done]. intros _. unfold marker_present. by rewrite E3.
  - rewrite exists_absent; [|done].
    split_and!; [done| |done|by eapply preserved_trans|].
    { unfold marker_present. rewrite E3. by intros []. }
    intros q. destruct (decide (q = db_path db ++ [FILE_LOCK])) as [->|Hq].
    + destruct (fs !! (db_path db ++ [FILE_LOCK])) as [n|] eqn:E4.
      * left. by apply Hp2, Hp1.
      * right. split; [done|].
        destruct (Hl1 (db_path db ++ [FILE_LOCK])) as [H|(_ & Hd & Hn & H)].
        -- right. split; [|done].
           rewrite E4 in H. unfold touch in E2. rewrite H in E2.
           unfold create in E2.
           destruct (fs1 !! parent (db_path db ++ [FILE_LOCK])) as [[]|];
             try done.
           injection E2 as <-. by rewrite lookup_insert_eq.
        -- left. split_and!; [by apply Hp2|done|done].
    + rewrite Hf2; [|done]. destruct (Hl1 q) as [?|(?&?&?&?)]; [by left|].
      right. split; [done|]. by left.
Qed.

Lemma snapshot_enter_ok db k fs :
  wf fs → fs !! metadata_dir db k = Some Dir → fs !! pending_path db k = None →
  ∃ fs', snapshot_enter db k fs = Ok (mkSnapshot db k) fs'.
Proof.
  intros Hwf Hd Hp. unfold snapshot_enter, _read_lock. unfold_M.
  pose proof (mkdir_parents_id _ _ Hwf Hd) as E1. rewrite E1.
  destruct (touch_lock_ok db k fs fs Hwf E1) as (fs2 & E2 & Hf2 & _ & Hp2).
  rewrite E2. fold (pending_path db k).
  rewrite exists_absent; [by eexists|].
  rewrite Hf2; [done|apply pending_not_lock].
Qed.

(** A snapshot opens when the metadata directory of the record can be made
    and the record has no marker. *)
Lemma snapshot_enter_can db k fs :
  wf fs → can_make_dir (metadata_dir db k) fs → ¬ marker_present db k fs →
  ∃ fs1, snapshot_enter db k fs = Ok (mkSnapshot db k) fs1.
Proof.
  intros Hwf Hcan Hm. unfold snapshot_enter, _read_lock. unfold_M.
  destruct (can_make_dir_mkdir _ _ Hcan) as [fs1 E1]. rewrite E1.
  destruct (touch_lock_ok db k fs fs1 Hwf E1) as (fs2 & E2 & Hf2 & _ & Hp2).
  rewrite E2. fold (pending_path db k).
  rewrite exists_absent; [by eexists|].
  rewrite Hf2 by apply pending_not_lock.
  pose proof (mkdir_meta_pending db k fs) as H. rewrite E1 in H. simpl in H.
  rewrite H. unfold marker_present in Hm.
  destruct (fs !! pending_path db k); [|done]. by destruct Hm.
Qed.

Lemma transaction_eq {A} db moe (body : _ → M A) fs :
  transaction db moe body fs =
  match transaction_enter db moe fs with
  | Ok txn fs1 =>
      match body txn fs1 with
      | Ok r fs2 =>
          match unlink (pending_path db (model_name_of moe)) fs2 with
          | Ok _ fs3 => Ok r fs3
          | Raise e fs3 => Raise e fs3
          end
      | Raise e fs2 => Raise e fs2
      end
  | Raise e fs1 => Raise e fs1
  end.
Proof.
  unfold transaction, transaction_commit. unfold_M.
  destruct (transaction_enter db moe fs); [|done].
  by destruct (body a fs0).
Qed.

Lemma snapshot_eq {A} db k (body : _ → M A) fs :
  snapshot db k body fs =
  match snapshot_enter db k fs with
  | Ok snap fs1 => body snap fs1
  | Raise e fs1 => Raise e fs1
  end.
Proof. done. Qed.

(** C3. Opening a snapshot on a key fails with PendingTransactionError
    exactly when the PendingMarker of the key exists, and then the body of
    the snapshot is not run; after a transaction on the key has left its
    scope cleanly, the snapshot opens. *)
Theorem snapshot_pending_marker db k fs :
  wf fs → (∀ t, fs !! pending_path db k ≠ Some (Symlink t)) →
  (result (snapshot_enter db k fs) = inr PendingTransactionError
   ↔ marker_present db k fs)
  ∧ (marker_present db k fs →
     ∀ A (body : _ → M A),
       snapshot db k body fs
       = Raise PendingTransactionError (final_fs (snapshot_enter db k fs)))
  ∧ (∀ moe txn fs1,
       model_name_of moe = k → transaction_enter db moe fs = Ok txn fs1 →
       result (snapshot_enter db k fs1) = inr PendingTransactionError)
  ∧ (∀ moe A (body : _ → M A) r fs2,
       model_name_of moe = k →
       (∀ txn fs1, wf fs1 → wf (final_fs (body txn fs1))) →
       transaction db moe body fs = Ok r fs2 →
       result (snapshot_enter db k fs2) = inl (mkSnapshot db k)).
Proof.
  intros Hwf Hlink.
  assert (∀ fs0, wf fs0 → (∀ t, fs0 !! pending_path db k ≠ Some (Symlink t)) →
            (result (snapshot_enter db k fs0) = inr PendingTransactionError
             ↔ marker_present db k fs0)) as Hiff.
  { intros fs0 Hwf0 Hl0. pose proof (snapshot_enter_spec db k fs0 Hwf0 Hl0) as H.
    destruct (snapshot_enter db k fs0); simpl.
    - destruct H as (_ & H & _). split; [done|]. intros ?. by destruct H.
    - destruct H as ([H1 H2] & _). split; [intros [= ->]; by apply H1|].
      intros ?. by rewrite H2. }
  split_and!.
  - by apply Hiff.
  - intros Hm A body. rewrite snapshot_eq. apply Hiff in Hm; [|done|done].
    apply result_raise in Hm. by rewrite Hm.
  - intros moe txn fs1 <- E.
    pose proof (transaction_enter_spec db moe fs Hwf) as H. rewrite E in H.
    simpl in H. destruct H as (_ & _ & Hm & Hwf1 & _).
    apply Hiff; [done| |].
    + intros t. by rewrite Hm.
    + unfold marker_present. by rewrite Hm.
  - intros moe A body r fs2 <- Hbody. rewrite transaction_eq.
    pose proof (transaction_enter_spec db moe fs Hwf) as H. simpl in H.
    destruct (transaction_enter db moe fs) as [txn fs1|]; [|done].
    destruct H as (_ & _ & _ & Hwf1 & _).
    specialize (Hbody txn fs1 Hwf1).
    destruct (body txn fs1) as [r' fs2'|]; [|done]. simpl in Hbody.
    pose proof (unlink_wf (pending_path db (model_name_of moe)) fs2' Hbody) as Hwf3.
    unfold unlink in *.
    destruct (fs2' !! pending_path db (model_name_of moe)) as [[]|] eqn:E;
      try done.
    all: intros [= _ <-]; simpl in Hwf3.
    all: assert (fs2' !! metadata_dir db (model_name_of moe) = Some Dir) as Hd
           by (rewrite <- pending_path_parent; eapply wf_parent; [done|done|];
               unfold pending_path; by destruct (metadata_dir db _)).
    all: destruct (snapshot_enter_ok db (model_name_of moe) _ Hwf3)
           as [fs' ->]; [|by rewrite lookup_delete_eq|done].
    all: rewrite lookup_delete_ne; [done|].
    all: rewrite <- pending_path_parent; apply not_eq_sym, parent_neq.
    all: unfold pending_path; by destruct (metadata_dir db _).
Qed.

(** * Links: [relpath], [normalize] and [resolve] *)

Lemma normalize_onto_app stack l r :
  plain l → normalize_onto stack (l ++ r) = normalize_onto (rev l ++ stack) r.
Proof.
  intros Hl. revert stack. induction Hl as [|c l [H1 H2] Hl IH]; intros stack.
  - done.
  - simpl. rewrite !decide_False by done. rewrite IH, <- app_assoc. done.
Qed.

Lemma normalize_onto_ups a stack r :
  normalize_onto (a ++ stack) (replicate (length a) ".." ++ r)
  = normalize_onto stack r.
Proof. induction a as [|x a IH]; [done|]. simpl. exact IH. Qed.

Lemma normalize_onto_plain stack l :
  plain l → normalize_onto stack l = rev stack ++ l.
Proof.
  intros Hl. rewrite <- (app_nil_r l) at 1. rewrite normalize_onto_app by done.
  simpl. by rewrite rev_app_distr, rev_involutive.
Qed.

Lemma normalize_onto_back stack l r :
  plain l →
  normalize_onto stack (l ++ replicate (length l) ".." ++ r)
  = normalize_onto stack r.
Proof.
  intros Hl. rewrite normalize_onto_app by done.
  rewrite <- (length_rev l). apply normalize_onto_ups.
Qed.

Lemma relpath_nil_l start : relpath [] start = replicate (length start) ".." ++ [].
Proof. by destruct start. Qed.

Lemma relpath_nil_r target : relpath target [] = target.
Proof. by destruct target. Qed.

Lemma relpath_cons_eq s ts ss : relpath (s :: ts) (s :: ss) = relpath ts ss.
Proof. simpl. by rewrite decide_True. Qed.

Lemma relpath_cons_ne t s ts ss :
  t ≠ s →
  relpath (t :: ts) (s :: ss) = replicate (length (s :: ss)) ".." ++ t :: ts.
Proof. intros. simpl. by rewrite decide_False. Qed.

Lemma normalize_onto_relpath stack target start :
  plain start → plain target →
  normalize_onto stack (start ++ relpath target start) = rev stack ++ target.
Proof.
  intros Hs Ht. revert stack start Hs.
  induction Ht as [|t ts Ht Hts IH]; intros stack start Hs.
  - rewrite relpath_nil_l, normalize_onto_back by done. simpl.
    by rewrite app_nil_r.
  - destruct Hs as [|s ss Hs Hss].
    + rewrite relpath_nil_r. by apply normalize_onto_plain, Forall_cons.
    + destruct (decide (t = s)) as [->|Hne].
      * rewrite relpath_cons_eq. destruct Hs. simpl.
        rewrite !decide_False by done. rewrite IH by done.
        simpl. by rewrite <- app_assoc.
      * rewrite relpath_cons_ne, normalize_onto_back
          by (done || by apply Forall_cons).
        by apply normalize_onto_plain, Forall_cons.
Qed.

(** Reading a relative link from the directory it was computed for gives
    the target back. *)
Lemma normalize_relpath target start :
  plain start → plain target →
  normalize (start ++ relpath target start) = target.
Proof. intros. unfold normalize. by rewrite normalize_onto_relpath. Qed.

Lemma path_split (q : path) : q ≠ [] → q = parent q ++ [path_name q].
Proof. intros Hq. by apply app_removelast_last. Qed.

Lemma elem_of_iterdir p fs c :
  c ∈ iterdir p fs ↔ is_Some (fs !! (p ++ [c])).
Proof.
  unfold iterdir. rewrite list_elem_of_omap. split.
  - intros ([q n] & Hin & Hf). simpl in Hf.
    destruct (decide (q ≠ [] ∧ parent q = p)) as [[Hq <-]|]; [|done].
    injection Hf as <-. rewrite <- path_split by done.
    apply elem_of_map_to_list in Hin. by rewrite Hin.
  - intros [n Hn]. exists (p ++ [c], n). split.
    + by apply elem_of_map_to_list.
    + simpl. rewrite parent_snoc, path_name_snoc.
      rewrite decide_True; [done|]. split; [by destruct p|done].
Qed.

Lemma resolve_not_link p fs : (∀ t, fs !! p ≠ Some (Symlink t)) → resolve p fs = p.
Proof.
  intros H. unfold resolve. destruct (fs !! p) as [[]|] eqn:E; try done.
  by destruct (H target).
Qed.

Lemma resolve_link p fs t :
  fs !! p = Some (Symlink t) → resolve p fs = normalize (parent p ++ t).
Proof. intros H. unfold resolve. by rewrite H. Qed.

Lemma is_dir_dir p fs : fs !! p = Some Dir → is_dir p fs = true.
Proof.
  intros H. unfold is_dir. rewrite resolve_not_link by (intros t; by rewrite H).
  by apply bool_decide_eq_true_2.
Qed.

(** ** [store_key], [retrieve_key], [retrieve_name] *)

Lemma store_key_eq ctx nm k fs :
  store_key ctx nm k fs =
  if exists_ (_models_path ctx ++ [nm]) fs then Ok () fs
  else if exists_ (db_path (model_database ctx) ++ [str k]) fs
       then symlink_to (_models_path ctx ++ [nm])
              (relpath (db_path (model_database ctx) ++ [str k])
                 (_models_path ctx)) fs
       else Ok () fs.
Proof.
  unfold store_key, create_directory_symlink. unfold_M. rewrite parent_snoc.
  destruct (exists_ (_models_path ctx ++ [nm]) fs); [done|].
  by destruct (exists_ (db_path (model_database ctx) ++ [str k]) fs).
Qed.

Lemma retrieve_key_eq ctx nm fs :
  retrieve_key ctx nm fs =
  let symlink_path := _models_path ctx ++ [nm] in
  if decide (symlink_path = resolve symlink_path fs) then Raise KeyError fs
  else match snapshot_enter (model_database ctx)
               (path_name (resolve symlink_path fs)) fs with
       | Ok snap fs' => Ok (key snap) fs'
       | Raise e fs' => Raise e fs'
       end.
Proof.
  unfold retrieve_key, snapshot. unfold_M. simpl.
  destruct (decide _); [done|].
  by destruct (snapshot_enter _ _ fs).
Qed.

Lemma models_not_record ctx nm k :
  is_context ctx →
  _models_path ctx ++ [nm] ≠ db_path (model_database ctx) ++ [k].
Proof.
  intros [_ Hdb] H. rewrite Hdb in H. simpl in H. unfold _models_path in H.
  apply app_inj_tail in H as [H _]. by apply app_inj_tail in H as [_ H].
Qed.

Lemma plain_models ctx : plain (ctx_path ctx) → plain (_models_path ctx).
Proof.
  intros H. apply Forall_app. split; [done|].
  apply Forall_singleton. by split.
Qed.

(** The top path lies above the path of the context. *)
Lemma top_path_rev_suffix r t :
  top_path_rev r = Some t → t `suffix_of` r.
Proof.
  remember (length r) as n eqn:Hn. assert (length r ≤ n) as Hle by lia.
  clear Hn. revert r t Hle. induction n as [|n IH]; intros r t Hle.
  { destruct r; [done|simpl in Hle; lia]. }
  destruct r as [|nm [|sub r'']]; simpl; [done| |].
  - by intros [= <-].
  - destruct (decide (sub = "subcontexts")).
    + intros H. apply IH in H; [|simpl in Hle; lia].
      by apply suffix_cons_r, suffix_cons_r.
    + by intros [= <-].
Qed.

Lemma is_context_top_prefix ctx :
  is_context ctx → _top_path ctx `prefix_of` ctx_path ctx.
Proof.
  intros [H _]. apply top_path_rev_suffix in H as [k Hk].
  exists (rev k). apply (f_equal (@rev _)) in Hk.
  by rewrite rev_involutive, rev_app_distr, rev_involutive in Hk.
Qed.

Lemma plain_record ctx k :
  is_context ctx → plain (ctx_path ctx) → plain [k] →
  plain (db_path (model_database ctx) ++ [k]).
Proof.
  intros Hctx Hp Hk. destruct (is_context_top_prefix ctx Hctx) as [r Hr].
  destruct Hctx as [_ ->]. simpl. rewrite Hr in Hp.
  apply Forall_app in Hp as [Hp _].
  repeat (apply Forall_app; split); [done| |done].
  apply Forall_singleton. by split.
Qed.

Lemma resolve_link_to ctx nm k fs :
  is_context ctx → plain (ctx_path ctx) → plain [str k] →
  fs !! (_models_path ctx ++ [nm]) = Some (link_to ctx k) →
  resolve (_models_path ctx ++ [nm]) fs
  = db_path (model_database ctx) ++ [str k].
Proof.
  intros Hctx Hp Hk H. rewrite (resolve_link _ _ _ H), parent_snoc.
  apply normalize_relpath; [by apply plain_models|by apply plain_record].
Qed.

Lemma ModelHash_eta k : mkModelHash (str k) = k.
Proof. by destruct k. Qed.

(** Resolving a linked name gives the key, when the record of the key is
    there and not pending. *)
Lemma retrieve_key_linked ctx nm k fs :
  wf fs → is_context ctx → plain (ctx_path ctx) → plain [str k] →
  fs !! (_models_path ctx ++ [nm]) = Some (link_to ctx k) →
  fs !! metadata_dir (model_database ctx) (str k) = Some Dir →
  ¬ marker_present (model_database ctx) (str k) fs →
  result (retrieve_key ctx nm fs) = inl k.
Proof.
  intros Hwf Hctx Hp Hk Hl Hd Hm. rewrite retrieve_key_eq. simpl.
  rewrite (resolve_link_to ctx nm k fs) by done.
  rewrite decide_False by (by apply models_not_record).
  rewrite path_name_snoc.
  destruct (snapshot_enter_ok (model_database ctx) (str k) fs) as [fs' ->];
    [done|done| |].
  - unfold marker_present in Hm.
    destruct (fs !! pending_path (model_database ctx) (str k)); [|done].
    by destruct Hm.
  - simpl. unfold key. simpl. by rewrite ModelHash_eta.
Qed.

Lemma retrieve_name_loop_spec models d links fs :
  match retrieve_name_loop models d links fs with
  | Ok nm fs' =>
      fs' = fs ∧ nm ∈ links ∧ path_name (resolve (models ++ [nm]) fs) = d
  | Raise e fs' =>
      fs' = fs ∧ e = KeyError ∧
      ∀ l, l ∈ links → path_name (resolve (models ++ [l]) fs) ≠ d
  end.
Proof.
  induction links as [|l links IH]; simpl.
  - split_and!; [done|done|]. intros l Hl. by apply elem_of_nil in Hl.
  - unfold_M. destruct (decide (path_name (resolve (models ++ [l]) fs) = d))
      as [Hd|Hd].
    + rewrite path_name_snoc. split_and!; [done|by left|done].
    + destruct (retrieve_name_loop models d links fs) as [nm fs'|e fs'].
      * destruct IH as (-> & ? & ?). split_and!; [done|by right|done].
      * destruct IH as (-> & -> & IH). split_and!; [done|done|].
        intros l' [->|?]%elem_of_cons; [done|by apply IH].
Qed.

Lemma retrieve_name_spec ctx k fs :
  fs !! _models_path ctx = Some Dir →
  match retrieve_name ctx k fs with
  | Ok nm fs' =>
      fs' = fs ∧ is_Some (fs !! (_models_path ctx ++ [nm])) ∧
      path_name (resolve (_models_path ctx ++ [nm]) fs) = str k
  | Raise e fs' =>
      fs' = fs ∧ e = KeyError ∧
      ∀ l, is_Some (fs !! (_models_path ctx ++ [l])) →
           path_name (resolve (_models_path ctx ++ [l]) fs) ≠ str k
  end.
Proof.
  intros Hd. unfold retrieve_name. unfold_M. rewrite is_dir_dir by done.
  pose proof (retrieve_name_loop_spec (_models_path ctx) (str k)
                (iterdir (_models_path ctx) fs) fs) as H.
  destruct (retrieve_name_loop _ _ _ fs) as [nm fs'|e fs'].
  - destruct H as (-> & Hin & ?). by apply elem_of_iterdir in Hin.
  - destruct H as (-> & -> & H). split_and!; [done|done|].
    intros l Hl. by apply H, elem_of_iterdir.
Qed.

Lemma models_not_pending ctx nm db k :
  _models_path ctx ++ [nm] ≠ pending_path db k.
Proof.
  unfold _models_path, pending_path, metadata_dir. intros H.
  rewrite !app_assoc in H. apply app_inj_tail in H as [H _].
  by apply app_inj_tail in H as [_ H].
Qed.

(** The first link of a name: what [store_key] leaves behind. *)
Lemma store_key_fresh ctx nm k fs :
  wf fs →
  fs !! _models_path ctx = Some Dir →
  fs !! (db_path (model_database ctx) ++ [str k]) = Some Dir →
  fs !! (_models_path ctx ++ [nm]) = None →
  store_key ctx nm k fs
  = Ok () (<[_models_path ctx ++ [nm] := link_to ctx k]> fs).
Proof.
  intros Hwf Hm Hk Hn. rewrite store_key_eq.
  rewrite exists_absent by done.
  rewrite (exists_not_link _ _ Dir) by done.
  unfold symlink_to. rewrite Hn. rewrite create_ok; [done|].
  by rewrite parent_snoc.
Qed.

Lemma metadata_dir_parent db k : parent (metadata_dir db k) = db_path db ++ [k].
Proof. unfold metadata_dir. by rewrite app_assoc, parent_snoc. Qed.

Lemma record_dir_of_metadata db k fs :
  wf fs → fs !! metadata_dir db k = Some Dir → fs !! (db_path db ++ [k]) = Some Dir.
Proof.
  intros Hwf H. rewrite <- metadata_dir_parent. eapply wf_parent; [done|done|].
  unfold metadata_dir. by destruct (db_path db).
Qed.

(** C4, as the code has it.  Linking a name that is not linked yet to the
    key of a stored record that is not pending, and resolving the name,
    gives the key.  Linking a linked name again, to the same key or to
    another, changes nothing: the first link stays.  [retrieve_name] of the
    key gives a name linked to it, the name itself when no other entry of
    the link directory leads to the key. *)
Theorem store_key_first_link_stays ctx fs nm k :
  wf fs → is_context ctx → plain (ctx_path ctx) → plain [str k] →
  fs !! _models_path ctx = Some Dir →
  fs !! metadata_dir (model_database ctx) (str k) = Some Dir →
  ¬ marker_present (model_database ctx) (str k) fs →
  fs !! (_models_path ctx ++ [nm]) = None →
  ∃ fs1,
    store_key ctx nm k fs = Ok () fs1 ∧
    result (retrieve_key ctx nm fs1) = inl k ∧
    (∀ k2, store_key ctx nm k2 fs1 = Ok () fs1) ∧
    (∃ nm', retrieve_name ctx k fs1 = Ok nm' fs1 ∧
            path_name (resolve (_models_path ctx ++ [nm']) fs1) = str k) ∧
    ((∀ l, l ≠ nm → is_Some (fs !! (_models_path ctx ++ [l])) →
           path_name (resolve (_models_path ctx ++ [l]) fs) ≠ str k) →
     retrieve_name ctx k fs1 = Ok nm fs1).
Proof.
  intros Hwf Hctx Hp Hk Hmodels Hmeta Hpend Hfresh.
  pose proof (record_dir_of_metadata _ _ _ Hwf Hmeta) as Hrec.
  set (from := _models_path ctx ++ [nm]).
  set (fs1 := <[from := link_to ctx k]> fs).
  assert (fs1 !! from = Some (link_to ctx k)) as Hl by apply lookup_insert_eq.
  assert (∀ q, q ≠ from → fs1 !! q = fs !! q) as Hother
    by (intros q Hq; by apply lookup_insert_ne).
  assert (wf fs1) as Hwf1.
  { apply wf_insert; [done|by destruct (_models_path ctx)|
                      by unfold from; rewrite parent_snoc|].
    fold from in Hfresh. by rewrite Hfresh. }
  assert (resolve from fs1 = db_path (model_database ctx) ++ [str k]) as Hres
    by (by apply resolve_link_to).
  assert (fs1 !! _models_path ctx = Some Dir) as Hmodels1.
  { rewrite Hother; [done|]. unfold from. apply not_eq_sym, snoc_neq_self. }
  assert (∀ nm0, (match retrieve_name ctx k fs1 with
                  | Ok nm' fs' => nm' | Raise _ _ => nm0 end) = nm0 →
                 retrieve_name ctx k fs1 = Ok nm0 fs1) as Hname.
  { intros nm0 H. pose proof (retrieve_name_spec ctx k fs1 Hmodels1) as Hs.
    destruct (retrieve_name ctx k fs1) as [nm' fs'|e fs'].
    - destruct Hs as (-> & _). by subst.
    - destruct Hs as (_ & _ & Hs). destruct (Hs nm).
      + fold from. by rewrite Hl.
      + fold from. by rewrite Hres, path_name_snoc. }
  exists fs1. split_and!.
  - by apply store_key_fresh.
  - apply (retrieve_key_linked ctx nm k fs1); try done.
    + rewrite Hother; [done|]. intros H. fold from in Hfresh. congruence.
    + unfold marker_present. rewrite Hother; [done|].
      apply not_eq_sym, models_not_pending.
  - intros k2. rewrite store_key_eq. fold from. unfold exists_ at 1.
    rewrite Hres, Hother by (apply not_eq_sym; by apply models_not_record).
    rewrite Hrec. by rewrite bool_decide_eq_true_2.
  - pose proof (retrieve_name_spec ctx k fs1 Hmodels1) as Hs.
    destruct (retrieve_name ctx k fs1) as [nm' fs'|e fs'] eqn:E.
    + destruct Hs as (-> & _ & Hs). by exists nm'.
    + destruct Hs as (_ & _ & Hs). destruct (Hs nm).
      * fold from. by rewrite Hl.
      * fold from. by rewrite Hres, path_name_snoc.
  - intros Huniq. apply Hname.
    pose proof (retrieve_name_spec ctx k fs1 Hmodels1) as Hs.
    destruct (retrieve_name ctx k fs1) as [nm' fs'|e fs']; [|done].
    destruct Hs as (_ & Hin & Hs).
    destruct (decide (nm' = nm)) as [|Hne]; [done|].
    assert (_models_path ctx ++ [nm'] ≠ from) as Hne'.
    { unfold from. intros H. by apply app_inj_tail in H as [_ H]. }
    destruct (Huniq nm' Hne).
    + by rewrite <- Hother.
    + unfold resolve in *. by rewrite Hother in Hs.
Qed.

(** * The examples *)

Ltac by_compute := apply (bool_decide_unpack _); vm_compute; exact I.

Example demo_contexts :
  result (LocalDirectoryContext_init "run" ["work"] None root_fs) = inl demo_R ∧
  result (create_subcontext demo_R "A"
            (final_fs (LocalDirectoryContext_init "run" ["work"] None root_fs)))
  = inl demo_A.
Proof. by vm_compute. Qed.

Example demo_stored :
  result (transaction demo_db (inl demo_m1) (store_model demo_hash) demo_fs0)
  = inl (model_replace_datainfo demo_m1
           (mkDataInfo (Some (db_path demo_db ++ [".datasets"; "m1.csv"]))
              ["ID"; "DV"])) ∧
  wf demo_fs.
Proof. split; [by vm_compute|by_compute]. Qed.

(** C3, at the small store: no marker is there for [m1], so the snapshot
    opens; once a transaction on [m1] is open, it fails. *)
Lemma snapshot_pending_marker_witness :
  (wf demo_fs ∧ ∀ t, demo_fs !! pending_path demo_db "m1" ≠ Some (Symlink t)) ∧
  (result (snapshot_enter demo_db "m1" demo_fs) = inr PendingTransactionError
   ↔ marker_present demo_db "m1" demo_fs) ∧
  result (snapshot_enter demo_db "m1"
            (final_fs (transaction_enter demo_db (inl demo_m1) demo_fs)))
  = inr PendingTransactionError.
Proof.
  assert (wf demo_fs) as Hwf by by_compute.
  assert (∀ t, demo_fs !! pending_path demo_db "m1" ≠ Some (Symlink t)) as Hl.
  { assert (demo_fs !! pending_path demo_db "m1" = None) as E
      by (vm_compute; reflexivity).
    intros t. rewrite E. discriminate. }
  split; [by split|].
  destruct (snapshot_pending_marker demo_db "m1" demo_fs Hwf Hl)
    as (H1 & _ & H3 & _).
  split; [exact H1|].
  assert (result (transaction_enter demo_db (inl demo_m1) demo_fs)
          = inl (Transaction_init demo_db (inl demo_m1))) as E
    by (vm_compute; reflexivity).
  apply result_ok in E. exact (H3 (inl demo_m1) _ _ eq_refl E).
Defined.

(** C4, at the small store: [best] is linked to [m1] from the subcontext
    [A]. *)
Lemma store_key_first_link_stays_witness :
  (wf demo_fs ∧ is_context demo_A ∧ plain (ctx_path demo_A) ∧
   plain [str demo_k1] ∧
   demo_fs !! _models_path demo_A = Some Dir ∧
   demo_fs !! metadata_dir (model_database demo_A) (str demo_k1) = Some Dir ∧
   ¬ marker_present (model_database demo_A) (str demo_k1) demo_fs ∧
   demo_fs !! (_models_path demo_A ++ ["best"]) = None) ∧
  ∃ fs1,
    store_key demo_A "best" demo_k1 demo_fs = Ok () fs1 ∧
    result (retrieve_key demo_A "best" fs1) = inl demo_k1 ∧
    (∀ k2, store_key demo_A "best" k2 fs1 = Ok () fs1).
Proof.
  assert (wf demo_fs) as H1 by by_compute.
  assert (is_context demo_A) as H2 by by_compute.
  assert (plain (ctx_path demo_A)) as H3 by by_compute.
  assert (plain [str demo_k1]) as H4 by by_compute.
  assert (demo_fs !! _models_path demo_A = Some Dir) as H5
    by (vm_compute; reflexivity).
  assert (demo_fs !! metadata_dir (model_database demo_A) (str demo_k1)
          = Some Dir) as H6 by (vm_compute; reflexivity).
  assert (¬ marker_present (model_database demo_A) (str demo_k1) demo_fs)
    as H7 by by_compute.
  assert (demo_fs !! (_models_path demo_A ++ ["best"]) = None) as H8
    by (vm_compute; reflexivity).
  split; [split_and!; assumption|].
  destruct (store_key_first_link_stays demo_A demo_fs "best" demo_k1
              H1 H2 H3 H4 H5 H6 H7 H8) as (fs1 & Ha & Hb & Hc & _).
  exists fs1. by split_and!.
Defined.

(** C4 fails as it is stated: [best] is linked to [m1] and then to [m2];
    the second call changes nothing, [retrieve_key] still gives [m1], and
    no name leads to [m2]. *)
Lemma relink_does_not_overwrite :
  let fs1 := final_fs (store_key demo_A "best" demo_k1 demo_fs) in
  let fs2 := final_fs (store_key demo_A "best" demo_k2 fs1) in
  result (store_key demo_A "best" demo_k1 demo_fs) = inl () ∧
  result (store_key demo_A "best" demo_k2 fs1) = inl () ∧
  result (retrieve_key demo_A "best" fs2) = inl demo_k1 ∧
  result (retrieve_key demo_A "best" fs2) ≠ inl demo_k2 ∧
  result (retrieve_name demo_A demo_k2 fs2) = inr KeyError.
Proof.
  intros fs1 fs2.
  assert (result (retrieve_key demo_A "best" fs2) = inl demo_k1) as E
    by (vm_compute; reflexivity).
  split_and!; [by vm_compute|by vm_compute|exact E| |by vm_compute].
  rewrite E. discriminate.
Qed.

(** C10. [store_key] does nothing, and does not raise, when the name is
    bound already or when the record directory of the key is not there.
    It does not raise either when it makes the link, in a context whose
    link directory is there and holds no dangling link under the name.  A
    name that was not bound, linked to an absent key, stays unbound:
    resolving it fails with KeyError. *)
Theorem store_key_silent ctx fs nm k :
  let from_path := _models_path ctx ++ [nm] in
  let absolute_to_path := db_path (model_database ctx) ++ [str k] in
  (exists_ from_path fs = true ∨ exists_ absolute_to_path fs = false →
   store_key ctx nm k fs = Ok () fs)
  ∧ (fs !! _models_path ctx = Some Dir →
     (lexists from_path fs = true → exists_ from_path fs = true) →
     ∃ fs', store_key ctx nm k fs = Ok () fs')
  ∧ (fs !! from_path = None → exists_ absolute_to_path fs = false →
     store_key ctx nm k fs = Ok () fs ∧
     retrieve_key ctx nm fs = Raise KeyError fs).
Proof.
  intros from_path absolute_to_path.
  assert (exists_ from_path fs = true ∨ exists_ absolute_to_path fs = false →
          store_key ctx nm k fs = Ok () fs) as Hnoop.
  { intros H. rewrite store_key_eq. fold from_path absolute_to_path.
    destruct (exists_ from_path fs); [done|].
    destruct H as [H|H]; [done|]. by rewrite H. }
  split_and!; [done| |].
  - intros Hmodels Hdangling. rewrite store_key_eq.
    fold from_path absolute_to_path.
    destruct (exists_ from_path fs) eqn:E1; [by eexists|].
    destruct (exists_ absolute_to_path fs) eqn:E2; [|by eexists].
    unfold symlink_to. destruct (fs !! from_path) as [n|] eqn:E3.
    + exfalso. assert (false = true) as Hf; [|done].
      apply Hdangling. unfold lexists. rewrite E3.
      by apply bool_decide_eq_true_2.
    + rewrite create_ok; [by eexists|]. unfold from_path.
      by rewrite parent_snoc.
  - intros Hn Hk. split; [by apply Hnoop; right|].
    rewrite retrieve_key_eq. simpl. fold from_path.
    rewrite resolve_not_link by (intros t; by rewrite Hn).
    by rewrite decide_True.
Qed.

(** C10, at the small store: [m9] has no record, so linking [ghost] to it
    does nothing and [ghost] cannot be resolved. *)
Lemma store_key_silent_witness :
  (demo_fs !! (_models_path demo_A ++ ["ghost"]) = None ∧
   exists_ (db_path (model_database demo_A) ++ ["m9"]) demo_fs = false) ∧
  store_key demo_A "ghost" (mkModelHash "m9") demo_fs = Ok () demo_fs ∧
  retrieve_key demo_A "ghost" demo_fs = Raise KeyError demo_fs.
Proof.
  assert (demo_fs !! (_models_path demo_A ++ ["ghost"]) = None) as H1
    by (vm_compute; reflexivity).
  assert (exists_ (db_path (model_database demo_A) ++ ["m9"]) demo_fs = false)
    as H2 by (vm_compute; reflexivity).
  split; [by split|].
  destruct (store_key_silent demo_A demo_fs "ghost" (mkModelHash "m9"))
    as (_ & _ & H).
  exact (H H1 H2).
Defined.

(** * The log *)

Lemma count_slash_app a b :
  count_slash (a +:+ b) = count_slash a + count_slash b.
Proof. induction a as [|c a IH]; simpl; [done|]. rewrite IH. lia. Qed.

Lemma count_slash_join x names :
  Forall (λ n, count_slash n = 0) (x :: names) →
  count_slash (join_slash (x :: names)) = length names.
Proof.
  revert x. induction names as [|n names IH]; intros x Hall.
  - by apply Forall_cons in Hall as [? _].
  - apply Forall_cons in Hall as [Hx Hall].
    change (join_slash (x :: n :: names))
      with (x +:+ "/" +:+ join_slash (n :: names)).
    rewrite !count_slash_app, Hx, IH by done. done.
Qed.

Lemma every_other_steps x names :
  every_other (x :: subcontext_steps names) = x :: names.
Proof.
  revert x. induction names as [|n names IH]; intros x; [done|].
  change (every_other (x :: subcontext_steps (n :: names)))
    with (x :: every_other (n :: subcontext_steps names)).
  by rewrite IH.
Qed.

Lemma subcontext_steps_snoc names n :
  subcontext_steps (names ++ [n]) = subcontext_steps names ++ ["subcontexts"; n].
Proof.
  unfold subcontext_steps. by rewrite map_app, concat_app.
Qed.

(** The top of a descendant is the top of the context it descends from. *)
Lemma top_path_rev_steps p names :
  top_path_rev (rev (p ++ subcontext_steps names)) = top_path_rev (rev p).
Proof.
  induction names as [|n names IH] using rev_ind.
  - by rewrite app_nil_r.
  - rewrite subcontext_steps_snoc, app_assoc, rev_app_distr. simpl.
    by rewrite IH.
Qed.

(** ** Strings and plain fields *)

Lemma string_app_cons c a b : String c a +:+ b = String c (a +:+ b).
Proof. done. Qed.

Lemma string_app_nil_l a : EmptyString +:+ a = a.
Proof. done. Qed.

Lemma string_app_nil_r a : a +:+ EmptyString = a.
Proof. induction a as [|c a IH]; [done|]. by rewrite string_app_cons, IH. Qed.

Lemma string_app_assoc a b c : (a +:+ b) +:+ c = a +:+ (b +:+ c).
Proof.
  induction a as [|x a IH]; [done|]. by rewrite !string_app_cons, IH.
Qed.

Lemma occurs_app c a b : occurs c (a +:+ b) = occurs c a || occurs c b.
Proof.
  induction a as [|x a IH]; [done|]. rewrite string_app_cons. simpl.
  by rewrite IH, orb_assoc.
Qed.

Lemma occurs_cons_false c x s :
  occurs c (String x s) = false ↔ x ≠ c ∧ occurs c s = false.
Proof.
  simpl. rewrite orb_false_iff, bool_decide_eq_false. done.
Qed.

Lemma plain_field_cons c s :
  plain_field (String c s) →
  (c ≠ ","%char ∧ c ≠ dquote ∧ c ≠ LF ∧ c ≠ CR) ∧ plain_field s.
Proof.
  intros (H1 & H2 & H3 & H4).
  apply occurs_cons_false in H1 as [? ?], H2 as [? ?], H3 as [? ?], H4 as [? ?].
  by repeat split.
Qed.

Lemma plain_field_app a b : plain_field a → plain_field b → plain_field (a +:+ b).
Proof.
  intros (A1 & A2 & A3 & A4) (B1 & B2 & B3 & B4). unfold plain_field.
  rewrite !occurs_app, A1, A2, A3, A4, B1, B2, B3, B4. done.
Qed.

(** The logical path of contexts with plain names is a plain field. *)
Lemma plain_field_join x names :
  Forall plain_field (x :: names) → plain_field (join_slash (x :: names)).
Proof.
  revert x. induction names as [|n names IH]; intros x Hall.
  - by apply Forall_cons in Hall as [? _].
  - apply Forall_cons in Hall as [Hx Hall].
    change (join_slash (x :: n :: names))
      with (x +:+ "/" +:+ join_slash (n :: names)).
    apply plain_field_app; [done|]. apply plain_field_app; [|by apply IH].
    by repeat split.
Qed.

(** ** The reader on the lines of the log *)

Lemma tokenize_cons r c s :
  tokenize r (String c s)
  = with_record (csv_step r c).1 <$> tokenize (csv_step r c).2 s.
Proof. done. Qed.

Lemma with_record_None (x : option (list (list string))) :
  with_record None <$> x = x.
Proof. by destruct x. Qed.

Lemma csv_start_field_plain fs c :
  c ≠ ","%char → c ≠ dquote → c ≠ LF → c ≠ CR →
  csv_start_field fs c = (None, mkReader IN_FIELD (String c EmptyString) fs).
Proof. intros. unfold csv_start_field. by rewrite !decide_False by done. Qed.

Lemma csv_start_record_plain c :
  c ≠ ","%char → c ≠ dquote → c ≠ LF → c ≠ CR →
  csv_start_record c = (None, mkReader IN_FIELD (String c EmptyString) []).
Proof.
  intros. unfold csv_start_record. rewrite !decide_False by done.
  by apply csv_start_field_plain.
Qed.

(** The characters of a plain field are taken into the field. *)
Lemma tokenize_in_field p f fs rest :
  plain_field p →
  tokenize (mkReader IN_FIELD f fs) (p +:+ rest)
  = tokenize (mkReader IN_FIELD (f +:+ p) fs) rest.
Proof.
  revert f. induction p as [|c p IH]; intros f Hp.
  - by rewrite string_app_nil_l, string_app_nil_r.
  - apply plain_field_cons in Hp as [(H1 & H2 & H3 & H4) Hp].
    rewrite string_app_cons, tokenize_cons. unfold csv_step.
    cbn [csv_st csv_field csv_fields]. rewrite !decide_False by done.
    cbn [fst snd]. rewrite with_record_None, IH by done.
    unfold push_char. by rewrite string_app_assoc.
Qed.

(** A plain field and the comma after it, inside a record ... *)
Lemma tokenize_field_comma p fs rest :
  plain_field p →
  tokenize (mkReader START_FIELD EmptyString fs) (p +:+ String ","%char rest)
  = tokenize (mkReader START_FIELD EmptyString (fs ++ [p])) rest.
Proof.
  intros Hp. destruct p as [|c p].
  - rewrite string_app_nil_l, tokenize_cons. by rewrite with_record_None.
  - apply plain_field_cons in Hp as [(H1 & H2 & H3 & H4) Hp].
    rewrite string_app_cons, tokenize_cons. unfold csv_step.
    cbn [csv_st csv_field csv_fields].
    rewrite csv_start_field_plain by done. cbn [fst snd].
    rewrite with_record_None, tokenize_in_field by done.
    rewrite tokenize_cons. by rewrite with_record_None.
Qed.

(** ... and at the start of a record. *)
Lemma tokenize_first_field p rest :
  plain_field p →
  tokenize csv_init (p +:+ String ","%char rest)
  = tokenize (mkReader START_FIELD EmptyString [p]) rest.
Proof.
  intros Hp. destruct p as [|c p].
  - rewrite string_app_nil_l, tokenize_cons. by rewrite with_record_None.
  - apply plain_field_cons in Hp as [(H1 & H2 & H3 & H4) Hp].
    rewrite string_app_cons, tokenize_cons. unfold csv_step, csv_init.
    cbn [csv_st csv_field csv_fields].
    rewrite csv_start_record_plain by done. cbn [fst snd].
    rewrite with_record_None, tokenize_in_field by done.
    rewrite tokenize_cons. by rewrite with_record_None.
Qed.

(** A plain field that ends its record. *)
Lemma tokenize_last_field p fs rest :
  plain_field p →
  tokenize (mkReader START_FIELD EmptyString fs) (p +:+ String LF rest)
  = cons (fs ++ [p]) <$> tokenize csv_init rest.
Proof.
  intros Hp. destruct p as [|c p].
  - by rewrite string_app_nil_l, tokenize_cons.
  - apply plain_field_cons in Hp as [(H1 & H2 & H3 & H4) Hp].
    rewrite string_app_cons, tokenize_cons. unfold csv_step.
    cbn [csv_st csv_field csv_fields].
    rewrite csv_start_field_plain by done. cbn [fst snd].
    rewrite with_record_None, tokenize_in_field by done.
    by rewrite tokenize_cons.
Qed.

Lemma csv_step_quoted_quote f fs :
  csv_step (mkReader IN_QUOTED_FIELD f fs) dquote
  = (None, mkReader QUOTE_IN_QUOTED_FIELD f fs).
Proof. done. Qed.

Lemma csv_step_quoted_char f fs c :
  c ≠ dquote →
  csv_step (mkReader IN_QUOTED_FIELD f fs) c
  = (None, mkReader IN_QUOTED_FIELD (push_char f c) fs).
Proof. intros. unfold csv_step. simpl. by rewrite decide_False. Qed.

Lemma csv_step_quote_quote f fs :
  csv_step (mkReader QUOTE_IN_QUOTED_FIELD f fs) dquote
  = (None, mkReader IN_QUOTED_FIELD (push_char f dquote) fs).
Proof. done. Qed.

Lemma csv_step_quote_lf f fs :
  csv_step (mkReader QUOTE_IN_QUOTED_FIELD f fs) LF
  = (Some (fs ++ [f]), csv_init).
Proof. done. Qed.

(** A quoted field that ends its record: the quotes that were doubled are
    read as one, and every other character as it is. *)
Lemma tokenize_quoted m f fs rest :
  tokenize (mkReader IN_QUOTED_FIELD f fs)
    (double_quotes m +:+ String dquote (String LF rest))
  = cons (fs ++ [f +:+ m]) <$> tokenize csv_init rest.
Proof.
  revert f. induction m as [|c m IH]; intros f.
  - change (double_quotes EmptyString) with EmptyString.
    rewrite string_app_nil_l, string_app_nil_r.
    rewrite tokenize_cons, csv_step_quoted_quote. cbn [fst snd].
    rewrite with_record_None, tokenize_cons, csv_step_quote_lf. done.
  - change (double_quotes (String c m))
      with (if decide (c = dquote)
            then String dquote (String dquote (double_quotes m))
            else String c (double_quotes m)).
    destruct (decide (c = dquote)) as [->|Hc].
    + rewrite !string_app_cons.
      rewrite tokenize_cons, csv_step_quoted_quote. cbn [fst snd].
      rewrite with_record_None, tokenize_cons, csv_step_quote_quote.
      cbn [fst snd]. rewrite with_record_None, IH. unfold push_char.
      by rewrite string_app_assoc.
    + rewrite string_app_cons, tokenize_cons, csv_step_quoted_char by done.
      cbn [fst snd]. rewrite with_record_None, IH. unfold push_char.
      by rewrite string_app_assoc.
Qed.

Lemma log_line_app p t s m rest :
  log_line p t s m +:+ rest
  = p +:+ String ","%char (t +:+ String ","%char (s +:+ String ","%char
      (String dquote (double_quotes m +:+ String dquote (String LF rest))))).
Proof.
  unfold log_line, mangle_message.
  repeat rewrite ?string_app_assoc, ?string_app_cons, ?string_app_nil_l.
  done.
Qed.

(** A line of the log with plain fields is read as one record of four
    fields, the message as it was before it was quoted. *)
Lemma tokenize_log_line p t s m rest :
  plain_field p → plain_field t → plain_field s →
  tokenize csv_init (log_line p t s m +:+ rest)
  = cons [p; t; s; m] <$> tokenize csv_init rest.
Proof.
  intros Hp Ht Hs. rewrite log_line_app.
  rewrite tokenize_first_field, !tokenize_field_comma by done.
  rewrite tokenize_cons.
  change (csv_step (mkReader START_FIELD EmptyString (([p] ++ [t]) ++ [s]))
            dquote)
    with (@None (list string),
          mkReader IN_QUOTED_FIELD EmptyString (([p] ++ [t]) ++ [s])).
  cbn [fst snd].
  by rewrite with_record_None, tokenize_quoted, string_app_nil_l.
Qed.

Lemma tokenize_log_header rest :
  tokenize csv_init (log_header +:+ rest)
  = cons LOG_COLUMNS <$> tokenize csv_init rest.
Proof.
  assert (log_header +:+ rest
          = "path" +:+ String ","%char ("time" +:+ String ","%char
              ("severity" +:+ String ","%char ("message" +:+ String LF rest))))
    as -> by done.
  rewrite tokenize_first_field, !tokenize_field_comma by by_compute.
  by rewrite tokenize_last_field by by_compute.
Qed.

Lemma writelines_app a b : writelines (a ++ b) = writelines a +:+ writelines b.
Proof.
  induction a as [|x a IH]; [done|]. simpl. unfold writelines in *. simpl.
  by rewrite IH, string_app_assoc.
Qed.

Lemma log_text_snoc rows r :
  log_text (rows ++ [r])
  = log_text rows
    +:+ log_line (row_path r) (row_time r) (row_severity r) (row_message r).
Proof.
  unfold log_text. rewrite fmap_app, writelines_app, string_app_assoc.
  do 2 f_equal. unfold writelines. simpl. by rewrite string_app_nil_r.
Qed.

Lemma tokenize_log_lines rows :
  Forall plain_row rows →
  tokenize csv_init
    (writelines ((λ r, log_line (row_path r) (row_time r) (row_severity r)
                         (row_message r)) <$> rows))
  = Some ((λ r, [row_path r; row_time r; row_severity r; row_message r])
          <$> rows).
Proof.
  induction 1 as [|r rows (H1 & H2 & H3) Hrows IH]; [done|].
  rewrite fmap_cons.
  change (writelines (?l :: ?ls)) with (l +:+ writelines ls).
  rewrite tokenize_log_line, IH by done. done.
Qed.

(** The log with plain rows is read as its rows. *)
Lemma tokenize_log_text rows :
  Forall plain_row rows →
  tokenize csv_init (log_text rows)
  = Some (LOG_COLUMNS
          :: ((λ r, [row_path r; row_time r; row_severity r; row_message r])
              <$> rows)).
Proof.
  intros H. unfold log_text.
  by rewrite tokenize_log_header, tokenize_log_lines.
Qed.

Lemma mapM_row_of rows :
  mapM row_of
    ((λ r, [row_path r; row_time r; row_severity r; row_message r]) <$> rows)
  = Some rows.
Proof.
  induction rows as [|[p t s m] rows IH]; [done|].
  rewrite fmap_cons. cbn [mapM]. simpl. rewrite IH. done.
Qed.

Lemma pd_read_csv_log_text rows :
  Forall plain_row rows → pd_read_csv (log_text rows) = inl rows.
Proof.
  intros H. unfold pd_read_csv. rewrite tokenize_log_text by done.
  rewrite decide_True by (by apply list_elem_of_here).
  rewrite decide_True by done. by rewrite mapM_row_of.
Qed.

Lemma touch_lookup p fs q :
  final_fs (touch p fs) !! q = fs !! q ∨
  (q = p ∧ fs !! q = None ∧ final_fs (touch p fs) !! q = Some (File Empty)).
Proof.
  unfold touch. destruct (fs !! p) eqn:E; [by left|].
  unfold create. destruct (fs !! parent p) as [[]|]; simpl; try by left.
  destruct (decide (q = p)) as [->|]; [right|left].
  - by rewrite lookup_insert_eq.
  - by rewrite lookup_insert_ne.
Qed.

Lemma touch_ok p fs :
  fs !! parent p = Some Dir → touch p fs = Ok () (final_fs (touch p fs)).
Proof.
  intros H. unfold touch. destruct (fs !! p); [done|]. by rewrite create_ok.
Qed.

Lemma log_lock_path top :
  with_suffix (top ++ ["log.csv"]) ".lock" = top ++ ["log.lock"].
Proof. unfold with_suffix. by rewrite parent_snoc, path_name_snoc. Qed.

Lemma log_lock_not_log top : top ++ ["log.lock"] ≠ top ++ ["log.csv"].
Proof. intros H. by apply app_inv_head in H. Qed.

(** What [store_message] does to a log that is there: the line is put at
    its end, and nothing else changes but the lock file of the log. *)
Lemma store_message_spec ctx severity ctxpath date message fs text :
  wf fs → fs !! _log_path ctx = Some (File (Text text)) →
  ∃ fs1,
    store_message ctx severity ctxpath date message fs = Ok () fs1 ∧ wf fs1 ∧
    fs1 !! _log_path ctx
    = Some (File (Text (text +:+ log_line ctxpath date severity message))) ∧
    ∀ q, q ≠ _log_path ctx → q ≠ _top_path ctx ++ ["log.lock"] →
         fs1 !! q = fs !! q.
Proof.
  intros Hwf Hlog. unfold store_message, ctx_write_lock, _log_path in *.
  unfold_M. rewrite log_lock_path.
  assert (fs !! _top_path ctx = Some Dir) as Htop.
  { rewrite <- (parent_snoc (_top_path ctx) "log.csv").
    eapply wf_parent; [done|done|]. by destruct (_top_path ctx). }
  rewrite touch_ok by (by rewrite parent_snoc).
  set (fs0 := final_fs (touch (_top_path ctx ++ ["log.lock"]) fs)).
  assert (∀ q, q ≠ _top_path ctx ++ ["log.lock"] → fs0 !! q = fs !! q) as H0.
  { intros q Hq. by destruct (touch_lookup (_top_path ctx ++ ["log.lock"]) fs q)
      as [?|(? & _)]. }
  assert (wf fs0) as Hwf0 by (by apply touch_wf).
  unfold append_text. rewrite H0, Hlog by (apply not_eq_sym, log_lock_not_log).
  cbn [raw_text].
  eexists. split_and!; [done| |by rewrite lookup_insert_eq|].
  - apply wf_insert; [done|by destruct (_top_path ctx)| |].
    + rewrite parent_snoc, H0; [done|]. apply not_eq_sym, snoc_neq_self.
    + rewrite H0, Hlog by (apply not_eq_sym, log_lock_not_log). done.
  - intros q Hq1 Hq2. rewrite lookup_insert_ne by done. by apply H0.
Qed.

(** What [retrieve_log] reads from a log with plain rows. *)
Lemma retrieve_log_spec ctx level fs rows :
  wf fs → fs !! _log_path ctx = Some (File (Text (log_text rows))) →
  Forall plain_row rows →
  let curlevel := count_slash (context_path ctx) in
  result (retrieve_log ctx level fs) =
  inl (if decide (level = "lower")
       then filter (λ r, curlevel ≤ count_slash (row_path r)) rows
       else if decide (level = "current")
       then filter (λ r, count_slash (row_path r) = curlevel) rows
       else rows).
Proof.
  intros Hwf Hlog Hrows. unfold retrieve_log, ctx_read_lock, _log_path in *.
  unfold_M. rewrite log_lock_path.
  assert (fs !! _top_path ctx = Some Dir) as Htop.
  { rewrite <- (parent_snoc (_top_path ctx) "log.csv").
    eapply wf_parent; [done|done|]. by destruct (_top_path ctx). }
  rewrite touch_ok by (by rewrite parent_snoc).
  set (fs0 := final_fs (touch (_top_path ctx ++ ["log.lock"]) fs)).
  assert (fs0 !! (_top_path ctx ++ ["log.csv"])
          = Some (File (Text (log_text rows)))) as H0.
  { destruct (touch_lookup (_top_path ctx ++ ["log.lock"]) fs
                (_top_path ctx ++ ["log.csv"])) as [H|(H & _)].
    - unfold fs0. by rewrite H.
    - symmetry in H. by apply log_lock_not_log in H. }
  unfold read_csv, read_file. unfold_M. rewrite H0. cbn [raw_text].
  rewrite pd_read_csv_log_text by done. simpl.
  destruct (decide (level = "lower")); [done|].
  by destruct (decide (level = "current")).
Qed.

Lemma top_path_rev_nonempty r t : top_path_rev r = Some t → t ≠ [].
Proof.
  intros H Ht. subst t. apply top_path_rev_suffix in H as H'.
  remember (length r) as n eqn:Hn. assert (length r ≤ n) as Hle by lia.
  clear Hn H'. revert r H Hle. induction n as [|n IH]; intros r H Hle.
  { destruct r; [done|simpl in Hle; lia]. }
  destruct r as [|nm [|sub r'']]; simpl in H; [done|done|].
  destruct (decide (sub = "subcontexts")); [|done].
  apply IH in H; [done|simpl in Hle; lia].
Qed.

Lemma context_path_top ctx :
  is_context ctx → ctx_path ctx = _top_path ctx →
  context_path ctx = path_name (ctx_path ctx).
Proof.
  intros [Htop _] Heq. unfold context_path. rewrite <- Heq.
  assert (ctx_path ctx ≠ []) as Hne.
  { rewrite Heq. intros H0. apply top_path_rev_nonempty in Htop.
    rewrite H0 in Htop. done. }
  rewrite (path_split (ctx_path ctx) Hne) at 2.
  rewrite drop_app_length. done.
Qed.

Lemma context_path_steps R A names :
  is_context R → ctx_path R = _top_path R → is_context A →
  ctx_path A = ctx_path R ++ subcontext_steps names →
  _top_path A = _top_path R ∧
  context_path A = join_slash (path_name (ctx_path R) :: names).
Proof.
  intros [HtopR _] Heq [HtopA _] HA.
  assert (_top_path A = _top_path R) as Htop.
  { rewrite HA, top_path_rev_steps, HtopR in HtopA.
    injection HtopA as H. apply (f_equal (@rev _)) in H.
    by rewrite !rev_involutive in H. }
  split; [done|]. unfold context_path. rewrite Htop, HA, <- Heq.
  assert (ctx_path R ≠ []) as Hne.
  { rewrite Heq. intros H0. apply top_path_rev_nonempty in HtopR.
    rewrite H0 in HtopR. done. }
  rewrite (path_split (ctx_path R) Hne) at 2.
  rewrite <- app_assoc, drop_app_length.
  change ([path_name (ctx_path R)] ++ subcontext_steps names)
    with (path_name (ctx_path R) :: subcontext_steps names).
  by rewrite every_other_steps.
Qed.

(** C5, as the code has it.  A message logged from a context below the
    root is appended as one line to the log file of the root, and the line
    starts with the logical path of the context that logged it: the names
    from the root down to it, joined by slashes, without the [subcontexts]
    steps.  The path, the time and the severity are written as they are,
    so the line is read back as the row of the message when they hold no
    comma, no double quote and no line break.  Read at the root, the row is
    then the last one under [all] and under [lower], and it is not there
    under [current]: its path is deeper than the path of the root. *)
Theorem log_message_visibility R A names fs rows severity date message :
  is_context R → ctx_path R = _top_path R →
  is_context A → names ≠ [] →
  ctx_path A = ctx_path R ++ subcontext_steps names →
  Forall (λ n, count_slash n = 0) (path_name (ctx_path R) :: names) →
  Forall plain_field (path_name (ctx_path R) :: names) →
  plain_field severity → plain_field date →
  wf fs → fs !! _log_path R = Some (File (Text (log_text rows))) →
  Forall plain_row rows →
  let tag := join_slash (path_name (ctx_path R) :: names) in
  let row := mkLogRow tag date severity message in
  let root_log := _top_path R ++ ["log.csv"] in
  context_path A = tag ∧
  _log_path A = root_log ∧
  count_slash (context_path R) < count_slash tag ∧
  ∃ fs1,
    log_message A severity date message fs = Ok () fs1 ∧
    fs1 !! root_log
    = Some (File (Text (log_text rows +:+ log_line tag date severity message))) ∧
    (∀ q, q ≠ root_log → q ≠ _top_path R ++ ["log.lock"] →
          fs1 !! q = fs !! q) ∧
    result (retrieve_log R "all" fs1) = inl (rows ++ [row]) ∧
    result (retrieve_log R "lower" fs1) = inl (rows ++ [row]) ∧
    result (retrieve_log R "current" fs1)
    = inl (filter (λ r, count_slash (row_path r) = 0) rows) ∧
    row ∉ filter (λ r, count_slash (row_path r) = 0) rows.
Proof.
  intros HR Heq HA Hnames Hpath Hslash Hplain Hsev Hdate Hwf Hlog Hrows
    tag row root_log.
  destruct (context_path_steps R A names HR Heq HA Hpath) as [Htop HcA].
  pose proof (context_path_top R HR Heq) as HcR.
  assert (count_slash (context_path R) = 0) as H0.
  { rewrite HcR. by apply Forall_cons in Hslash as [? _]. }
  assert (count_slash tag = length names) as HnA
    by (by apply count_slash_join).
  assert (0 < length names) as Hlen by (destruct names; [done|simpl; lia]).
  assert (_log_path A = root_log) as HlogA
    by (unfold _log_path, root_log; by rewrite Htop).
  assert (plain_field tag) as Htag by (by apply plain_field_join).
  split_and!; [done|done|lia|].
  unfold log_message. rewrite HcA. fold tag.
  destruct (store_message_spec A severity tag date message
              fs (log_text rows) Hwf) as (fs1 & E & Hwf1 & Hl1 & Hframe).
  { by rewrite HlogA. }
  rewrite HlogA in Hl1, Hframe. rewrite Htop in Hframe. exists fs1.
  assert (fs1 !! _log_path R = Some (File (Text (log_text (rows ++ [row])))))
    as Hl1'.
  { by rewrite log_text_snoc. }
  assert (Forall plain_row (rows ++ [row])) as Hrows'.
  { apply Forall_app. split; [done|]. apply Forall_singleton. by split_and!. }
  pose proof (λ level, retrieve_log_spec R level fs1 _ Hwf1 Hl1' Hrows')
    as Hread.
  cbv zeta in Hread. rewrite H0 in Hread.
  split_and!; [done|done|done|by rewrite (Hread "all")| | |].
  - rewrite (Hread "lower"). simpl. f_equal.
    generalize (rows ++ [row]). intros l.
    induction l as [|r l IH]; [done|].
    rewrite filter_cons_True by lia. by rewrite IH.
  - rewrite (Hread "current"). simpl.
    rewrite filter_app, filter_cons_False, filter_nil, app_nil_r; [done|].
    simpl. lia.
  - intros Hin. apply list_elem_of_filter in Hin as [Hc _]. simpl in Hc. lia.
Qed.

(** C5, at the small store: an error logged from the subcontext [A] is
    written with the path [run/A]; at the root it is read under [all] and
    not under [current]. *)
Lemma log_message_visibility_witness :
  (is_context demo_R ∧ ctx_path demo_R = _top_path demo_R ∧
   is_context demo_A ∧ ["A"] ≠ [] ∧
   ctx_path demo_A = ctx_path demo_R ++ subcontext_steps ["A"] ∧
   Forall (λ n, count_slash n = 0) (path_name (ctx_path demo_R) :: ["A"]) ∧
   Forall plain_field (path_name (ctx_path demo_R) :: ["A"]) ∧
   plain_field "ERROR" ∧ plain_field "2024-01-01" ∧
   wf demo_fs ∧
   demo_fs !! _log_path demo_R = Some (File (Text (log_text []))) ∧
   Forall plain_row []) ∧
  context_path demo_A = "run/A" ∧
  ∃ fs1,
    log_message demo_A "ERROR" "2024-01-01" "no convergence" demo_fs
    = Ok () fs1 ∧
    fs1 !! _log_path demo_R
    = Some (File (Text (log_header
        +:+ log_line "run/A" "2024-01-01" "ERROR" "no convergence"))) ∧
    result (retrieve_log demo_R "all" fs1)
    = inl [mkLogRow "run/A" "2024-01-01" "ERROR" "no convergence"] ∧
    result (retrieve_log demo_R "lower" fs1)
    = inl [mkLogRow "run/A" "2024-01-01" "ERROR" "no convergence"] ∧
    result (retrieve_log demo_R "current" fs1) = inl [].
Proof.
  assert (is_context demo_R) as H1 by by_compute.
  assert (ctx_path demo_R = _top_path demo_R) as H2 by reflexivity.
  assert (is_context demo_A) as H3 by by_compute.
  assert (["A"] ≠ @nil string) as H4 by discriminate.
  assert (ctx_path demo_A = ctx_path demo_R ++ subcontext_steps ["A"]) as H5
    by reflexivity.
  assert (Forall (λ n, count_slash n = 0) (path_name (ctx_path demo_R) :: ["A"]))
    as H6 by (repeat constructor).
  assert (Forall plain_field (path_name (ctx_path demo_R) :: ["A"])) as H7
    by by_compute.
  assert (plain_field "ERROR") as H8 by by_compute.
  assert (plain_field "2024-01-01") as H9 by by_compute.
  assert (wf demo_fs) as H10 by by_compute.
  assert (demo_fs !! _log_path demo_R = Some (File (Text (log_text []))))
    as H11 by (vm_compute; reflexivity).
  assert (Forall plain_row []) as H12 by constructor.
  split; [split_and!; assumption|].
  destruct (log_message_visibility demo_R demo_A ["A"] demo_fs [] "ERROR"
              "2024-01-01" "no convergence" H1 H2 H3 H4 H5 H6 H7 H8 H9 H10
              H11 H12)
    as (Hc & _ & _ & fs1 & Ha & Hb & _ & Hall & Hlow & Hcur & _).
  split; [exact Hc|]. exists fs1.
  split; [exact Ha|]. split; [exact Hb|]. split; [exact Hall|].
  split; [exact Hlow|exact Hcur].
Defined.

(** C5, at the input where the code fails the claim.  The subcontext
    [a,b] of the root logs an error.  Its logical path is [run/a,b]; the
    line that is written has the message quoted and the path as it is, so
    it is a record of five fields that starts with [run/a]: it is not a row
    of the four columns of the log, and its path field is not the logical
    path of the context. *)
Lemma comma_in_name_splits_row :
  let made := create_subcontext demo_R "a,b" demo_fs in
  let B := mkContext ["work"; "run"; "subcontexts"; "a,b"] ["work"; "run"]
             demo_db in
  let logged :=
    log_message B "ERROR" "2024-01-01" "no convergence" (final_fs made) in
  let line := log_line "run/a,b" "2024-01-01" "ERROR" "no convergence" in
  let record := ["run/a"; "b"; "2024-01-01"; "ERROR"; "no convergence"] in
  result made = inl B ∧
  context_path B = "run/a,b" ∧
  result logged = inl () ∧
  final_fs logged !! _log_path demo_R
  = Some (File (Text (log_header +:+ line))) ∧
  tokenize csv_init (log_header +:+ line) = Some [LOG_COLUMNS; record] ∧
  row_of record = None ∧
  hd EmptyString record ≠ context_path B.
Proof.
  intros made B logged line record.
  split_and!; [by vm_compute..|discriminate].
Qed.

(** * Name links do not read contents *)

Lemma same_shape_insert fs1 fs2 p n :
  same_shape fs1 fs2 → same_shape (<[p := n]> fs1) (<[p := n]> fs2).
Proof.
  intros H q. destruct (decide (p = q)) as [->|].
  - by rewrite !lookup_insert_eq.
  - by rewrite !lookup_insert_ne.
Qed.

Ltac shape_cases H p :=
  let E1 := fresh "E" in
  let E2 := fresh "E" in
  let Hp := fresh "Hp" in
  lazymatch type of H with
  | same_shape ?fs1 ?fs2 =>
      pose proof (H p) as Hp;
      destruct (fs1 !! p) as [[]|] eqn:E1;
      destruct (fs2 !! p) as [[]|] eqn:E2;
      simpl in Hp; try discriminate Hp
  end.

Lemma same_shape_resolve fs1 fs2 p :
  same_shape fs1 fs2 → resolve p fs1 = resolve p fs2.
Proof.
  intros H. unfold resolve. shape_cases H p; try done. by injection Hp as ->.
Qed.

Lemma same_shape_is_Some fs1 fs2 p :
  same_shape fs1 fs2 → is_Some (fs1 !! p) ↔ is_Some (fs2 !! p).
Proof. intros H. shape_cases H p; split; intros [? ?]; by eauto. Qed.

Lemma same_shape_exists fs1 fs2 p :
  same_shape fs1 fs2 → exists_ p fs1 = exists_ p fs2.
Proof.
  intros H. unfold exists_. rewrite (same_shape_resolve fs1 fs2 p H).
  apply bool_decide_ext. by apply same_shape_is_Some.
Qed.

Lemma content_blind_ret {A} (a : A) : content_blind (mret a).
Proof. by intros fs1 fs2 H. Qed.

Lemma content_blind_raise {A} e : content_blind (@raise A e).
Proof. by intros fs1 fs2 H. Qed.

Lemma content_blind_bind {A B} (m : M A) (k : A → M B) :
  content_blind m → (∀ a, content_blind (k a)) → content_blind (m ≫= k).
Proof.
  intros Hm Hk fs1 fs2 H. unfold_M. destruct (Hm fs1 fs2 H) as [Hr Hs].
  destruct (m fs1) as [a1 fs1'|e1 fs1'], (m fs2) as [a2 fs2'|e2 fs2'];
    simpl in *; try discriminate Hr.
  - injection Hr as ->. by apply Hk.
  - by injection Hr as ->.
Qed.

Lemma content_blind_reads {A} (f : FS → A) :
  (∀ fs1 fs2, same_shape fs1 fs2 → f fs1 = f fs2) → content_blind (reads f).
Proof. intros Hf fs1 fs2 H. unfold reads. simpl. by rewrite (Hf fs1 fs2 H). Qed.

Lemma content_blind_create p n : content_blind (create p n).
Proof.
  intros fs1 fs2 H. unfold create. shape_cases H (parent p); try done.
  simpl. split; [done|]. by apply same_shape_insert.
Qed.

Lemma content_blind_touch p : content_blind (touch p).
Proof.
  intros fs1 fs2 H. unfold touch. shape_cases H p; try done.
  by apply content_blind_create.
Qed.

Lemma content_blind_symlink_to p t : content_blind (symlink_to p t).
Proof.
  intros fs1 fs2 H. unfold symlink_to. shape_cases H p; try done.
  by apply content_blind_create.
Qed.

Lemma content_blind_mkdir_from pre rest : content_blind (mkdir_from pre rest).
Proof.
  revert pre. induction rest as [|c rest IH]; intros pre fs1 fs2 H; [done|].
  simpl. shape_cases H (pre ++ [c]); try done.
  - by apply IH.
  - by apply IH, same_shape_insert.
Qed.

Lemma content_blind_snapshot_enter db k : content_blind (snapshot_enter db k).
Proof.
  unfold snapshot_enter, with_lock, _read_lock.
  apply content_blind_bind; [apply content_blind_mkdir_from|intros _].
  apply content_blind_bind.
  { apply content_blind_bind; [apply content_blind_touch|intros _].
    apply content_blind_ret. }
  intros _. apply content_blind_bind.
  { apply content_blind_reads. intros. by apply same_shape_exists. }
  intros []; [apply content_blind_raise|apply content_blind_ret].
Qed.

Lemma content_blind_store_key ctx nm k : content_blind (store_key ctx nm k).
Proof.
  unfold store_key, create_directory_symlink.
  apply content_blind_bind.
  { apply content_blind_reads. intros. by apply same_shape_exists. }
  intros []; [apply content_blind_ret|].
  apply content_blind_bind.
  { apply content_blind_reads. intros. by apply same_shape_exists. }
  intros []; [apply content_blind_symlink_to|apply content_blind_ret].
Qed.

Lemma content_blind_retrieve_key ctx nm : content_blind (retrieve_key ctx nm).
Proof.
  unfold retrieve_key, snapshot.
  apply content_blind_bind.
  { apply content_blind_reads. intros. by apply same_shape_resolve. }
  intros resolved_path. destruct (decide _); [apply content_blind_raise|].
  apply content_blind_bind; [apply content_blind_snapshot_enter|].
  intros snap. apply content_blind_ret.
Qed.

(** ** What name links write *)

Lemma store_key_lookup ctx nm k fs q :
  q ≠ _models_path ctx ++ [nm] →
  final_fs (store_key ctx nm k fs) !! q = fs !! q.
Proof.
  intros Hq. rewrite store_key_eq.
  destruct (exists_ (_models_path ctx ++ [nm]) fs); [done|].
  destruct (exists_ _ fs); [|done].
  unfold symlink_to. destruct (fs !! (_models_path ctx ++ [nm])); [done|].
  unfold create. destruct (fs !! parent _) as [[]|]; simpl; try done.
  by rewrite lookup_insert_ne.
Qed.

(** Whatever its outcome, opening a snapshot changes no entry; it may add
    the metadata directory of the record, with the directories above it,
    and the lock file of the database. *)
Lemma snapshot_enter_lookup db k fs q :
  final_fs (snapshot_enter db k fs) !! q = fs !! q ∨
  fs !! q = None ∧
  (final_fs (snapshot_enter db k fs) !! q = Some Dir ∧
     q ≠ [] ∧ q `prefix_of` metadata_dir db k ∨
   final_fs (snapshot_enter db k fs) !! q = Some (File Empty) ∧
     q = db_path db ++ [FILE_LOCK]).
Proof.
  unfold snapshot_enter, _read_lock. unfold_M.
  pose proof (mkdir_parents_lookup (metadata_dir db k) fs q) as H1.
  set (fs1 := final_fs (mkdir_parents (metadata_dir db k) fs)) in *.
  pose proof (touch_lookup (db_path db ++ [FILE_LOCK]) fs1 q) as H2.
  set (fs2 := final_fs (touch (db_path db ++ [FILE_LOCK]) fs1)) in *.
  assert (fs1 !! q = fs !! q ∨
          fs !! q = None ∧
          (fs1 !! q = Some Dir ∧ q ≠ [] ∧ q `prefix_of` metadata_dir db k ∨
           fs1 !! q = Some (File Empty) ∧ q = db_path db ++ [FILE_LOCK]))
    as G1.
  { destruct H1 as [?|(?&?&?&?)]; [by left|right]. split; [done|by left]. }
  assert (fs2 !! q = fs !! q ∨
          fs !! q = None ∧
          (fs2 !! q = Some Dir ∧ q ≠ [] ∧ q `prefix_of` metadata_dir db k ∨
           fs2 !! q = Some (File Empty) ∧ q = db_path db ++ [FILE_LOCK]))
    as G2.
  { destruct H2 as [H2|(-> & H2 & H3)]; [by rewrite H2|].
    destruct H1 as [H1|(_&H1&_)]; [|congruence].
    right. split; [congruence|]. by right. }
  clear H1 H2. subst fs2 fs1.
  destruct (mkdir_parents (metadata_dir db k) fs) as [[] fs1|e fs1];
    simpl in *; [|done].
  destruct (touch (db_path db ++ [FILE_LOCK]) fs1) as [[] fs2|e fs2];
    simpl in *; [|done].
  by destruct (exists_ _ fs2).
Qed.

Lemma top_path_rev_steps_inv r t :
  top_path_rev r = Some t → ∃ names, rev r = rev t ++ subcontext_steps names.
Proof.
  remember (length r) as n eqn:Hn. assert (length r ≤ n) as Hle by lia.
  clear Hn. revert r t Hle. induction n as [|n IH]; intros r t Hle.
  { destruct r; [done|simpl in Hle; lia]. }
  destruct r as [|nm [|sub r'']]; simpl; [done| |].
  - intros [= <-]. exists []. by rewrite app_nil_r.
  - destruct (decide (sub = "subcontexts")) as [->|].
    + intros H. apply IH in H as [names Hn]; [|simpl in Hle; lia].
      exists (names ++ [nm]). rewrite subcontext_steps_snoc, Hn.
      by rewrite <- !app_assoc.
    + intros [= <-]. exists []. by rewrite app_nil_r.
Qed.

Lemma is_context_steps ctx :
  is_context ctx → ∃ names, ctx_path ctx = _top_path ctx ++ subcontext_steps names.
Proof.
  intros [H _]. apply top_path_rev_steps_inv in H as [names H].
  exists names. by rewrite !rev_involutive in H.
Qed.

(** No link of a context lies in the dataset store. *)
Lemma link_not_in_datasets ctx nm q :
  is_context ctx →
  (db_path (model_database ctx) ++ [DIRECTORY_DATASETS]) `prefix_of` q →
  q ≠ _models_path ctx ++ [nm].
Proof.
  intros Hctx [r ->] H. destruct (is_context_steps ctx Hctx) as [names Hn].
  destruct Hctx as [_ Hdb]. rewrite Hdb in H. simpl in H.
  unfold _models_path in H. rewrite Hn in H.
  rewrite <- !app_assoc in H. apply app_inv_head in H.
  destruct names as [|n names]; simpl in H; discriminate H.
Qed.

(** C8, as the code has it.  [store_key] writes nothing but the link, so
    it leaves the dataset store as it is.  [retrieve_key] opens a snapshot
    on the record the link leads to: it changes and removes no entry, and
    adds at most the metadata directory of that record, with the
    directories above it, and the lock file of the database; it leaves the
    dataset store as it is unless the link leads to an entry with the name
    of the dataset directory, where it adds that directory and the metadata
    directory in it.  On a name that [store_key] has linked, it fails with
    PendingTransactionError when the marker of the record is there, and
    gives the key when it is not.  Neither reads the content of a file. *)
Theorem name_links_leave_contents ctx nm k fs :
  let from_path := _models_path ctx ++ [nm] in
  let db := model_database ctx in
  let datasets_path := db_path db ++ [DIRECTORY_DATASETS] in
  let digest := path_name (resolve from_path fs) in
  (∀ q, q ≠ from_path → final_fs (store_key ctx nm k fs) !! q = fs !! q)
  ∧ (∀ q, final_fs (retrieve_key ctx nm fs) !! q = fs !! q ∨
          fs !! q = None ∧
          (final_fs (retrieve_key ctx nm fs) !! q = Some Dir ∧
             q ≠ [] ∧ q `prefix_of` metadata_dir db digest ∨
           final_fs (retrieve_key ctx nm fs) !! q = Some (File Empty) ∧
             q = db_path db ++ [FILE_LOCK]))
  ∧ (is_context ctx →
     ∀ q, datasets_path `prefix_of` q →
       final_fs (store_key ctx nm k fs) !! q = fs !! q ∧
       (final_fs (retrieve_key ctx nm fs) !! q = fs !! q ∨
        digest = DIRECTORY_DATASETS ∧ fs !! q = None ∧
        final_fs (retrieve_key ctx nm fs) !! q = Some Dir ∧
        (q = datasets_path ∨
         q = datasets_path ++ [DIRECTORY_PHARMPY_METADATA])))
  ∧ (wf fs → is_context ctx → plain (ctx_path ctx) → plain [str k] →
     fs !! from_path = Some (link_to ctx k) →
     (marker_present db (str k) fs →
      (∀ t, fs !! pending_path db (str k) ≠ Some (Symlink t)) →
      result (retrieve_key ctx nm fs) = inr PendingTransactionError)
     ∧ (¬ marker_present db (str k) fs →
        can_make_dir (metadata_dir db (str k)) fs →
        result (retrieve_key ctx nm fs) = inl k))
  ∧ content_blind (store_key ctx nm k)
  ∧ content_blind (retrieve_key ctx nm).
Proof.
  intros from_path db datasets_path digest.
  assert (∀ q, final_fs (retrieve_key ctx nm fs) !! q = fs !! q ∨
          fs !! q = None ∧
          (final_fs (retrieve_key ctx nm fs) !! q = Some Dir ∧
             q ≠ [] ∧ q `prefix_of` metadata_dir db digest ∨
           final_fs (retrieve_key ctx nm fs) !! q = Some (File Empty) ∧
             q = db_path db ++ [FILE_LOCK])) as Hretr.
  { intros q. rewrite retrieve_key_eq. simpl. fold from_path digest db.
    destruct (decide (from_path = resolve from_path fs)); [by left|].
    pose proof (snapshot_enter_lookup db digest fs q) as H.
    by destruct (snapshot_enter db digest fs). }
  split_and!.
  - intros q Hq. by apply store_key_lookup.
  - done.
  - intros Hctx q Hq. split.
    + apply store_key_lookup. by apply link_not_in_datasets.
    + destruct (Hretr q) as [?|(Hn & [(Hd & _ & H)|(_ & H)])]; [by left| |].
      * right. destruct Hq as [r ->].
        unfold datasets_path, metadata_dir in H. rewrite <- !app_assoc in H.
        apply prefix_app_inv in H. simpl in H.
        pose proof (prefix_cons_inv_1 _ _ _ _ H) as Heq.
        apply prefix_cons_inv_2 in H.
        split_and!; [done|done|done|].
        destruct r as [|c r]; [left; by rewrite app_nil_r|right].
        pose proof (prefix_cons_inv_1 _ _ _ _ H) as Hc.
        apply prefix_cons_inv_2, prefix_nil_inv in H.
        subst. unfold datasets_path. by rewrite <- app_assoc.
      * exfalso. destruct Hq as [r Hr]. rewrite Hr in H.
        unfold datasets_path in H. rewrite <- !app_assoc in H.
        apply app_inv_head in H. discriminate H.
  - intros Hwf Hctx Hp Hk Hl.
    assert (retrieve_key ctx nm fs
            = match snapshot_enter db (str k) fs with
              | Ok snap fs' => Ok (key snap) fs'
              | Raise e fs' => Raise e fs'
              end) as E.
    { rewrite retrieve_key_eq. simpl.
      rewrite (resolve_link_to ctx nm k fs) by done.
      rewrite decide_False by (by apply models_not_record).
      by rewrite path_name_snoc. }
    split.
    + intros Hm Hnl.
      pose proof (snapshot_enter_spec db (str k) fs Hwf Hnl) as H.
      rewrite E. destruct (snapshot_enter db (str k) fs) as [snap fs'|e fs'].
      * by destruct H as (_ & ? & _).
      * destruct H as ([_ H] & _). simpl. by rewrite (H Hm).
    + intros Hm Hcan.
      destruct (snapshot_enter_can db (str k) fs Hwf Hcan Hm) as [fs1 E1].
      rewrite E, E1. simpl. unfold key. simpl. by rewrite ModelHash_eta.
  - apply content_blind_store_key.
  - apply content_blind_retrieve_key.
Qed.

(** C8 fails as it is stated.  With [best] linked to [m1], open a
    transaction on [m1]: the link and the listing of the link directory are
    as before, and resolving [best] no longer gives [m1] but fails with
    PendingTransactionError.  Resolution is not by link traversal alone. *)
Lemma resolution_depends_on_marker :
  let fs_a := final_fs (store_key demo_A "best" demo_k1 demo_fs) in
  let fs_b := final_fs (transaction_enter demo_db (inl demo_m1) fs_a) in
  fs_a !! (_models_path demo_A ++ ["best"])
  = fs_b !! (_models_path demo_A ++ ["best"]) ∧
  iterdir (_models_path demo_A) fs_a = iterdir (_models_path demo_A) fs_b ∧
  result (retrieve_key demo_A "best" fs_a) = inl demo_k1 ∧
  result (retrieve_key demo_A "best" fs_b) = inr PendingTransactionError.
Proof. intros fs_a fs_b. split_and!; by vm_compute. Qed.

(** A name linked to the key [.datasets] leads to the dataset directory:
    resolving it opens a snapshot there and makes the directory
    [.datasets/.pharmpy]. *)
Example link_to_datasets_makes_metadata :
  let k := mkModelHash DIRECTORY_DATASETS in
  let fs1 := final_fs (store_key demo_A "data" k demo_fs) in
  let made := db_path demo_db ++ [DIRECTORY_DATASETS; DIRECTORY_PHARMPY_METADATA] in
  fs1 !! (_models_path demo_A ++ ["data"]) = Some (link_to demo_A k) ∧
  fs1 !! made = None ∧
  result (retrieve_key demo_A "data" fs1) = inl k ∧
  final_fs (retrieve_key demo_A "data" fs1) !! made = Some Dir.
Proof. intros k fs1 made. split_and!; by vm_compute. Qed.

(** C8, at the small store.  [best] is linked to [m1] from the subcontext
    [A]: the link is all that is written, and resolving [best] gives [m1]
    and leaves the dataset store as it is.  Once a transaction is open on
    [m1], resolving [best] fails with PendingTransactionError. *)
Lemma name_links_leave_contents_witness :
  let fs_a := final_fs (store_key demo_A "best" demo_k1 demo_fs) in
  let fs_b := final_fs (transaction_enter demo_db (inl demo_m1) fs_a) in
  (is_context demo_A ∧ plain (ctx_path demo_A) ∧ plain [str demo_k1] ∧
   wf fs_a ∧ wf fs_b ∧
   fs_a !! (_models_path demo_A ++ ["best"]) = Some (link_to demo_A demo_k1) ∧
   fs_b !! (_models_path demo_A ++ ["best"]) = Some (link_to demo_A demo_k1) ∧
   ¬ marker_present demo_db "m1" fs_a ∧
   can_make_dir (metadata_dir demo_db "m1") fs_a ∧
   marker_present demo_db "m1" fs_b ∧
   (∀ t, fs_b !! pending_path demo_db "m1" ≠ Some (Symlink t))) ∧
  (∀ q, (db_path demo_db ++ [DIRECTORY_DATASETS]) `prefix_of` q →
        fs_a !! q = demo_fs !! q ∧
        final_fs (retrieve_key demo_A "best" fs_a) !! q = fs_a !! q) ∧
  result (retrieve_key demo_A "best" fs_a) = inl demo_k1 ∧
  result (retrieve_key demo_A "best" fs_b) = inr PendingTransactionError.
Proof.
  intros fs_a fs_b.
  assert (is_context demo_A) as H1 by by_compute.
  assert (plain (ctx_path demo_A)) as H2 by by_compute.
  assert (plain [str demo_k1]) as H3 by by_compute.
  assert (wf fs_a) as H4 by by_compute.
  assert (wf fs_b) as H5 by by_compute.
  assert (fs_a !! (_models_path demo_A ++ ["best"])
          = Some (link_to demo_A demo_k1)) as H6 by (vm_compute; reflexivity).
  assert (fs_b !! (_models_path demo_A ++ ["best"])
          = Some (link_to demo_A demo_k1)) as H7 by (vm_compute; reflexivity).
  assert (¬ marker_present demo_db "m1" fs_a) as H8 by by_compute.
  assert (can_make_dir (metadata_dir demo_db "m1") fs_a) as H9
    by (apply can_make_dir_intro; by_compute).
  assert (marker_present demo_db "m1" fs_b) as H10 by by_compute.
  assert (fs_b !! pending_path demo_db "m1" = Some (File Empty)) as E
    by (vm_compute; reflexivity).
  assert (∀ t, fs_b !! pending_path demo_db "m1" ≠ Some (Symlink t)) as H11
    by (intros t; rewrite E; discriminate).
  assert (path_name (resolve (_models_path demo_A ++ ["best"]) fs_a) = "m1")
    as D by (vm_compute; reflexivity).
  split; [split_and!; assumption|].
  destruct (name_links_leave_contents demo_A "best" demo_k1 demo_fs)
    as (_ & _ & Hs & _).
  destruct (name_links_leave_contents demo_A "best" demo_k1 fs_a)
    as (_ & _ & Ha & Hra & _).
  destruct (name_links_leave_contents demo_A "best" demo_k1 fs_b)
    as (_ & _ & _ & Hrb & _).
  split_and!.
  - intros q Hq. split; [exact (proj1 (Hs H1 q Hq))|].
    destruct (proj2 (Ha H1 q Hq)) as [Hu|(Hd & _)]; [exact Hu|].
    rewrite D in Hd. discriminate Hd.
  - exact (proj2 (Hra H4 H1 H2 H3 H6) H8 H9).
  - exact (proj1 (Hrb H5 H1 H2 H3 H7) H10 H11).
Defined.

(** * Auxiliary files *)

Lemma is_file_file p fs c : fs !! p = Some (File c) → is_file p fs = true.
Proof.
  intros H. unfold is_file.
  rewrite resolve_not_link by (intros t; by rewrite H). by rewrite H.
Qed.

Lemma is_dir_false_lookup p fs : is_dir p fs = false → fs !! p ≠ Some Dir.
Proof. intros H Hd. by rewrite (is_dir_dir _ _ Hd) in H. Qed.

Lemma is_dir_true_lookup p fs : is_dir p fs = true → fs !! resolve p fs = Some Dir.
Proof. unfold is_dir. by intros H%bool_decide_eq_true_1. Qed.

Lemma write_file_ok p c fs :
  fs !! p ≠ Some Dir → fs !! parent p = Some Dir →
  write_file p c fs = Ok () (<[p := File c]> fs).
Proof.
  intros Hp Hd. unfold write_file.
  destruct (fs !! p) as [[]|]; try done; by rewrite create_ok.
Qed.

Lemma write_file_raise p c fs :
  fs !! p = Some Dir ∨ fs !! parent p ≠ Some Dir →
  ∃ e, write_file p c fs = Raise e fs.
Proof.
  intros H. unfold write_file, create.
  destruct (fs !! p) as [[]|] eqn:E; try (by eexists);
    destruct (fs !! parent p) as [[]|] eqn:E'; try (by eexists);
    by destruct H.
Qed.

(** [store_local_file] on a regular file: the copy, unless source and
    target are the same file. *)
Lemma store_local_file_eq txn p new_filename fs c :
  let record := db_path (txn_db txn) ++ [name (model (model_entry txn))] in
  let dest := match truthy new_filename with
              | Some s => record ++ [s]
              | None => record
              end in
  wf fs → fs !! record = Some Dir → fs !! resolve p fs = Some (File c) →
  store_local_file txn p new_filename fs =
  if bool_decide (copy2_target p dest fs = resolve p fs)
  then Raise SameFileError fs
  else match write_file (copy2_target p dest fs) c fs with
       | Ok _ fs' => Ok () fs'
       | Raise e fs' => Raise e fs'
       end.
Proof.
  intros record dest Hwf Hrec Hc. unfold store_local_file. unfold_M.
  unfold is_file. rewrite Hc. fold record. rewrite mkdir_parents_id by done.
  fold dest. unfold copy2. unfold exists_. rewrite Hc.
  rewrite (bool_decide_eq_true_2 (is_Some (Some (File c)))) by done.
  rewrite andb_true_r.
  destruct (bool_decide (copy2_target p dest fs = resolve p fs)); [done|].
  by destruct (write_file (copy2_target p dest fs) c fs) as [[] ?|? ?].
Qed.

(** C7, as the code has it.  Inside an open transaction, whose record
    directory is there, [store_local_file] does nothing for a path that is
    not a regular file.  For a regular file the target is the entry of the
    record directory under the name of the file, or under the new name when
    one is given, or inside that entry, under the name of the file, when
    the new name is a directory; links at the path and at the entry are
    followed.  The call raises SameFileError when the file is the target
    itself, and IsADirectoryError when the target is a directory; otherwise
    the content of the file is written to the target and nothing else
    changes, wherever the file lies: there is no exemption for the files of
    the store. *)
Theorem store_local_file_copies txn p new_filename fs :
  let record := db_path (txn_db txn) ++ [name (model (model_entry txn))] in
  let dest := match truthy new_filename with
              | Some s => record ++ [s]
              | None => record
              end in
  let entry := if is_dir dest fs then resolve dest fs ++ [path_name p]
               else dest in
  let target := resolve entry fs in
  wf fs → fs !! record = Some Dir →
  (is_file p fs = false → store_local_file txn p new_filename fs = Ok () fs)
  ∧ (truthy new_filename = None → entry = record ++ [path_name p])
  ∧ (∀ s, truthy new_filename = Some s →
       entry = if is_dir (record ++ [s]) fs
               then resolve (record ++ [s]) fs ++ [path_name p]
               else record ++ [s])
  ∧ ((∀ t, fs !! entry ≠ Some (Symlink t)) →
     target = entry ∧ fs !! parent target = Some Dir)
  ∧ (∀ c, fs !! resolve p fs = Some (File c) →
       (target = resolve p fs →
        store_local_file txn p new_filename fs = Raise SameFileError fs)
       ∧ (target ≠ resolve p fs → fs !! target = Some Dir →
          store_local_file txn p new_filename fs = Raise IsADirectoryError fs)
       ∧ (target ≠ resolve p fs → fs !! target ≠ Some Dir →
          fs !! parent target = Some Dir →
          store_local_file txn p new_filename fs
          = Ok () (<[target := File c]> fs))
       ∧ (target ≠ resolve p fs → fs !! parent target ≠ Some Dir →
          ∃ e, store_local_file txn p new_filename fs = Raise e fs)).
Proof.
  intros record dest entry target Hwf Hrec.
  assert (is_dir record fs = true) as Hdir by (by apply is_dir_dir).
  assert (resolve record fs = record) as Hres.
  { apply resolve_not_link. intros t. by rewrite Hrec. }
  split_and!.
  - intros Hf. unfold store_local_file. unfold_M. by rewrite Hf.
  - intros Hn. unfold entry, dest. by rewrite Hn, Hdir, Hres.
  - intros s Hs. unfold entry, dest. by rewrite Hs.
  - intros Hl. assert (target = entry) as Ht by (by apply resolve_not_link).
    split; [done|]. rewrite Ht. unfold entry.
    destruct (is_dir dest fs) eqn:Hd.
    + rewrite parent_snoc. by apply is_dir_true_lookup.
    + unfold dest in *. destruct (truthy new_filename) as [s|].
      * by rewrite parent_snoc.
      * by rewrite Hdir in Hd.
  - intros c Hc.
    pose proof (store_local_file_eq txn p new_filename fs c Hwf Hrec Hc) as E.
    cbv zeta in E. fold record dest in E.
    change (copy2_target p dest fs) with target in E.
    split_and!.
    + intros Hs. by rewrite E, bool_decide_eq_true_2.
    + intros Hs Hd. rewrite E, bool_decide_eq_false_2 by done.
      unfold write_file. by rewrite Hd.
    + intros Hs Hd Hpar. rewrite E, bool_decide_eq_false_2 by done.
      by rewrite write_file_ok.
    + intros Hs Hpar. rewrite E, bool_decide_eq_false_2 by done.
      destruct (write_file_raise target c fs) as [e ->]; [by right|].
      by exists e.
Qed.

(** C7, at the small store.  In a transaction on [m2], the model file of
    [m1] is copied into the record of [m2] as [parent.mod]; the model file
    of [m2] itself, stored under its own name, is the target and the call
    raises SameFileError. *)
Lemma store_local_file_copies_witness :
  let txn := Transaction_init demo_db (inl demo_m2) in
  let p := db_path demo_db ++ ["m1"; "m1.mod"] in
  let own := db_path demo_db ++ ["m2"; "m2.mod"] in
  let copy := db_path demo_db ++ ["m2"; "parent.mod"] in
  (wf demo_fs ∧ demo_fs !! (db_path demo_db ++ ["m2"]) = Some Dir) ∧
  (∃ c, demo_fs !! p = Some (File c) ∧
        demo_fs !! copy = None ∧
        result (store_local_file txn p (Some "parent.mod") demo_fs) = inl () ∧
        final_fs (store_local_file txn p (Some "parent.mod") demo_fs) !! copy
        = Some (File c)) ∧
  store_local_file txn own None demo_fs = Raise SameFileError demo_fs.
Proof.
  intros txn p own copy.
  assert (wf demo_fs) as H1 by by_compute.
  assert (demo_fs !! (db_path demo_db ++ ["m2"]) = Some Dir) as H2
    by (vm_compute; reflexivity).
  split; [by split|]. split.
  - destruct (store_local_file_copies txn p (Some "parent.mod") demo_fs H1 H2)
      as (_ & _ & _ & _ & H).
    eexists. split; [vm_compute; reflexivity|].
    split; [vm_compute; reflexivity|].
    edestruct H as (_ & _ & Hcopy & _); [vm_compute; reflexivity|].
    rewrite Hcopy.
    + split; [reflexivity|]. cbn [final_fs]. apply lookup_insert_eq.
    + vm_compute. discriminate.
    + vm_compute. discriminate.
    + vm_compute. reflexivity.
  - destruct (store_local_file_copies txn own None demo_fs H1 H2)
      as (_ & _ & _ & _ & H).
    edestruct H as (Hsame & _); [vm_compute; reflexivity|].
    apply Hsame. vm_compute. reflexivity.
Defined.

(** C7 fails as it is stated: the dataset [m1.csv] lies in the dataset
    store of the database, and [store_local_file], in a transaction on
    [m2], copies it into the record of [m2]. *)
Lemma store_local_file_copies_store_files :
  let txn := Transaction_init demo_db (inl demo_m2) in
  let p := db_path demo_db ++ [DIRECTORY_DATASETS; "m1.csv"] in
  let copy := db_path demo_db ++ ["m2"; "m1.csv"] in
  db_path demo_db `prefix_of` p ∧
  demo_fs !! p = Some (File (Csv demo_D1)) ∧
  demo_fs !! copy = None ∧
  result (store_local_file txn p None demo_fs) = inl () ∧
  final_fs (store_local_file txn p None demo_fs) !! copy
  = Some (File (Csv demo_D1)).
Proof.
  intros txn p copy. split_and!; try by vm_compute.
  by exists [DIRECTORY_DATASETS; "m1.csv"].
Qed.

(** The non-transactional database leaves out four names, and nothing
    else. *)
Lemma flat_store_local_file_ignored db p new_filename fs :
  path_name p ∈ ignored_names →
  LocalDirectoryDatabase_store_local_file db p new_filename fs = Ok () fs.
Proof.
  intros H. unfold LocalDirectoryDatabase_store_local_file. unfold_M.
  by rewrite bool_decide_eq_false_2 by (by intros []).
Qed.

(** * The snapshot reads *)

Lemma pure_ret {A} (a : A) : pure (mret a).
Proof. by intros fs. Qed.

Lemma pure_raise {A} e : pure (@raise A e).
Proof. by intros fs. Qed.

Lemma pure_reads {A} (f : FS → A) : pure (reads f).
Proof. by intros fs. Qed.

Lemma pure_bind {A B} (m : M A) (k : A → M B) :
  pure m → (∀ a, pure (k a)) → pure (m ≫= k).
Proof.
  intros Hm Hk fs. unfold_M. specialize (Hm fs).
  destruct (m fs) as [a fs'|e fs']; simpl in *; subst; [apply Hk|done].
Qed.

Lemma pure_read_file p : pure (read_file p).
Proof. intros fs. unfold read_file. by destruct (fs !! p) as [[]|]. Qed.

Lemma pure_repeat {A} (op : M A) fs : pure op → op (final_fs (op fs)) = op fs.
Proof. intros H. by rewrite H. Qed.

Lemma pure_find_in_extensions root nm exts :
  pure (find_in_extensions root nm exts).
Proof.
  induction exts as [|e exts IH]; simpl; [apply pure_raise|].
  apply pure_bind; [apply pure_reads|]. intros []; [apply pure_ret|apply IH].
Qed.

Lemma pure_retrieve_model snap : pure (retrieve_model snap).
Proof.
  unfold retrieve_model, _find_full_model_path, Model_parse_model.
  apply pure_bind; [apply pure_find_in_extensions|]. intros path.
  apply pure_bind; [apply pure_read_file|].
  intros []; (apply pure_ret || apply pure_raise).
Qed.

Lemma pure_retrieve_file snap filename : pure (retrieve_file snap filename).
Proof.
  unfold retrieve_file. apply pure_bind; [apply pure_reads|].
  intros [[| c |]|]; try apply pure_raise.
  destruct (decide _); [apply pure_ret|apply pure_raise].
Qed.

Lemma pure_retrieve_modelfit_results get snap :
  pure (retrieve_modelfit_results get snap).
Proof.
  unfold retrieve_modelfit_results, read_results.
  apply pure_bind; [apply pure_retrieve_model|]. intros m.
  apply pure_bind; [apply pure_find_in_extensions|]. intros path.
  apply pure_bind; [apply pure_reads|]. intros [res|]; [apply pure_ret|].
  apply pure_bind; [apply pure_read_file|].
  intros []; (apply pure_ret || apply pure_raise).
Qed.

(** ** [retrieve_local_files] writes under its destination *)

Lemma writes_under_refl dest fs : writes_under dest fs fs.
Proof. intros q _. by left. Qed.

Lemma writes_under_trans dest fs1 fs2 fs3 :
  writes_under dest fs1 fs2 → writes_under dest fs2 fs3 →
  writes_under dest fs1 fs3.
Proof.
  intros H1 H2 q Hq. destruct (H1 q Hq) as [E1|(E1 & E1' & Hp)],
    (H2 q Hq) as [E2|(E2 & E2' & Hp')].
  - left. congruence.
  - right. split_and!; [congruence|done|done].
  - right. split_and!; [done|congruence|done].
  - congruence.
Qed.

(** Where neither the destination nor an entry in it is a link, [copy2]
    writes at most one file, at the destination or directly in it. *)
Lemma copy2_no_link src dst fs :
  no_link_in dst fs →
  (copy2_target src dst fs = dst ∨ ∃ c, copy2_target src dst fs = dst ++ [c]) ∧
  (final_fs (copy2 src dst fs) = fs ∨
   ∃ c, final_fs (copy2 src dst fs)
        = <[copy2_target src dst fs := File c]> fs).
Proof.
  intros [Hd Hc]. split.
  - unfold copy2_target, copy2_entry. rewrite (resolve_not_link dst) by done.
    destruct (is_dir dst fs).
    + right. exists (path_name src). by apply resolve_not_link.
    + left. by apply resolve_not_link.
  - unfold copy2. set (target := copy2_target src dst fs).
    destruct (_ && _); [by left|].
    destruct (fs !! resolve src fs) as [[| c |]|]; try by left.
    unfold write_file, create.
    destruct (fs !! target) as [[]|];
      destruct (fs !! parent target) as [[]|]; simpl;
      try (by left); right; by eexists.
Qed.

Lemma copy2_frame src dst fs :
  no_link_in dst fs →
  writes_under dst fs (final_fs (copy2 src dst fs)) ∧
  no_link_in dst (final_fs (copy2 src dst fs)).
Proof.
  intros Hnl. destruct (copy2_no_link src dst fs Hnl) as [Ht [->|[c ->]]].
  { split; [apply writes_under_refl|done]. }
  set (target := copy2_target src dst fs) in *.
  assert (dst `prefix_of` target) as Hp.
  { destruct Ht as [->|[x ->]]; [done|by apply prefix_app_r]. }
  destruct Hnl as [Hd Hc]. split; [|split].
  - intros q Hq. left. rewrite lookup_insert_ne; [done|]. by intros <-.
  - intros t. destruct (decide (target = dst)) as [->|Hne].
    + by rewrite lookup_insert_eq.
    + rewrite lookup_insert_ne by done. apply Hd.
  - intros x t. destruct (decide (target = dst ++ [x])) as [->|Hne].
    + by rewrite lookup_insert_eq.
    + rewrite lookup_insert_ne by done. apply Hc.
Qed.

Lemma foldr_insert_lookup (dst : path) (l : list (path * node)) (acc : FS) q :
  ¬ dst `prefix_of` q →
  foldr (λ qn acc, <[dst ++ qn.1 := qn.2]> acc) acc l !! q = acc !! q.
Proof.
  intros Hq. induction l as [|x l IH]; [done|]. simpl.
  rewrite lookup_insert_ne; [done|]. intros <-. apply Hq. by apply prefix_app_r.
Qed.

Lemma copytree_writes_under src dest c fs :
  writes_under dest fs (final_fs (copytree src (dest ++ [c]) fs)).
Proof.
  intros q Hq. unfold copytree. destruct (lexists _ fs); [by left|].
  rewrite parent_snoc.
  pose proof (mkdir_parents_lookup dest fs q) as H.
  destruct (mkdir_parents dest fs) as [[] fs'|e fs']; simpl in *.
  - rewrite foldr_insert_lookup.
    + destruct H as [?|(?&?&?&?)]; [by left|by right].
    + intros Hp. apply Hq. etrans; [|done]. by apply prefix_app_r.
  - destruct H as [?|(?&?&?&?)]; [by left|by right].
Qed.

Lemma subtree_elem src fs k n :
  (k, n) ∈ subtree src fs → fs !! (src ++ k) = Some n.
Proof.
  unfold subtree. rewrite list_elem_of_omap. intros ([q x] & Hin & Hf).
  simpl in Hf. destruct (decide (src `prefix_of` q)) as [[r ->]|]; [|done].
  rewrite drop_app_length in Hf. injection Hf as <- <-.
  by apply elem_of_map_to_list in Hin.
Qed.

Lemma foldr_insert_lookup_inv (dst : path) (l : list (path * node)) (acc : FS)
    q n :
  foldr (λ qn acc, <[dst ++ qn.1 := qn.2]> acc) acc l !! q = Some n →
  (∃ qn, qn ∈ l ∧ q = dst ++ qn.1 ∧ n = qn.2) ∨ acc !! q = Some n.
Proof.
  induction l as [|x l IH]; [by right|]. simpl.
  destruct (decide (dst ++ x.1 = q)) as [<-|Hne].
  - rewrite lookup_insert_eq. intros [= <-]. left. exists x.
    split; [by left|done].
  - rewrite lookup_insert_ne by done. intros H.
    destruct (IH H) as [(qn & Hin & ? & ?)|?]; [|by right].
    left. exists qn. split; [by right|done].
Qed.

(** [copytree] of an entry that is no link leaves no link at the
    destination nor directly in it. *)
Lemma copytree_no_link src dest c fs :
  (∀ t, fs !! src ≠ Some (Symlink t)) → no_link_in dest fs →
  no_link_in dest (final_fs (copytree src (dest ++ [c]) fs)).
Proof.
  intros Hsrc [Hd Hc]. unfold copytree. destruct (lexists _ fs); [done|].
  rewrite parent_snoc.
  pose proof (mkdir_parents_lookup dest fs) as Hm.
  assert (∀ q t, fs !! q ≠ Some (Symlink t) →
                 final_fs (mkdir_parents dest fs) !! q ≠ Some (Symlink t))
    as Hm'.
  { intros q t Hq. destruct (Hm q) as [E|(_ & E & _)]; by rewrite E. }
  destruct (mkdir_parents dest fs) as [[] fs'|e fs']; simpl in *.
  2:{ split; [intros t; by apply Hm'|intros x t; by apply Hm']. }
  split.
  - intros t H. apply foldr_insert_lookup_inv in H as [(qn & _ & Hq & _)|H].
    + apply (f_equal length) in Hq. rewrite !length_app in Hq. simpl in Hq.
      lia.
    + by apply (Hm' dest t).
  - intros x t H.
    apply foldr_insert_lookup_inv in H as [([k n] & Hin & Hq & Hn)|H].
    + simpl in *. rewrite <- app_assoc in Hq. apply app_inv_head in Hq.
      injection Hq as _ Hk. subst k n. apply subtree_elem in Hin.
      rewrite app_nil_r in Hin. by apply (Hsrc t).
    + by apply (Hm' (dest ++ [x]) t).
Qed.

(** The loop of [retrieve_local_files] writes under the destination, when
    the destination lies apart from the directory that is read and no link
    is in the way. *)
Lemma retrieve_local_files_loop_frame root dest files fs :
  ¬ root `prefix_of` dest → ¬ dest `prefix_of` root →
  no_link_in dest fs → (∀ c t, fs !! (root ++ [c]) ≠ Some (Symlink t)) →
  writes_under dest fs
    (final_fs (retrieve_local_files_loop root dest files fs)).
Proof.
  intros Hrd Hdr. revert fs.
  induction files as [|f files IH]; intros fs Hnl Hrec;
    [apply writes_under_refl|].
  simpl. unfold_M.
  assert (∀ fs', writes_under dest fs fs' →
                 ∀ c t, fs' !! (root ++ [c]) ≠ Some (Symlink t)) as Hkeep.
  { intros fs' Hw c t. destruct (Hw (root ++ [c])) as [->|(_ & _ & Hp)].
    - intros Hp. apply prefix_snoc_inv in Hp as [?|E]; [done|].
      apply Hrd. rewrite E. by apply prefix_app_r.
    - apply Hrec.
    - destruct Hrd. etrans; [|exact Hp]. by apply prefix_app_r. }
  destruct (is_file (root ++ [f]) fs).
  - destruct (copy2_frame (root ++ [f]) dest fs Hnl) as [Hw Hnl'].
    destruct (copy2 (root ++ [f]) dest fs) as [p' fs'|e fs']; simpl in *;
      [|done].
    eapply writes_under_trans; [done|]. apply IH; [done|by apply Hkeep].
  - pose proof (copytree_writes_under (root ++ [f]) dest (stem f) fs) as Hw.
    pose proof (copytree_no_link (root ++ [f]) dest (stem f) fs (Hrec f) Hnl)
      as Hnl'.
    destruct (copytree (root ++ [f]) (dest ++ [stem f]) fs) as [[] fs'|e fs'];
      simpl in *; [|done].
    eapply writes_under_trans; [done|]. apply IH; [done|by apply Hkeep].
Qed.

Lemma retrieve_local_files_frame snap dest fs :
  let record := db_path (snap_db snap) ++ [snap_name snap] in
  ¬ record `prefix_of` dest → ¬ dest `prefix_of` record →
  no_link_in dest fs → (∀ c t, fs !! (record ++ [c]) ≠ Some (Symlink t)) →
  writes_under dest fs (final_fs (retrieve_local_files snap dest fs)).
Proof.
  intros record Hrd Hdr Hnl Hrec. unfold retrieve_local_files. unfold_M.
  by apply retrieve_local_files_loop_frame.
Qed.

Lemma snapshot_enter_fixed db k fs :
  wf fs → fs !! metadata_dir db k = Some Dir →
  is_Some (fs !! (db_path db ++ [FILE_LOCK])) →
  snapshot_enter db k fs =
  if exists_ (pending_path db k) fs then Raise PendingTransactionError fs
  else Ok (mkSnapshot db k) fs.
Proof.
  intros Hwf Hd [n Hl]. unfold snapshot_enter, _read_lock. unfold_M.
  rewrite mkdir_parents_id by done. unfold touch. rewrite Hl.
  fold (pending_path db k). by destruct (exists_ (pending_path db k) fs).
Qed.

Lemma snapshot_enter_ok_inv db k fs snap fs1 :
  wf fs → snapshot_enter db k fs = Ok snap fs1 →
  snap = mkSnapshot db k ∧ wf fs1 ∧ fs1 !! metadata_dir db k = Some Dir ∧
  is_Some (fs1 !! (db_path db ++ [FILE_LOCK])) ∧
  exists_ (pending_path db k) fs1 = false.
Proof.
  intros Hwf. unfold snapshot_enter, _read_lock. unfold_M.
  pose proof (mkdir_parents_wf (metadata_dir db k) fs Hwf) as Hwf1.
  destruct (mkdir_parents (metadata_dir db k) fs) as [[] fs'|e fs'] eqn:E1;
    simpl in *; [|done].
  destruct (touch_lock_ok db k fs fs' Hwf E1) as (fs2 & E2 & Hf2 & Hl & Hp2).
  pose proof (touch_wf (db_path db ++ [FILE_LOCK]) fs' Hwf1) as Hwf2.
  rewrite E2 in *. simpl in Hwf2. fold (pending_path db k).
  destruct (exists_ (pending_path db k) fs2) eqn:E3; [done|].
  intros [= <- <-]. split_and!; try done.
  apply Hp2. eapply mkdir_parents_ok_dir; [done|].
  unfold metadata_dir. by destruct (db_path db).
Qed.

(** C6, as the code has it.  Whatever its outcome, opening a snapshot
    changes and removes no entry, and adds nothing but the metadata
    directory of the record, with the directories that lead to it, and the
    lock file of the database.  It opens when the metadata directory can be
    made and the record has no marker; once it has opened, the record
    directory, the metadata directory and the lock file are there, and
    opening again changes nothing; on a record that has them it creates
    nothing.  [retrieve_model], [retrieve_modelfit_results] and
    [retrieve_file] leave the filesystem as it is, so that a second call
    gives what the first gave.  [retrieve_local_files] leaves the record as
    it is when the destination lies apart from the record and neither the
    destination, nor an entry in it, nor an entry of the record directory
    is a link. *)
Theorem snapshot_reads_frame get db k fs :
  (∀ q, final_fs (snapshot_enter db k fs) !! q = fs !! q ∨
        fs !! q = None ∧
        (final_fs (snapshot_enter db k fs) !! q = Some Dir ∧
           q ≠ [] ∧ q `prefix_of` metadata_dir db k ∨
         final_fs (snapshot_enter db k fs) !! q = Some (File Empty) ∧
           q = db_path db ++ [FILE_LOCK]))
  ∧ (wf fs → can_make_dir (metadata_dir db k) fs → ¬ marker_present db k fs →
     ∃ fs1, snapshot_enter db k fs = Ok (mkSnapshot db k) fs1)
  ∧ (wf fs → ∀ snap fs1, snapshot_enter db k fs = Ok snap fs1 →
     fs1 !! (db_path db ++ [k]) = Some Dir ∧
     fs1 !! metadata_dir db k = Some Dir ∧
     is_Some (fs1 !! (db_path db ++ [FILE_LOCK])) ∧
     snapshot_enter db k fs1 = Ok snap fs1)
  ∧ (wf fs → fs !! metadata_dir db k = Some Dir →
     is_Some (fs !! (db_path db ++ [FILE_LOCK])) →
     final_fs (snapshot_enter db k fs) = fs)
  ∧ (∀ snap filename,
       pure (retrieve_model snap) ∧
       pure (retrieve_modelfit_results get snap) ∧
       pure (retrieve_file snap filename) ∧
       retrieve_model snap (final_fs (retrieve_model snap fs))
       = retrieve_model snap fs ∧
       retrieve_modelfit_results get snap
         (final_fs (retrieve_modelfit_results get snap fs))
       = retrieve_modelfit_results get snap fs ∧
       retrieve_file snap filename (final_fs (retrieve_file snap filename fs))
       = retrieve_file snap filename fs)
  ∧ (∀ snap dest,
       let record := db_path (snap_db snap) ++ [snap_name snap] in
       ¬ record `prefix_of` dest → ¬ dest `prefix_of` record →
       no_link_in dest fs →
       (∀ c t, fs !! (record ++ [c]) ≠ Some (Symlink t)) →
       ∀ q, record `prefix_of` q →
         final_fs (retrieve_local_files snap dest fs) !! q = fs !! q).
Proof.
  split_and!.
  - apply snapshot_enter_lookup.
  - apply snapshot_enter_can.
  - intros Hwf snap fs1 E.
    destruct (snapshot_enter_ok_inv db k fs snap fs1 Hwf E)
      as (-> & Hwf1 & Hd & Hl & Hp).
    split_and!; [by apply record_dir_of_metadata|done|done|].
    rewrite snapshot_enter_fixed by done. by rewrite Hp.
  - intros Hwf Hd Hl. rewrite snapshot_enter_fixed by done.
    by destruct (exists_ _ fs).
  - intros snap filename.
    split_and!; [apply pure_retrieve_model|apply pure_retrieve_modelfit_results|
                 apply pure_retrieve_file|..].
    + apply pure_repeat, pure_retrieve_model.
    + apply pure_repeat, pure_retrieve_modelfit_results.
    + apply pure_repeat, pure_retrieve_file.
  - intros snap dest record Hrd Hdr Hnl Hrec q Hq.
    assert (¬ dest `prefix_of` q) as Hdq.
    { intros Hd. destruct (prefix_weak_total _ _ _ Hq Hd); done. }
    destruct (retrieve_local_files_frame snap dest fs Hrd Hdr Hnl Hrec q Hdq)
      as [?|(_ & _ & Hp)]; [done|].
    destruct Hrd. by etrans.
Qed.

(** C6 fails as it is stated: opening a snapshot on [m9], which has no
    record, makes the record directory and its metadata directory. *)
Lemma snapshot_makes_directories :
  let record := db_path demo_db ++ ["m9"] in
  let fs1 := final_fs (snapshot_enter demo_db "m9" demo_fs) in
  demo_fs !! record = None ∧
  result (snapshot_enter demo_db "m9" demo_fs) = inl (mkSnapshot demo_db "m9") ∧
  fs1 !! record = Some Dir ∧
  fs1 !! (record ++ [DIRECTORY_PHARMPY_METADATA]) = Some Dir.
Proof. intros record fs1. split_and!; by vm_compute. Qed.

(** The files of [m1] are retrieved into [work/out] twice: the second call
    finds the copy of the metadata directory and raises. *)
Example retrieve_local_files_twice :
  let out := ["work"; "out"] in
  let get := λ s, retrieve_local_files s out in
  let once := snapshot demo_db "m1" get demo_fs in
  result once = inl () ∧
  result (snapshot demo_db "m1" get (final_fs once)) = inr FileExistsError.
Proof. intros out get once. split; by vm_compute. Qed.

Lemma no_link_in_absent d fs : wf fs → fs !! d = None → no_link_in d fs.
Proof.
  intros Hwf Hd. split; [intros t; by rewrite Hd|]. intros c t H.
  assert (fs !! d = Some Dir) as Hdir; [|congruence].
  rewrite <- (parent_snoc d c). eapply wf_parent; [done|done|].
  by destruct d.
Qed.

(** C6, at the small store.  [m9] has no record: opening a snapshot on it
    makes its record directory and its metadata directory, and opening
    again changes nothing.  The record of [m1] is there: opening a snapshot
    on it changes nothing, and retrieving its files into [work/out] leaves
    the record as it is. *)
Lemma snapshot_reads_frame_witness :
  let record := db_path demo_db ++ ["m1"] in
  let out := ["work"; "out"] in
  (wf demo_fs ∧ can_make_dir (metadata_dir demo_db "m9") demo_fs ∧
   ¬ marker_present demo_db "m9" demo_fs ∧
   demo_fs !! metadata_dir demo_db "m1" = Some Dir ∧
   is_Some (demo_fs !! (db_path demo_db ++ [FILE_LOCK])) ∧
   ¬ record `prefix_of` out ∧ ¬ out `prefix_of` record ∧
   no_link_in out demo_fs ∧
   (∀ c t, demo_fs !! (record ++ [c]) ≠ Some (Symlink t))) ∧
  demo_fs !! (db_path demo_db ++ ["m9"]) = None ∧
  (∃ fs1,
     snapshot_enter demo_db "m9" demo_fs = Ok (mkSnapshot demo_db "m9") fs1 ∧
     fs1 !! (db_path demo_db ++ ["m9"]) = Some Dir ∧
     fs1 !! metadata_dir demo_db "m9" = Some Dir ∧
     snapshot_enter demo_db "m9" fs1 = Ok (mkSnapshot demo_db "m9") fs1) ∧
  final_fs (snapshot_enter demo_db "m1" demo_fs) = demo_fs ∧
  (∀ q, record `prefix_of` q →
        final_fs (retrieve_local_files (mkSnapshot demo_db "m1") out demo_fs)
        !! q = demo_fs !! q).
Proof.
  intros record out.
  assert (wf demo_fs) as H1 by by_compute.
  assert (can_make_dir (metadata_dir demo_db "m9") demo_fs) as H2
    by (apply can_make_dir_intro; by_compute).
  assert (¬ marker_present demo_db "m9" demo_fs) as H3 by by_compute.
  assert (demo_fs !! metadata_dir demo_db "m1" = Some Dir) as H4
    by (vm_compute; reflexivity).
  assert (demo_fs !! (db_path demo_db ++ [FILE_LOCK]) = Some (File Empty))
    as E by (vm_compute; reflexivity).
  assert (is_Some (demo_fs !! (db_path demo_db ++ [FILE_LOCK]))) as H5
    by (exists (File Empty); exact E).
  assert (¬ record `prefix_of` out) as H6 by by_compute.
  assert (¬ out `prefix_of` record) as H7 by by_compute.
  assert (no_link_in out demo_fs) as H8
    by (apply no_link_in_absent; [exact H1|vm_compute; reflexivity]).
  assert (∀ c t, demo_fs !! (record ++ [c]) ≠ Some (Symlink t)) as H9.
  { intros c t H.
    assert (c ∈ iterdir record demo_fs) as Hin
      by (apply elem_of_iterdir; exists (Symlink t); exact H).
    assert (iterdir record demo_fs = [".pharmpy"; "m1.mod"]) as Hl
      by (vm_compute; reflexivity).
    rewrite Hl in Hin.
    apply elem_of_cons in Hin as [->|Hin];
      [|apply list_elem_of_singleton in Hin as ->];
      vm_compute in H; discriminate H. }
  split; [split_and!; assumption|].
  split; [vm_compute; reflexivity|].
  destruct (snapshot_reads_frame (λ _ _ _, None) demo_db "m9" demo_fs)
    as (_ & Hopen & Hthere & _).
  destruct (snapshot_reads_frame (λ _ _ _, None) demo_db "m1" demo_fs)
    as (_ & _ & _ & Hsame & _ & Hfiles).
  split_and!.
  - destruct (Hopen H1 H2 H3) as [fs1 E1]. exists fs1.
    destruct (Hthere H1 _ _ E1) as (Ha & Hb & _ & Hc). by split_and!.
  - exact (Hsame H1 H4 H5).
  - exact (Hfiles (mkSnapshot demo_db "m1") out H6 H7 H8 H9).
Defined.

(** * Strings: names of the files of the dataset store *)

Lemma string_length_app a b :
  String.length (a +:+ b) = String.length a + String.length b.
Proof. induction a as [|c a IH]; simpl; [done|]. by rewrite IH. Qed.

Lemma string_app_inj_r a b s : a +:+ s = b +:+ s → a = b.
Proof.
  revert b. induction a as [|c a IH]; intros [|c' b] H; simpl in *.
  - done.
  - apply (f_equal String.length) in H.
    change (String.length (String c' b +:+ s))
      with (S (String.length (b +:+ s))) in H.
    rewrite !string_length_app in H. simpl in H. lia.
  - apply (f_equal String.length) in H.
    change (String.length (String c a +:+ s))
      with (S (String.length (a +:+ s))) in H.
    rewrite !string_length_app in H. simpl in H. lia.
  - injection H as -> H. by rewrite (IH b H).
Qed.

Lemma str_last_app a c s : str_last (a +:+ String c s) = str_last (String c s).
Proof.
  induction a as [|x a IH]; [done|].
  change (String x a +:+ String c s) with (String x (a +:+ String c s)).
  destruct (a +:+ String c s) eqn:E; [by destruct a|].
  simpl. simpl in IH. by rewrite <- IH.
Qed.

Lemma csv_not_datainfo a b : a +:+ ".csv" ≠ b +:+ ".datainfo".
Proof.
  intros H. apply (f_equal str_last) in H. rewrite !str_last_app in H.
  discriminate H.
Qed.

Lemma csv_not_index a : a +:+ ".csv" ≠ DIRECTORY_INDEX.
Proof.
  intros H. apply (f_equal str_last) in H. rewrite str_last_app in H.
  discriminate H.
Qed.

Lemma datainfo_not_index a : a +:+ ".datainfo" ≠ DIRECTORY_INDEX.
Proof.
  intros H. apply (f_equal str_last) in H. rewrite str_last_app in H.
  discriminate H.
Qed.

Lemma rfind_dot_csv n : rfind_dot (n +:+ ".csv") = Some (String.length n).
Proof. induction n as [|c n IH]; [done|]. simpl. by rewrite IH. Qed.

Lemma substring_skip n m s :
  substring (String.length n) m (n +:+ s) = substring 0 m s.
Proof. induction n as [|c n IH]; [done|]. simpl. exact IH. Qed.

Lemma substring_take n s : substring 0 (String.length n) (n +:+ s) = n.
Proof.
  induction n as [|c n IH]; simpl; [by destruct s|]. by rewrite IH.
Qed.

Lemma suffix_csv n : n ≠ "" → suffix (n +:+ ".csv") = ".csv".
Proof.
  intros Hn. unfold suffix. rewrite rfind_dot_csv, string_length_app.
  rewrite decide_True.
  - replace (String.length n + String.length ".csv" - String.length n) with 4
      by (simpl; lia).
    by rewrite substring_skip.
  - destruct n; [done|]. simpl. lia.
Qed.

(** [with_suffix] takes the file of a dataset to the file of its
    description. *)
Lemma with_suffix_csv n :
  n ≠ "" → with_suffix_name (n +:+ ".csv") ".datainfo" = n +:+ ".datainfo".
Proof.
  intros Hn. unfold with_suffix_name. rewrite suffix_csv by done.
  rewrite string_length_app.
  replace (String.length n + String.length ".csv" - String.length ".csv")
    with (String.length n) by lia.
  by rewrite substring_take.
Qed.

(** * The dataset store *)

Lemma csv_path_inj db n1 n2 : csv_path db n1 = csv_path db n2 → n1 = n2.
Proof.
  unfold csv_path. intros H. apply app_inv_head in H. injection H as H.
  by apply string_app_inj_r in H.
Qed.

Lemma datainfo_path_inj db n1 n2 :
  datainfo_path db n1 = datainfo_path db n2 → n1 = n2.
Proof.
  unfold datainfo_path. intros H. apply app_inv_head in H. injection H as H.
  by apply string_app_inj_r in H.
Qed.

Lemma csv_path_not_datainfo db n1 n2 : csv_path db n1 ≠ datainfo_path db n2.
Proof.
  unfold csv_path, datainfo_path. intros H. apply app_inv_head in H.
  injection H as H. by apply csv_not_datainfo in H.
Qed.

Lemma index_path_inj db h1 e1 h2 e2 :
  index_path db h1 e1 = index_path db h2 e2 → h1 = h2 ∧ e1 = e2.
Proof.
  unfold index_path. intros H. apply app_inv_head in H. by injection H.
Qed.

Lemma index_path_not_csv db h e n : index_path db h e ≠ csv_path db n.
Proof. unfold index_path, csv_path. intros H. by apply app_inv_head in H. Qed.

Lemma index_path_not_datainfo db h e n : index_path db h e ≠ datainfo_path db n.
Proof.
  unfold index_path, datainfo_path. intros H. by apply app_inv_head in H.
Qed.

Lemma csv_path_prefix db n : datasets_path db `prefix_of` csv_path db n.
Proof. by apply prefix_app_r. Qed.

Lemma datainfo_path_prefix db n : datasets_path db `prefix_of` datainfo_path db n.
Proof. by apply prefix_app_r. Qed.

Lemma index_path_prefix db h e : datasets_path db `prefix_of` index_path db h e.
Proof. by apply prefix_app_r. Qed.

Lemma live_fun db fs n df1 di1 df2 di2 :
  live db fs n df1 di1 → live db fs n df2 di2 → df1 = df2 ∧ di1 = di2.
Proof. intros (H1 & H2 & _) (H3 & H4 & _). split; congruence. Qed.

Lemma live_ext db fs fs' n df di :
  (∀ q, datasets_path db `prefix_of` q → fs' !! q = fs !! q) →
  live db fs' n df di ↔ live db fs n df di.
Proof.
  intros H. unfold live.
  by rewrite (H _ (csv_path_prefix db n)), (H _ (datainfo_path_prefix db n)).
Qed.

Lemma datainfo_eq_true a b : datainfo_eq a b = true ↔ di_columns a = di_columns b.
Proof. unfold datainfo_eq. apply bool_decide_eq_true. Qed.

(** The invariant talks about the dataset area only. *)
Lemma dataset_store_ok_ext hash db fs fs' :
  dataset_store_ok hash db fs → wf fs' →
  (∀ q, datasets_path db `prefix_of` q → fs' !! q = fs !! q) →
  dataset_store_ok hash db fs'.
Proof.
  intros (_ & H1 & H2 & H3 & H4 & H5 & H6) Hwf Hext.
  assert (∀ n df di, live db fs' n df di ↔ live db fs n df di) as Hlive
    by (intros; by apply live_ext).
  split_and!; [done|..].
  - intros x. rewrite Hext by done. apply H1.
  - intros c x. rewrite Hext by (by apply prefix_app_r). apply H2.
  - intros h x. rewrite Hext by (by apply prefix_app_r). apply H3.
  - intros h e. rewrite Hext by apply index_path_prefix.
    intros (n & df & di & ? & ? & ?)%H4. exists n, df, di.
    split_and!; [done|done|by apply Hlive].
  - intros n df di Hl%Hlive. rewrite Hext by apply index_path_prefix.
    by apply (H5 n df di).
  - intros n1 n2 df di1 di2 Hl1%Hlive Hl2%Hlive.
    by apply (H6 n1 n2 df di1 di2).
Qed.

(** A store without dataset area satisfies the invariant. *)
Lemma dataset_store_ok_fresh hash db fs :
  wf fs → fs !! datasets_path db = None → dataset_store_ok hash db fs.
Proof.
  intros Hwf Hd.
  assert (∀ k, k ≠ [] → fs !! (datasets_path db ++ k) = None) as Hnone.
  { intros k Hk. destruct (fs !! (datasets_path db ++ k)) eqn:E; [|done].
    rewrite (wf_ancestor fs (datasets_path db) k) in Hd; [done|done| |done].
    by rewrite E. }
  split_and!; [done|..].
  - intros x. by rewrite Hd.
  - intros c x. by rewrite Hnone.
  - intros h x. by rewrite Hnone.
  - intros h e. unfold index_path. rewrite Hnone by done. by intros [].
  - intros n df di (H & _). unfold csv_path in H. by rewrite Hnone in H.
  - intros n1 n2 df di1 di2 (H & _). unfold csv_path in H.
    by rewrite Hnone in H.
Qed.

(** ** The scan of the index *)

Lemma with_suffix_csv_path db n :
  n ≠ "" → with_suffix (datasets_path db ++ [n +:+ ".csv"]) ".datainfo"
           = datainfo_path db n.
Proof.
  intros Hn. unfold with_suffix.
  by rewrite parent_snoc, path_name_snoc, with_suffix_csv.
Qed.

Lemma store_model_scan_step db m n df di rest fs :
  n ≠ "" → live db fs n df di →
  store_model_scan (datasets_path db) m ((n +:+ ".csv") :: rest) fs =
  if datainfo_eq di (datainfo m) && bool_decide (df = dataset m)
  then Ok (Some (model_replace_datainfo m
                   (datainfo_replace (datainfo m) (Some (csv_path db n))))) fs
  else store_model_scan (datasets_path db) m rest fs.
Proof.
  intros Hn (Hcsv & Hdi & Hpath). simpl.
  rewrite with_suffix_csv_path by done.
  unfold DataInfo_read_json, read_dataset_from_datainfo, read_file. unfold_M.
  rewrite Hdi. simpl. destruct (datainfo_eq di (datainfo m)); [|done].
  rewrite Hpath, Hcsv. simpl.
  destruct (decide (df = dataset m)) as [->|Hne].
  - by rewrite bool_decide_eq_true_2.
  - by rewrite bool_decide_eq_false_2.
Qed.

Lemma store_model_scan_spec db m entries fs :
  (∀ e, e ∈ entries →
        ∃ n df di, e = n +:+ ".csv" ∧ n ≠ "" ∧ live db fs n df di) →
  (∃ n di, n +:+ ".csv" ∈ entries ∧ live db fs n (dataset m) di ∧
           datainfo_eq di (datainfo m) = true ∧
           store_model_scan (datasets_path db) m entries fs
           = Ok (Some (model_replace_datainfo m
                   (datainfo_replace (datainfo m) (Some (csv_path db n))))) fs)
  ∨ ((∀ n di, n +:+ ".csv" ∈ entries → live db fs n (dataset m) di →
              datainfo_eq di (datainfo m) = false) ∧
     store_model_scan (datasets_path db) m entries fs = Ok None fs).
Proof.
  induction entries as [|e entries IH]; intros Hall.
  { right. split; [|done]. intros n di Hin. by apply elem_of_nil in Hin. }
  destruct (Hall e) as (n & df & di & -> & Hn & Hlive); [by left|].
  rewrite (store_model_scan_step db m n df di) by done.
  destruct (datainfo_eq di (datainfo m)) eqn:Eeq;
    [destruct (decide (df = dataset m)) as [->|Hne]|]; simpl.
  - rewrite bool_decide_eq_true_2 by done. left. exists n, di.
    split_and!; [by left|done|done|done].
  - rewrite bool_decide_eq_false_2 by done.
    destruct IH as [(n' & di' & ? & ? & ? & ?)|[Hno Hscan]].
    + intros e He. apply Hall. by right.
    + left. exists n', di'. split_and!; [by right|done|done|done].
    + right. split; [|done]. intros n' di' [Heq|Hin]%elem_of_cons Hl.
      * apply string_app_inj_r in Heq as ->.
        by destruct (live_fun _ _ _ _ _ _ _ Hlive Hl).
      * by eapply Hno.
  - destruct IH as [(n' & di' & ? & ? & ? & ?)|[Hno Hscan]].
    + intros e He. apply Hall. by right.
    + left. exists n', di'. split_and!; [by right|done|done|done].
    + right. split; [|done]. intros n' di' [Heq|Hin]%elem_of_cons Hl.
      * apply string_app_inj_r in Heq as ->.
        destruct (live_fun _ _ _ _ _ _ _ Hlive Hl) as [_ <-]. done.
      * by eapply Hno.
Qed.

(** ** Making the directory of a hash *)

Lemma wf_prefix_dir fs (p k : path) :
  wf fs → fs !! p = Some Dir → k `prefix_of` p → fs !! k = Some Dir.
Proof.
  intros Hwf Hp [r ->]. destruct r as [|c r]; [by rewrite app_nil_r in Hp|].
  apply (wf_ancestor fs k (c :: r)); [done|by rewrite Hp|done].
Qed.

Lemma hash_dir_prefixes db h k :
  k `prefix_of` hash_dir db h →
  k `prefix_of` db_path db ∨ k = datasets_path db ∨
  k = datasets_path db ++ [DIRECTORY_INDEX] ∨ k = hash_dir db h.
Proof.
  unfold hash_dir, datasets_path. intros H.
  replace ((db_path db ++ [DIRECTORY_DATASETS]) ++ [DIRECTORY_INDEX] ++ [h])
    with (((db_path db ++ [DIRECTORY_DATASETS]) ++ [DIRECTORY_INDEX]) ++ [h])
    in * by (by rewrite <- !app_assoc).
  apply prefix_snoc_inv in H as [H|H]; [|by auto].
  apply prefix_snoc_inv in H as [H|H]; [|by auto].
  apply prefix_snoc_inv in H as [H|H]; by auto.
Qed.

Lemma csv_path_not_area db n h :
  csv_path db n ≠ datasets_path db ∧
  csv_path db n ≠ datasets_path db ++ [DIRECTORY_INDEX] ∧
  csv_path db n ≠ hash_dir db h.
Proof.
  unfold csv_path, hash_dir. split_and!.
  - apply snoc_neq_self.
  - intros H. apply app_inv_head in H. injection H as H.
    by apply csv_not_index in H.
  - intros H. by apply app_inv_head in H.
Qed.

Lemma datainfo_path_not_area db n h :
  datainfo_path db n ≠ datasets_path db ∧
  datainfo_path db n ≠ datasets_path db ++ [DIRECTORY_INDEX] ∧
  datainfo_path db n ≠ hash_dir db h.
Proof.
  unfold datainfo_path, hash_dir. split_and!.
  - apply snoc_neq_self.
  - intros H. apply app_inv_head in H. injection H as H.
    by apply datainfo_not_index in H.
  - intros H. by apply app_inv_head in H.
Qed.

Lemma index_path_not_area db h' e h :
  index_path db h' e ≠ datasets_path db ∧
  index_path db h' e ≠ datasets_path db ++ [DIRECTORY_INDEX] ∧
  index_path db h' e ≠ hash_dir db h.
Proof.
  unfold index_path, hash_dir. split_and!.
  - intros H. rewrite <- (app_nil_r (datasets_path db)) in H at 2.
    by apply app_inv_head in H.
  - intros H. by apply app_inv_head in H.
  - intros H. by apply app_inv_head in H.
Qed.

Lemma mkdir_hash_dir hash db fs h :
  dataset_store_ok hash db fs → fs !! db_path db = Some Dir →
  ∃ fs1,
    mkdir_parents (hash_dir db h) fs = Ok () fs1 ∧
    fs1 !! hash_dir db h = Some Dir ∧
    (∀ q, fs1 !! q = fs !! q ∨
          fs !! q = None ∧ fs1 !! q = Some Dir ∧
          (q = datasets_path db ∨ q = datasets_path db ++ [DIRECTORY_INDEX] ∨
           q = hash_dir db h)) ∧
    (fs !! hash_dir db h = Some Dir → fs1 = fs) ∧
    dataset_store_ok hash db fs1.
Proof.
  intros (Hwf & H1 & H2 & H3 & H4 & H5 & H6) Hdb.
  destruct (mkdir_parents_ok_if (hash_dir db h) fs) as [fs1 E].
  { intros k Hk [Hp|[Hp|[Hp|Hp]]]%hash_dir_prefixes; try subst k.
    - right. by eapply wf_prefix_dir.
    - destruct (fs !! datasets_path db) as [x|] eqn:Ex; [|by left].
      right. by rewrite (H1 x).
    - destruct (fs !! (datasets_path db ++ [DIRECTORY_INDEX])) as [x|] eqn:Ex;
        [|by left].
      right. specialize (H2 _ _ Ex). rewrite decide_True in H2 by done.
      by rewrite H2.
    - destruct (fs !! hash_dir db h) as [x|] eqn:Ex; [|by left].
      right. by rewrite (H3 h x Ex). }
  pose proof (mkdir_parents_wf (hash_dir db h) fs Hwf) as Hwf1.
  rewrite E in Hwf1. simpl in Hwf1.
  assert (∀ q, fs1 !! q = fs !! q ∨
          fs !! q = None ∧ fs1 !! q = Some Dir ∧
          (q = datasets_path db ∨ q = datasets_path db ++ [DIRECTORY_INDEX] ∨
           q = hash_dir db h)) as Hl.
  { intros q. pose proof (mkdir_parents_lookup (hash_dir db h) fs q) as H.
    rewrite E in H. simpl in H.
    destruct H as [?|(Hn & Hd & Hq & Hp)]; [by left|].
    apply hash_dir_prefixes in Hp as [Hp|Hp]; [|by right].
    rewrite (wf_prefix_dir fs (db_path db) q) in Hn; done. }
  assert (∀ q, q ≠ datasets_path db →
               q ≠ datasets_path db ++ [DIRECTORY_INDEX] →
               q ≠ hash_dir db h → fs1 !! q = fs !! q) as Hsame.
  { intros q ? ? ?. destruct (Hl q) as [?|(_&_&[?|[?|?]])]; done. }
  assert (∀ n df di, live db fs1 n df di ↔ live db fs n df di) as Hlive.
  { intros n df di. unfold live.
    destruct (csv_path_not_area db n h) as (?&?&?).
    destruct (datainfo_path_not_area db n h) as (?&?&?).
    by rewrite !Hsame. }
  assert (∀ h' e, fs1 !! index_path db h' e = fs !! index_path db h' e) as Hidx.
  { intros h' e. destruct (index_path_not_area db h' e h) as (?&?&?).
    by apply Hsame. }
  exists fs1. split_and!; [done| |done| |split_and!; [done|..]].
  - apply (mkdir_parents_ok_dir _ _ _ E). unfold hash_dir.
    by destruct (datasets_path db).
  - intros Hd. rewrite mkdir_parents_id in E by done. by injection E.
  - intros x Hx. destruct (Hl (datasets_path db)) as [Hq|(_&Hq&_)];
      rewrite Hq in Hx; [by apply H1|congruence].
  - intros c x Hx. destruct (Hl (datasets_path db ++ [c])) as [Hq|(_&Hq&Hc)];
      rewrite Hq in Hx; [by apply H2|].
    injection Hx as <-. destruct Hc as [Hc|[Hc|Hc]].
    + by apply snoc_neq_self in Hc.
    + apply app_inv_head in Hc. injection Hc as ->. by rewrite decide_True.
    + unfold hash_dir in Hc. by apply app_inv_head in Hc.
  - intros h' x Hx.
    destruct (Hl (datasets_path db ++ [DIRECTORY_INDEX] ++ [h']))
      as [Hq|(_&Hq&_)]; rewrite Hq in Hx; [by eapply H3|congruence].
  - intros h' e. rewrite Hidx. intros (n & df & di & ? & ? & ?)%H4.
    exists n, df, di. split_and!; [done|done|by apply Hlive].
  - intros n df di Hlv%Hlive. rewrite Hidx. by apply (H5 n df di).
  - intros n1 n2 df di1 di2 Hl1%Hlive Hl2%Hlive.
    by apply (H6 n1 n2 df di1 di2).
Qed.

(** ** [store_model] *)

Lemma store_model_eq hash txn fs :
  store_model hash txn fs =
  let m := model (model_entry txn) in
  let db := txn_db txn in
  let h := hash (dataset m) in
  (mkdir_parents (hash_dir db h);;
   entries ← reads (iterdir (hash_dir db h));
   found ← store_model_scan (datasets_path db) m entries;
   m' ← match found with
        | Some m' => mret m'
        | None => store_new_dataset db h m
        end;
   store_model_file db m') fs.
Proof.
  unfold store_model, store_new_dataset, store_model_file, index_path,
    hash_dir, csv_path, datainfo_path, datasets_path.
  cbv zeta. by rewrite <- !app_assoc.
Qed.

Lemma store_model_file_ok db m fs :
  fs !! (db_path db ++ [name m]) = Some Dir →
  fs !! (db_path db ++ [name m] ++ [name m +:+ filename_extension m])
  ≠ Some Dir →
  store_model_file db m fs
  = Ok m (<[db_path db ++ [name m] ++ [name m +:+ filename_extension m]
            := File (ModelFile m)]> fs).
Proof.
  intros Hrec Ht. unfold store_model_file, mkdir, write_model. unfold_M.
  rewrite Hrec, <- app_assoc. rewrite write_file_ok; [done|done|].
  by rewrite app_assoc, parent_snoc.
Qed.

(** The model file of a model lies outside the dataset area. *)
Lemma model_file_not_in_datasets db nm f q :
  nm ≠ DIRECTORY_DATASETS → datasets_path db `prefix_of` q →
  q ≠ db_path db ++ [nm] ++ [f].
Proof.
  intros Hn [r ->]. unfold datasets_path. rewrite <- app_assoc.
  intros H. apply app_inv_head in H. by injection H.
Qed.

Lemma index_path_parent db h e : parent (index_path db h e) = hash_dir db h.
Proof.
  unfold index_path, hash_dir.
  replace (datasets_path db ++ [DIRECTORY_INDEX] ++ [h] ++ [e])
    with ((datasets_path db ++ [DIRECTORY_INDEX] ++ [h]) ++ [e])
    by (by rewrite <- !app_assoc).
  apply parent_snoc.
Qed.

Lemma hash_dir_prefix db h : datasets_path db `prefix_of` hash_dir db h.
Proof. by apply prefix_app_r. Qed.

(** The [else] branch of the loop: no live entry holds the dataset of the
    model with its description, and a new entry is made under the name of
    the model. *)
Lemma store_new_dataset_ok hash db m fs1 :
  let h := hash (dataset m) in
  let m' := model_replace_datainfo m
              (datainfo_replace (datainfo m) (Some (csv_path db (name m)))) in
  name m ≠ "" → dataset_store_ok hash db fs1 →
  fs1 !! hash_dir db h = Some Dir →
  (∀ n di, live db fs1 n (dataset m) di → datainfo_eq di (datainfo m) = false) →
  ∃ fs4,
    store_new_dataset db h m fs1 = Ok m' fs4 ∧
    dataset_store_ok hash db fs4 ∧
    live db fs4 (name m) (dataset m) (datainfo m') ∧
    (∀ q, ¬ datasets_path db `prefix_of` q → fs4 !! q = fs1 !! q).
Proof.
  intros h m' Hname (Hwf & S1 & S2 & S3 & I4 & I5 & I6) Hhd Hno.
  set (idx := index_path db h (name m +:+ ".csv")).
  set (csv := csv_path db (name m)).
  set (dinfo := datainfo_path db (name m)).
  assert (fs1 !! datasets_path db = Some Dir) as HD
    by (eapply wf_prefix_dir; [done|done|apply hash_dir_prefix]).
  (* touch *)
  assert (parent idx = hash_dir db h) as Hpidx by apply index_path_parent.
  pose proof (touch_ok idx fs1) as E2.
  rewrite Hpidx in E2. specialize (E2 Hhd).
  set (fs2 := final_fs (touch idx fs1)) in *.
  assert (wf fs2) as Hwf2 by (by apply touch_wf).
  assert (∀ q, q ≠ idx → fs2 !! q = fs1 !! q) as H2.
  { intros q Hq. by destruct (touch_lookup idx fs1 q) as [?|(?&_)]. }
  assert (is_Some (fs2 !! idx)) as Hidx2.
  { destruct (touch_lookup idx fs1 idx) as [H|(_&_&H)].
    - unfold fs2. rewrite H. unfold touch in E2.
      destruct (fs1 !! idx) eqn:Ei; [done|].
      unfold fs2, touch in H. rewrite Ei in H.
      rewrite create_ok in H by (by rewrite Hpidx).
      simpl in H. by rewrite lookup_insert_eq in H.
    - unfold fs2. by rewrite H. }
  (* the dataset *)
  assert (idx ≠ csv) as Hic by apply index_path_not_csv.
  assert (idx ≠ dinfo) as Hid by apply index_path_not_datainfo.
  assert (csv ≠ dinfo) as Hcd by apply csv_path_not_datainfo.
  assert (∀ c, c ≠ DIRECTORY_INDEX →
               fs1 !! (datasets_path db ++ [c]) ≠ Some Dir) as Hfile.
  { intros c Hc Hd. specialize (S2 _ _ Hd). rewrite decide_False in S2 by done.
    by destruct S2. }
  assert (write_file csv (Csv (dataset m)) fs2
          = Ok () (<[csv := File (Csv (dataset m))]> fs2)) as E3.
  { apply write_file_ok.
    - rewrite H2 by done. apply Hfile, csv_not_index.
    - unfold csv, csv_path. rewrite parent_snoc, H2; [done|].
      intros H. by destruct (index_path_not_area db h (name m +:+ ".csv") h)
        as (? & _). }
  set (fs3 := <[csv := File (Csv (dataset m))]> fs2) in *.
  assert (wf fs3) as Hwf3.
  { pose proof (write_file_wf csv (Csv (dataset m)) fs2 Hwf2) as H.
    by rewrite E3 in H. }
  assert (write_file dinfo (DataInfoJson (datainfo m')) fs3
          = Ok () (<[dinfo := File (DataInfoJson (datainfo m'))]> fs3)) as E4.
  { apply write_file_ok.
    - unfold fs3. rewrite lookup_insert_ne, H2 by done.
      apply Hfile, datainfo_not_index.
    - unfold dinfo, datainfo_path. rewrite parent_snoc. unfold fs3.
      rewrite lookup_insert_ne, H2; [done| |].
      + intros H. by destruct (index_path_not_area db h (name m +:+ ".csv") h)
          as (? & _).
      + intros H. by destruct (csv_path_not_area db (name m) h) as (? & _). }
  set (fs4 := <[dinfo := File (DataInfoJson (datainfo m'))]> fs3) in *.
  assert (wf fs4) as Hwf4.
  { pose proof (write_file_wf dinfo (DataInfoJson (datainfo m')) fs3 Hwf3) as H.
    by rewrite E4 in H. }
  assert (fs4 !! csv = Some (File (Csv (dataset m)))) as Hcsv4.
  { unfold fs4, fs3. by rewrite lookup_insert_ne, lookup_insert_eq. }
  assert (fs4 !! dinfo = Some (File (DataInfoJson (datainfo m')))) as Hdi4
    by apply lookup_insert_eq.
  assert (is_Some (fs4 !! idx)) as Hidx4.
  { unfold fs4, fs3. by rewrite !lookup_insert_ne. }
  assert (∀ q, q ≠ csv → q ≠ dinfo → q ≠ idx → fs4 !! q = fs1 !! q) as Hother.
  { intros q ? ? ?. unfold fs4, fs3. rewrite !lookup_insert_ne by done.
    by apply H2. }
  assert (∀ q, is_Some (fs1 !! q) → is_Some (fs4 !! q)) as Hmono.
  { intros q Hq. destruct (decide (q = csv)) as [->|]; [by rewrite Hcsv4|].
    destruct (decide (q = dinfo)) as [->|]; [by rewrite Hdi4|].
    destruct (decide (q = idx)) as [->|]; [done|]. by rewrite Hother. }
  assert (live db fs4 (name m) (dataset m) (datainfo m')) as Hlive4.
  { split_and!; done. }
  assert (∀ n df di, n ≠ name m →
            (live db fs4 n df di ↔ live db fs1 n df di)) as Hlive_other.
  { intros n df di Hn. unfold live.
    assert (fs4 !! csv_path db n = fs1 !! csv_path db n) as ->.
    { apply Hother.
      - intros H. by apply csv_path_inj in H.
      - apply csv_path_not_datainfo.
      - apply not_eq_sym, index_path_not_csv. }
    assert (fs4 !! datainfo_path db n = fs1 !! datainfo_path db n) as ->.
    { apply Hother.
      - apply not_eq_sym, csv_path_not_datainfo.
      - intros H. by apply datainfo_path_inj in H.
      - apply not_eq_sym, index_path_not_datainfo. }
    done. }
  exists fs4. split_and!; [| |done|].
  - unfold store_new_dataset, write_csv, DataInfo_to_json. unfold_M.
    fold idx csv dinfo. rewrite E2. cbn [dataset model_replace_datainfo].
    rewrite E3. cbn [name model_replace_datainfo]. fold dinfo.
    change (datainfo (model_replace_datainfo _ _)) with (datainfo m').
    by rewrite E4.
  - split_and!; [done|..].
    + intros x. rewrite Hother; [apply S1|..].
      * by destruct (csv_path_not_area db (name m) h) as (?&_).
      * by destruct (datainfo_path_not_area db (name m) h) as (?&_).
      * by destruct (index_path_not_area db h (name m +:+ ".csv") h) as (?&_).
    + intros c x Hx.
      destruct (decide (datasets_path db ++ [c] = csv)) as [Hq|Hq1].
      { rewrite Hq, Hcsv4 in Hx. injection Hx as <-.
        apply app_inv_head in Hq. injection Hq as ->.
        rewrite decide_False by apply csv_not_index. by eexists. }
      destruct (decide (datasets_path db ++ [c] = dinfo)) as [Hq|Hq2].
      { rewrite Hq, Hdi4 in Hx. injection Hx as <-.
        apply app_inv_head in Hq. injection Hq as ->.
        rewrite decide_False by apply datainfo_not_index. by eexists. }
      rewrite Hother in Hx; [by apply S2|done|done|].
      intros H. by apply app_inv_head in H.
    + intros h' x. rewrite Hother; [apply S3|..].
      * intros H. by apply app_inv_head in H.
      * intros H. by apply app_inv_head in H.
      * intros H. by apply app_inv_head in H.
    + intros h' e He.
      destruct (decide (index_path db h' e = idx)) as [Hq|Hq].
      { apply index_path_inj in Hq as [_ ->].
        by exists (name m), (dataset m), (datainfo m'). }
      rewrite Hother in He;
        [|apply index_path_not_csv|apply index_path_not_datainfo|done].
      destruct (I4 h' e He) as (n & df & di & -> & Hn & Hl).
      destruct (decide (n = name m)) as [->|Hne].
      * by exists (name m), (dataset m), (datainfo m').
      * exists n, df, di. split_and!; [done|done|by apply Hlive_other].
    + intros n df di Hl. destruct (decide (n = name m)) as [->|Hne].
      * destruct (live_fun _ _ _ _ _ _ _ Hl Hlive4) as [-> _]. done.
      * apply Hmono, (I5 n df di). by apply Hlive_other.
    + intros n1 n2 df di1 di2 Hl1 Hl2 Heq.
      destruct (decide (n1 = name m)) as [->|Hn1],
               (decide (n2 = name m)) as [->|Hn2]; [done|..].
      * exfalso. destruct (live_fun _ _ _ _ _ _ _ Hl1 Hlive4) as [-> ->].
        apply Hlive_other in Hl2; [|done].
        apply datainfo_eq_true in Heq.
        assert (datainfo_eq di2 (datainfo m) = true) as Ht
          by (apply datainfo_eq_true; by rewrite <- Heq).
        by rewrite (Hno n2 di2 Hl2) in Ht.
      * exfalso. destruct (live_fun _ _ _ _ _ _ _ Hl2 Hlive4) as [-> ->].
        apply Hlive_other in Hl1; [|done].
        apply datainfo_eq_true in Heq.
        assert (datainfo_eq di1 (datainfo m) = true) as Ht
          by (apply datainfo_eq_true; by rewrite Heq).
        by rewrite (Hno n1 di1 Hl1) in Ht.
      * apply (I6 n1 n2 df di1 di2); [by apply Hlive_other..|done].
  - intros q Hq. apply Hother.
    + intros ->. apply Hq, csv_path_prefix.
    + intros ->. apply Hq, datainfo_path_prefix.
    + intros ->. apply Hq, index_path_prefix.
Qed.

Lemma index_path_hash_dir db h e : hash_dir db h ++ [e] = index_path db h e.
Proof. unfold hash_dir, index_path. by rewrite <- !app_assoc. Qed.

(** C1, as the code has it.  In a store that satisfies the invariant, a
    transaction that is open on a model with a proper name stores the model:
    [store_model] returns, the invariant holds again, so that no two live
    entries hold the same dataset with the same description, and the
    dataset of the model is read back from the path the returned model
    records.  When a live entry holds the dataset of the model with a
    description equal to the one of the model, the returned model records
    the path of that entry and nothing is written to the dataset area. *)
Theorem store_model_deduplicates hash txn fs :
  let m := model (model_entry txn) in
  let db := txn_db txn in
  name m ≠ "" → name m ≠ DIRECTORY_DATASETS →
  dataset_store_ok hash db fs → ready txn fs →
  ∃ m' fs',
    store_model hash txn fs = Ok m' fs' ∧
    dataset_store_ok hash db fs' ∧ no_duplicates db fs' ∧
    (∃ n, di_path (datainfo m') = Some (csv_path db n) ∧
          live db fs' n (dataset m) (datainfo m')) ∧
    (∀ n di, live db fs n (dataset m) di →
             datainfo_eq di (datainfo m) = true →
             di_path (datainfo m') = Some (csv_path db n) ∧
             ∀ q, datasets_path db `prefix_of` q → fs' !! q = fs !! q).
Proof.
  intros m db Hname Hnd Hok [Hrec Htarget].
  set (h := hash (dataset m)).
  set (target := db_path db ++ [name m] ++ [name m +:+ filename_extension m])
    in *.
  assert (wf fs) as Hwf by apply Hok.
  assert (fs !! db_path db = Some Dir) as Hdb.
  { eapply wf_prefix_dir; [done|done|]. by apply prefix_app_r. }
  destruct (mkdir_hash_dir hash db fs h Hok Hdb)
    as (fs1 & E1 & Hhd & Hl1 & Hid & Hok1).
  assert (∀ q, ¬ datasets_path db `prefix_of` q → fs1 !! q = fs !! q) as Hout1.
  { intros q Hq. destruct (Hl1 q) as [?|(_&_&[Hx|[Hx|Hx]])]; [done|..];
      subst q; destruct Hq; [done|by apply prefix_app_r|apply hash_dir_prefix]. }
  assert (¬ datasets_path db `prefix_of` target) as Htd.
  { intros H. by apply (model_file_not_in_datasets db (name m)
      (name m +:+ filename_extension m)) in H. }
  assert (¬ datasets_path db `prefix_of` db_path db ++ [name m]) as Hrd.
  { intros [r Hr]. unfold datasets_path in Hr. rewrite <- app_assoc in Hr.
    apply app_inv_head in Hr. by injection Hr. }
  pose proof Hok1 as (Hwf1 & S1 & S2 & S3 & I4 & I5 & I6).
  assert (∀ e, e ∈ iterdir (hash_dir db h) fs1 →
               ∃ n df di, e = n +:+ ".csv" ∧ n ≠ "" ∧ live db fs1 n df di)
    as Hentries.
  { intros e He%elem_of_iterdir. rewrite index_path_hash_dir in He.
    by apply (I4 h e). }
  (* the model file is written the same way after both branches *)
  assert (∀ m0 fs0,
            name m0 = name m → filename_extension m0 = filename_extension m →
            wf fs0 →
            (∀ q, ¬ datasets_path db `prefix_of` q → fs0 !! q = fs1 !! q) →
            ∃ fs', store_model_file db m0 fs0 = Ok m0 fs' ∧ wf fs' ∧
                   ∀ q, datasets_path db `prefix_of` q → fs' !! q = fs0 !! q)
    as Hfile.
  { intros m0 fs0 Hn0 He0 Hwf0 Hout0. eexists. split_and!.
    - apply store_model_file_ok; rewrite Hn0, ?He0.
      + by rewrite Hout0, Hout1.
      + fold target. by rewrite Hout0, Hout1.
    - rewrite Hn0, He0. fold target.
      apply wf_insert; [done|by destruct (db_path db)| |].
      + unfold target. rewrite app_assoc, parent_snoc.
        by rewrite Hout0, Hout1.
      + rewrite Hout0, Hout1 by done. done.
    - intros q Hq. rewrite lookup_insert_ne; [done|].
      rewrite Hn0, He0. fold target. by intros <-. }
  destruct (store_model_scan_spec db m _ fs1 Hentries)
    as [(n & di & Hin & Hlive & Heq & Escan)|[Hno Escan]].
  - (* an entry of the index holds the dataset: it is used *)
    set (m' := model_replace_datainfo m
                 (datainfo_replace (datainfo m) (Some (csv_path db n)))).
    destruct (Hfile m' fs1) as (fs' & E' & Hwf' & Hin');
      [done|done|done|done|].
    exists m', fs'.
    assert (dataset_store_ok hash db fs') as Hok' by (by eapply dataset_store_ok_ext).
    assert (datainfo m' = di) as Hdi.
    { destruct Hlive as (_ & _ & Hp). apply datainfo_eq_true in Heq.
      destruct di as [p c]. simpl in *. unfold datainfo_replace.
      by rewrite Hp, Heq. }
    split_and!; [|done|apply Hok'| |].
    + rewrite store_model_eq. fold m db. cbv zeta. unfold_M. fold h.
      rewrite E1, Escan. cbv beta iota. exact E'.
    + exists n. split; [done|]. rewrite Hdi. by apply (live_ext db fs1 fs').
    + intros n0 di0 Hl0 Heq0.
      assert (fs1 = fs) as Hfs.
      { apply Hid. destruct Hok as (_ & _ & _ & _ & _ & I5' & _).
        destruct (I5' n0 _ _ Hl0) as [x Hx]. fold h in Hx.
        rewrite <- index_path_parent with (e := n0 +:+ ".csv").
        eapply wf_parent; [done|done|]. unfold index_path.
        by destruct (datasets_path db). }
      subst fs1. split; [|done].
      assert (n = n0) as ->; [|done].
      apply (I6 n n0 (dataset m) di di0); [done|done|].
      apply datainfo_eq_true. apply datainfo_eq_true in Heq, Heq0. congruence.
  - (* no entry holds it: a new entry is made *)
    destruct (store_new_dataset_ok hash db m fs1 Hname Hok1 Hhd)
      as (fs4 & E4 & Hok4 & Hlive4 & Hout4).
    { intros n di Hl. apply (Hno n di); [|done]. apply elem_of_iterdir.
      rewrite index_path_hash_dir. by apply (I5 n _ di). }
    fold h in E4.
    set (m' := model_replace_datainfo m
                 (datainfo_replace (datainfo m) (Some (csv_path db (name m)))))
      in *.
    destruct (Hfile m' fs4) as (fs' & E' & Hwf' & Hin');
      [done|done|apply Hok4|done|].
    exists m', fs'.
    assert (dataset_store_ok hash db fs') as Hok' by (by eapply dataset_store_ok_ext).
    split_and!; [|done|apply Hok'| |].
    + rewrite store_model_eq. fold m db. cbv zeta. unfold_M. fold h.
      rewrite E1, Escan. cbv beta iota. rewrite E4. exact E'.
    + exists (name m). split; [done|]. by apply (live_ext db fs4 fs').
    + intros n0 di0 Hl0 Heq0. exfalso.
      assert (live db fs1 n0 (dataset m) di0) as Hl1'.
      { destruct Hl0 as (Ha & Hb & Hc). split_and!; [| |done].
        - destruct (Hl1 (csv_path db n0)) as [->|(Hn&_)]; congruence.
        - destruct (Hl1 (datainfo_path db n0)) as [->|(Hn&_)]; congruence. }
      assert (datainfo_eq di0 (datainfo m) = false) as Hf; [|congruence].
      apply (Hno n0 di0); [|done]. apply elem_of_iterdir.
      rewrite index_path_hash_dir. by apply (I5 n0 _ di0).
Qed.

(** C1, at the small store.  A transaction is open on [m1] in a store that
    holds no dataset yet; [store_model] makes the entry [m1.csv].  Called
    again, it finds the entry, records its path and writes nothing to the
    dataset area. *)
Lemma store_model_deduplicates_witness :
  let txn := Transaction_init demo_db (inl demo_m1) in
  let fs := final_fs (transaction_enter demo_db (inl demo_m1) demo_fs0) in
  let fs1 := final_fs (store_model demo_hash txn fs) in
  (name demo_m1 ≠ "" ∧ name demo_m1 ≠ DIRECTORY_DATASETS ∧
   dataset_store_ok demo_hash demo_db fs ∧ ready txn fs) ∧
  (dataset_store_ok demo_hash demo_db fs1 ∧ ready txn fs1 ∧
   ∃ m' fs', store_model demo_hash txn fs1 = Ok m' fs' ∧
             di_path (datainfo m') = Some (csv_path demo_db "m1") ∧
             ∀ q, datasets_path demo_db `prefix_of` q → fs' !! q = fs1 !! q).
Proof.
  intros txn fs fs1.
  assert (name demo_m1 ≠ "") as H1 by discriminate.
  assert (name demo_m1 ≠ DIRECTORY_DATASETS) as H2 by discriminate.
  assert (dataset_store_ok demo_hash demo_db fs) as H3.
  { apply dataset_store_ok_fresh; [by_compute|vm_compute; reflexivity]. }
  assert (ready txn fs) as H4.
  { split; [vm_compute; reflexivity|].
    assert (fs !! (db_path (txn_db txn) ++ [name (model (model_entry txn))] ++
                   [name (model (model_entry txn)) +:+
                    filename_extension (model (model_entry txn))]) = None)
      as E by (vm_compute; reflexivity).
    rewrite E. discriminate. }
  split; [split_and!; assumption|].
  destruct (store_model_deduplicates demo_hash txn fs H1 H2 H3 H4)
    as (m1' & fs1' & E1 & Hok1 & _ & _ & _).
  assert (fs1' = fs1) as -> by (unfold fs1; by rewrite E1).
  assert (ready txn fs1) as H5.
  { split; [vm_compute; reflexivity|].
    assert (fs1 !! (db_path (txn_db txn) ++ [name (model (model_entry txn))] ++
                    [name (model (model_entry txn)) +:+
                     filename_extension (model (model_entry txn))])
            = Some (File (ModelFile
                (model_replace_datainfo demo_m1
                   (mkDataInfo (Some (csv_path demo_db "m1")) ["ID"; "DV"])))))
      as E by (vm_compute; reflexivity).
    rewrite E. discriminate. }
  split_and!; [done|done|].
  destruct (store_model_deduplicates demo_hash txn fs1 H1 H2 Hok1 H5)
    as (m2' & fs2' & E2 & _ & _ & _ & Hreuse).
  exists m2', fs2'. split; [done|].
  apply (Hreuse "m1" (mkDataInfo (Some (csv_path demo_db "m1")) ["ID"; "DV"])).
  - split_and!; [vm_compute; reflexivity|vm_compute; reflexivity|reflexivity].
  - reflexivity.
Defined.

(** A second model with the dataset and the description of the first: its
    transaction stores no dataset, and the model it writes points to the
    file of the first. *)
Example demo_reuse :
  let fs1 := final_fs (transaction demo_db (inl demo_m1)
                         (store_model demo_hash) demo_fs0) in
  let stored := transaction demo_db (inl demo_m2) (store_model demo_hash) fs1 in
  result stored
  = inl (model_replace_datainfo demo_m2
           (mkDataInfo (Some (csv_path demo_db "m1")) ["ID"; "DV"])) ∧
  final_fs stored !! csv_path demo_db "m1" = Some (File (Csv demo_D1)) ∧
  final_fs stored !! csv_path demo_db "m2" = None.
Proof. intros fs1 stored. split_and!; by vm_compute. Qed.

(** C1 fails as it is stated.  [m3] has the dataset of [m1], which is
    stored, and another description of its columns.  Its transaction does
    not use the entry of [m1]: it writes a second physical file with the
    same dataset, and the index of the one hash holds both. *)
Lemma equal_datasets_stored_twice :
  let stored := transaction demo_db (inl demo_m3) (store_model demo_hash)
                  demo_fs in
  let h := demo_hash demo_D1 in
  dataset demo_m3 = dataset demo_m1 ∧
  demo_fs !! csv_path demo_db "m1" = Some (File (Csv demo_D1)) ∧
  result stored
  = inl (model_replace_datainfo demo_m3
           (mkDataInfo (Some (csv_path demo_db "m3")) ["ID"; "CONC"])) ∧
  final_fs stored !! csv_path demo_db "m1" = Some (File (Csv demo_D1)) ∧
  final_fs stored !! csv_path demo_db "m3" = Some (File (Csv demo_D1)) ∧
  csv_path demo_db "m1" ≠ csv_path demo_db "m3" ∧
  final_fs stored !! index_path demo_db h "m1.csv" = Some (File Empty) ∧
  final_fs stored !! index_path demo_db h "m3.csv" = Some (File Empty).
Proof. intros stored h. split_and!; by vm_compute. Qed.

(** * The lock discipline *)

Lemma obtainable_false l hs h :
  h ∈ hs → compatible l h.2 = false → obtainable l hs = false.
Proof.
  intros Hin Hc. induction Hin as [h hs|h h' hs Hin IH]; simpl.
  - by rewrite Hc.
  - rewrite IH by done. by destruct (compatible l h'.2).
Qed.

Lemma obtainable_true l hs :
  (∀ h, h ∈ hs → compatible l h.2 = true) → obtainable l hs = true.
Proof.
  induction hs as [|h hs IH]; intros H; simpl; [done|].
  rewrite (H h) by (by left). simpl. apply IH. intros h' Hin. apply H.
  by right.
Qed.

Lemma compatible_same_path a b :
  lock_path a = lock_path b → compatible a b = shared a && shared b.
Proof.
  intros H. unfold compatible. by rewrite bool_decide_eq_true_2.
Qed.

Lemma compatible_other_path a b :
  lock_path a ≠ lock_path b → compatible a b = true.
Proof.
  intros H. unfold compatible. by rewrite bool_decide_eq_false_2.
Qed.

Lemma compatible_database_lock db a b :
  compatible (database_lock db a) (database_lock db b) = a && b.
Proof. by rewrite compatible_same_path. Qed.

Lemma obtainable_database_lock db a b q hs :
  (q, database_lock db b) ∈ hs → a && b = false →
  obtainable (database_lock db a) hs = false.
Proof.
  intros Hin Hab. apply (obtainable_false _ hs (q, database_lock db b) Hin).
  simpl. by rewrite compatible_database_lock.
Qed.

Lemma release_head p l hs : release p l ((p, l) :: hs) = hs.
Proof. simpl. by rewrite bool_decide_eq_true_2. Qed.

Lemma with_lock_held_granted {A} p lk (body : M A) hs fs o hs' :
  with_lock_held p lk body hs fs = Done o hs' → o = with_lock lk body fs.
Proof.
  unfold with_lock_held, with_lock. unfold_M.
  destruct (lk fs) as [l fs1|e fs1]; [|by intros [= <- _]].
  destruct (acquire p l hs); [|done].
  destruct (body fs1); by intros [= <- _].
Qed.

(** When the lock is granted, the opening is the one of the sequential
    semantics. *)
Lemma transaction_open_granted p db moe hs fs o hs' :
  transaction_open p db moe hs fs = Done o hs' →
  o = transaction_enter db moe fs.
Proof.
  assert (transaction_enter db moe fs =
          match mkdir_parents (metadata_dir db (model_name_of moe)) fs with
          | Ok _ fs1 =>
              with_lock (_write_lock db)
                (catch (touch_excl (metadata_dir db (model_name_of moe)
                                      ++ [FILE_PENDING]))
                   FileExistsError (raise PendingTransactionError);;
                 mret (Transaction_init db moe)) fs1
          | Raise e fs1 => Raise e fs1
          end) as -> by reflexivity.
  unfold transaction_open.
  destruct (mkdir_parents _ fs) as [[] fs1|e fs1]; [|by intros [= <- _]].
  apply with_lock_held_granted.
Qed.

Lemma write_lock_request db fs l fs' :
  _write_lock db fs = Ok l fs' → l = database_lock db false.
Proof.
  unfold _write_lock. unfold_M. destruct (touch _ fs); [|done].
  by intros [= <- _].
Qed.

Lemma read_lock_request db fs l fs' :
  _read_lock db fs = Ok l fs' → l = database_lock db true.
Proof.
  unfold _read_lock. unfold_M. destruct (touch _ fs); [|done].
  by intros [= <- _].
Qed.

Lemma write_lock_ok db fs1 fs2 :
  touch (db_path db ++ [FILE_LOCK]) fs1 = Ok () fs2 →
  _write_lock db fs1 = Ok (database_lock db false) fs2.
Proof. intros H. unfold _write_lock. unfold_M. by rewrite H. Qed.

Lemma read_lock_ok db fs1 fs2 :
  touch (db_path db ++ [FILE_LOCK]) fs1 = Ok () fs2 →
  _read_lock db fs1 = Ok (database_lock db true) fs2.
Proof. intros H. unfold _read_lock. unfold_M. by rewrite H. Qed.

(** With the lock obtainable, [with lk: body] is the one of the sequential
    semantics, and the lock is held when the body comes to its [yield]. *)
Lemma with_lock_held_free {A} p lk (body : M A) hs fs l0 :
  (∀ l fs1, lk fs = Ok l fs1 → l = l0 ∧ obtainable l0 hs = true) →
  with_lock_held p lk body hs fs
  = Done (with_lock lk body fs)
         (match result (with_lock lk body fs) with
          | inl _ => (p, l0) :: hs
          | inr _ => hs
          end).
Proof.
  intros H. unfold with_lock_held, with_lock. unfold mbind, M_bind.
  destruct (lk fs) as [l fs1|e fs1] eqn:E; [|done].
  destruct (H l fs1 eq_refl) as [-> Ho]. unfold acquire. rewrite Ho.
  by destruct (body fs1).
Qed.

Lemma with_lock_held_blocked {A} p lk (body : M A) hs fs l fs1 :
  lk fs = Ok l fs1 → obtainable l hs = false →
  with_lock_held p lk body hs fs = Blocked.
Proof.
  intros E Ho. unfold with_lock_held, acquire. by rewrite E, Ho.
Qed.

Lemma obtainable_free db a hs :
  database_free db hs → obtainable (database_lock db a) hs = true.
Proof.
  intros H. apply obtainable_true. intros h Hin.
  apply compatible_other_path. simpl. apply not_eq_sym. by apply H.
Qed.

Lemma obtainable_shared db hs :
  ¬ transaction_active db hs → obtainable (database_lock db true) hs = true.
Proof.
  intros Hno. apply obtainable_true. intros [q [lp sh]] Hin. simpl.
  destruct (decide (db_path db ++ [FILE_LOCK] = lp)) as [<-|Hne].
  - rewrite compatible_same_path by done. simpl.
    destruct sh; [done|]. destruct Hno. by exists q.
  - by apply compatible_other_path.
Qed.

(** An opening that is granted the lock is the opening of the sequential
    semantics; it holds the lock when it succeeds and not when it fails. *)
Lemma transaction_open_free p db moe hs fs :
  database_free db hs →
  transaction_open p db moe hs fs
  = Done (transaction_enter db moe fs)
         (match result (transaction_enter db moe fs) with
          | inl _ => (p, database_lock db false) :: hs
          | inr _ => hs
          end).
Proof.
  intros Hfree.
  assert (transaction_enter db moe fs =
          match mkdir_parents (metadata_dir db (model_name_of moe)) fs with
          | Ok _ fs1 =>
              with_lock (_write_lock db)
                (catch (touch_excl (metadata_dir db (model_name_of moe)
                                      ++ [FILE_PENDING]))
                   FileExistsError (raise PendingTransactionError);;
                 mret (Transaction_init db moe)) fs1
          | Raise e fs1 => Raise e fs1
          end) as -> by reflexivity.
  unfold transaction_open.
  destruct (mkdir_parents _ fs) as [[] fs1|e fs1]; [|done].
  apply with_lock_held_free. intros l fs2 Hl.
  apply write_lock_request in Hl as ->. split; [done|].
  by apply obtainable_free.
Qed.

Lemma snapshot_open_shared p db k hs fs :
  ¬ transaction_active db hs →
  snapshot_open p db k hs fs
  = Done (snapshot_enter db k fs)
         (match result (snapshot_enter db k fs) with
          | inl _ => (p, database_lock db true) :: hs
          | inr _ => hs
          end).
Proof.
  intros Hno.
  assert (snapshot_enter db k fs =
          match mkdir_parents (metadata_dir db k) fs with
          | Ok _ fs1 =>
              with_lock (_read_lock db)
                (pending ← reads (exists_ (metadata_dir db k ++ [FILE_PENDING]));
                 if pending : bool then raise PendingTransactionError
                 else mret (mkSnapshot db k)) fs1
          | Raise e fs1 => Raise e fs1
          end) as -> by reflexivity.
  unfold snapshot_open.
  destruct (mkdir_parents _ fs) as [[] fs1|e fs1]; [|done].
  apply with_lock_held_free. intros l fs2 Hl.
  apply read_lock_request in Hl as ->. split; [done|].
  by apply obtainable_shared.
Qed.

(** An opening comes to the lock when the metadata directory can be made;
    it blocks there when the lock is not obtainable. *)
Lemma transaction_open_blocked p db moe hs fs :
  wf fs → can_make_dir (metadata_dir db (model_name_of moe)) fs →
  transaction_active db hs ∨ snapshot_active db hs →
  transaction_open p db moe hs fs = Blocked.
Proof.
  intros Hwf Hcan Hact. unfold transaction_open.
  destruct (can_make_dir_mkdir _ _ Hcan) as [fs1 E1]. rewrite E1.
  destruct (touch_lock_ok db _ fs fs1 Hwf E1) as (fs2 & E2 & _).
  apply (with_lock_held_blocked _ _ _ _ _ _ _ (write_lock_ok _ _ _ E2)).
  destruct Hact as [[q Hq]|[q Hq]].
  - by apply (obtainable_database_lock db false false q hs).
  - by apply (obtainable_database_lock db false true q hs).
Qed.

Lemma snapshot_open_blocked p db k hs fs :
  wf fs → can_make_dir (metadata_dir db k) fs → transaction_active db hs →
  snapshot_open p db k hs fs = Blocked.
Proof.
  intros Hwf Hcan [q Hq]. unfold snapshot_open.
  destruct (can_make_dir_mkdir _ _ Hcan) as [fs1 E1]. rewrite E1.
  destruct (touch_lock_ok db _ fs fs1 Hwf E1) as (fs2 & E2 & _).
  apply (with_lock_held_blocked _ _ _ _ _ _ _ (read_lock_ok _ _ _ E2)).
  by apply (obtainable_database_lock db true false q hs).
Qed.

(** A transaction opens when the metadata directory of the record can be
    made and the record has no marker. *)
Lemma transaction_enter_can db moe fs :
  wf fs → can_make_dir (metadata_dir db (model_name_of moe)) fs →
  ¬ marker_present db (model_name_of moe) fs →
  ∃ fs1, transaction_enter db moe fs = Ok (Transaction_init db moe) fs1.
Proof.
  intros Hwf Hcan Hm.
  pose proof (transaction_enter_spec db moe fs Hwf) as H. simpl in H.
  destruct (transaction_enter db moe fs) as [txn fs1|e fs1] eqn:E.
  { destruct H as (-> & _). by eexists. }
  exfalso. destruct H as (Hiff & _). revert E.
  unfold transaction_enter, _write_lock. unfold_M.
  destruct (can_make_dir_mkdir _ _ Hcan) as [fs1' E1]. rewrite E1.
  destruct (touch_lock_ok db _ fs fs1' Hwf E1) as (fs2 & E2 & Hf2 & _ & Hp2).
  rewrite E2. fold (pending_path db (model_name_of moe)).
  unfold touch_excl.
  assert (fs2 !! pending_path db (model_name_of moe) = None) as Hn.
  { rewrite Hf2 by apply pending_not_lock.
    pose proof (mkdir_meta_pending db (model_name_of moe) fs) as H.
    rewrite E1 in H. simpl in H. rewrite H. unfold marker_present in Hm.
    destruct (fs !! pending_path db (model_name_of moe)); [|done].
    by destruct Hm. }
  rewrite Hn, create_ok; [done|].
  rewrite pending_path_parent. eapply Hp2, mkdir_parents_ok_dir; [done|].
  unfold metadata_dir. by destruct (db_path db).
Qed.

Lemma database_free_not_active db hs :
  database_free db hs → ¬ transaction_active db hs.
Proof. intros Hfree [q Hq]. by apply (Hfree _ Hq). Qed.

Lemma unlink_ok p fs n :
  fs !! p = Some n → n ≠ Dir → unlink p fs = Ok () (delete p fs).
Proof. intros H Hn. unfold unlink. rewrite H. by destruct n. Qed.

(** C2, as the code has it.  An opening that is granted the lock of the
    database fails with PendingTransactionError exactly when the
    PendingMarker of the key exists, and then holds no lock.  Without the
    marker it succeeds, where the metadata directory can be made: it makes
    the marker and holds the lock of the database exclusively.  While it is
    open, another opening on the key does not fail but blocks at the lock.
    A clean exit of the scope removes the marker and releases the lock.  An
    exit by an error leaves the filesystem as the body left it and releases
    the lock; when the marker is still there, the next opening on the key
    is granted the lock and fails with PendingTransactionError. *)
Theorem transaction_pending_marker p db moe hs fs :
  let k := model_name_of moe in
  let lock := (p, database_lock db false) in
  wf fs → database_free db hs →
  (marker_present db k fs →
   ∃ fs1, transaction_open p db moe hs fs
          = Done (Raise PendingTransactionError fs1) hs ∧
          preserved fs fs1)
  ∧ (∀ o hs1, transaction_open p db moe hs fs = Done o hs1 →
       result o = inr PendingTransactionError → marker_present db k fs)
  ∧ (¬ marker_present db k fs → can_make_dir (metadata_dir db k) fs →
     ∃ fs1,
       transaction_open p db moe hs fs
       = Done (Ok (Transaction_init db moe) fs1) (lock :: hs) ∧
       fs1 !! pending_path db k = Some (File Empty) ∧
       wf fs1 ∧ preserved fs fs1 ∧
       (∀ q moe', model_name_of moe' = k →
          transaction_open q db moe' (lock :: hs) fs1 = Blocked) ∧
       (∀ A (body : _ → M A) r fs2 n,
          body (Transaction_init db moe) fs1 = Ok r fs2 →
          fs2 !! pending_path db k = Some n → n ≠ Dir →
          transaction_scope p db moe body hs fs
          = Done (Ok r (delete (pending_path db k) fs2)) hs ∧
          ¬ marker_present db k (delete (pending_path db k) fs2)) ∧
       (∀ A (body : _ → M A) e fs2,
          body (Transaction_init db moe) fs1 = Raise e fs2 →
          transaction_scope p db moe body hs fs = Done (Raise e fs2) hs ∧
          (wf fs2 → marker_present db k fs2 →
           ∀ q moe', model_name_of moe' = k →
             ∃ fs3, transaction_open q db moe' hs fs2
                    = Done (Raise PendingTransactionError fs3) hs))).
Proof.
  intros k lock Hwf Hfree.
  assert (∀ q fs0 moe', wf fs0 → model_name_of moe' = k →
            marker_present db k fs0 →
            ∃ fs1, transaction_open q db moe' hs fs0
                   = Done (Raise PendingTransactionError fs1) hs ∧
                   preserved fs0 fs1) as Hfail.
  { intros q fs0 moe' Hwf0 Hk Hm. rewrite transaction_open_free by done.
    pose proof (transaction_enter_spec db moe' fs0 Hwf0) as H.
    rewrite Hk in H. simpl in H.
    destruct (transaction_enter db moe' fs0) as [txn fs1|e fs1]; simpl.
    - by destruct H as (_ & ? & _).
    - destruct H as ([_ H] & _ & Hp). rewrite (H Hm). by exists fs1. }
  split_and!.
  - intros Hm. by apply Hfail.
  - intros o hs1 E Hr. apply transaction_open_granted in E as ->.
    pose proof (transaction_enter_spec db moe fs Hwf) as H. simpl in H.
    fold k in H. destruct (transaction_enter db moe fs); [done|].
    injection Hr as ->. by apply H.
  - intros Hm Hcan.
    destruct (transaction_enter_can db moe fs Hwf Hcan Hm) as [fs1 E].
    pose proof (transaction_enter_spec db moe fs Hwf) as H. simpl in H.
    fold k in H. rewrite E in H. destruct H as (_ & _ & Hp & Hwf1 & Hpres).
    assert (transaction_open p db moe hs fs
            = Done (Ok (Transaction_init db moe) fs1) (lock :: hs)) as Eo.
    { rewrite transaction_open_free by done. by rewrite E. }
    exists fs1. split_and!; [done|done|done|done|..].
    + intros q moe' Hk. apply transaction_open_blocked; [done| |].
      * rewrite Hk. apply can_make_dir_dir; [done|].
        rewrite <- pending_path_parent. eapply wf_parent; [done|done|].
        unfold pending_path. by destruct (metadata_dir db k).
      * left. exists p. by left.
    + intros A body r fs2 n Hb Hn Hnd. split.
      * unfold transaction_scope. rewrite Eo, Hb. cbv zeta.
        unfold transaction_close, transaction_commit. cbn [fst snd].
        fold k. rewrite (unlink_ok _ _ n) by done.
        fold (database_lock db false). unfold lock. by rewrite release_head.
      * unfold marker_present. rewrite lookup_delete_eq. by intros [].
    + intros A body e fs2 Hb. split.
      * unfold transaction_scope. rewrite Eo, Hb.
        unfold transaction_close. cbn [snd].
        fold (database_lock db false). unfold lock. by rewrite release_head.
      * intros Hwf2 Hm2 q moe' Hk.
        destruct (Hfail q fs2 moe' Hwf2 Hk Hm2) as (fs3 & ? & _).
        by exists fs3.
Qed.

(** C2 fails as it is stated.  The holder [0] opens a transaction on
    [m3]: the marker is there and the lock is held.  A second opening on
    the key without closing the first, by another holder or by the same,
    does not fail with PendingTransactionError: it blocks at the lock of the
    database and does not come to the marker. *)
Lemma second_opening_blocks :
  match transaction_open 0 demo_db (inl demo_m3) [] demo_fs with
  | Done (Ok _ fs1) hs1 =>
      fs1 !! pending_path demo_db "m3" = Some (File Empty) ∧
      hs1 = [(0, database_lock demo_db false)] ∧
      transaction_open 1 demo_db (inl demo_m3) hs1 fs1 = Blocked ∧
      transaction_open 0 demo_db (inl demo_m3) hs1 fs1 = Blocked
  | _ => False
  end.
Proof. by vm_compute. Qed.

(** C2, at the small store.  The holder [0] opens a transaction on [m3].
    While it is open, the opening of the holder [1] on [m3] blocks.  A
    scope whose body returns removes the marker; a scope whose body raises
    leaves it, and the next opening fails. *)
Lemma transaction_pending_marker_witness :
  (wf demo_fs ∧ database_free demo_db [] ∧
   ¬ marker_present demo_db "m3" demo_fs ∧
   can_make_dir (metadata_dir demo_db "m3") demo_fs) ∧
  ∃ fs1,
    transaction_open 0 demo_db (inl demo_m3) [] demo_fs
    = Done (Ok (Transaction_init demo_db (inl demo_m3)) fs1)
           [(0, database_lock demo_db false)] ∧
    fs1 !! pending_path demo_db "m3" = Some (File Empty) ∧
    transaction_open 1 demo_db (inl demo_m3)
      [(0, database_lock demo_db false)] fs1 = Blocked ∧
    transaction_scope 0 demo_db (inl demo_m3) (λ _, mret ()) [] demo_fs
    = Done (Ok () (delete (pending_path demo_db "m3") fs1)) [] ∧
    transaction_scope 0 demo_db (inl demo_m3) (λ _, raise ValueError) []
      demo_fs
    = Done (Raise (A := unit) ValueError fs1) [] ∧
    ∃ fs3, transaction_open 1 demo_db (inl demo_m3) [] fs1
           = Done (Raise PendingTransactionError fs3) [].
Proof.
  assert (wf demo_fs) as H1 by by_compute.
  assert (database_free demo_db []) as H2
    by (intros h Hin; by apply elem_of_nil in Hin).
  assert (¬ marker_present demo_db "m3" demo_fs) as H3 by by_compute.
  assert (can_make_dir (metadata_dir demo_db "m3") demo_fs) as H4
    by (apply can_make_dir_intro; by_compute).
  split; [split_and!; assumption|].
  destruct (transaction_pending_marker 0 demo_db (inl demo_m3) [] demo_fs
              H1 H2) as (_ & _ & H).
  destruct (H H3 H4) as (fs1 & Ha & Hb & Hwf1 & _ & Hc & Hd & He).
  exists fs1. split; [exact Ha|]. split; [exact Hb|].
  split; [exact (Hc 1 (inl demo_m3) eq_refl)|].
  split.
  { refine (proj1 (Hd unit (λ _, mret ()) () fs1 (File Empty) eq_refl Hb _)).
    discriminate. }
  destruct (He unit (λ _, raise ValueError) ValueError fs1 eq_refl)
    as [Hf Hg].
  split; [exact Hf|].
  refine (Hg Hwf1 _ 1 (inl demo_m3) eq_refl).
  exists (File Empty). exact Hb.
Defined.

(** C9.  A transaction that opens, on whatever key, takes the lock of the
    database exclusively before it makes the marker, and holds it until its
    scope is left, by a commit or by an error; a snapshot that opens holds
    the same lock shared until its scope is left, and leaves every marker
    as it is.  A transaction opens when nothing holds the lock of the
    database, and a snapshot when no transaction holds it: snapshots run
    together.  While a transaction is active in the database, opening a
    snapshot or a transaction blocks; while a snapshot is active, opening a
    transaction blocks. *)
Theorem database_lock_discipline p db hs fs :
  wf fs →
  (∀ moe, let k := model_name_of moe in
     database_free db hs → can_make_dir (metadata_dir db k) fs →
     ¬ marker_present db k fs →
     ∃ fs1,
       transaction_open p db moe hs fs
       = Done (Ok (Transaction_init db moe) fs1)
              ((p, database_lock db false) :: hs) ∧
       fs1 !! pending_path db k = Some (File Empty) ∧
       wf fs1 ∧ preserved fs fs1 ∧
       transaction_active db ((p, database_lock db false) :: hs) ∧
       (∀ clean fs2,
          (transaction_close p db moe clean
             ((p, database_lock db false) :: hs) fs2).2 = hs) ∧
       (∀ A (body : _ → M A),
          ∃ o, transaction_scope p db moe body hs fs = Done o hs))
  ∧ (∀ k, ¬ transaction_active db hs → can_make_dir (metadata_dir db k) fs →
     ¬ marker_present db k fs →
     ∃ fs1,
       snapshot_open p db k hs fs
       = Done (Ok (mkSnapshot db k) fs1) ((p, database_lock db true) :: hs) ∧
       wf fs1 ∧ preserved fs fs1 ∧
       (∀ k', fs1 !! pending_path db k' = fs !! pending_path db k') ∧
       snapshot_active db ((p, database_lock db true) :: hs) ∧
       snapshot_close p db ((p, database_lock db true) :: hs) = hs)
  ∧ (transaction_active db hs →
     ∀ k, can_make_dir (metadata_dir db k) fs →
       snapshot_open p db k hs fs = Blocked)
  ∧ (transaction_active db hs ∨ snapshot_active db hs →
     ∀ moe, can_make_dir (metadata_dir db (model_name_of moe)) fs →
       transaction_open p db moe hs fs = Blocked).
Proof.
  intros Hwf. split_and!.
  - intros moe k Hfree Hcan Hm.
    destruct (transaction_enter_can db moe fs Hwf Hcan Hm) as [fs1 E].
    pose proof (transaction_enter_spec db moe fs Hwf) as H. simpl in H.
    fold k in H. rewrite E in H. destruct H as (_ & _ & Hp & Hwf1 & Hpres).
    assert (transaction_open p db moe hs fs
            = Done (Ok (Transaction_init db moe) fs1)
                   ((p, database_lock db false) :: hs)) as Eo.
    { rewrite transaction_open_free by done. by rewrite E. }
    exists fs1. split_and!; [done|done|done|done|exists p; by left|..].
    + intros clean fs2. unfold transaction_close. cbn [snd].
      fold (database_lock db false). apply release_head.
    + intros A body. unfold transaction_scope. rewrite Eo.
      destruct (body (Transaction_init db moe) fs1) as [r fs2|e fs2].
      * cbv zeta. unfold transaction_close. cbn [fst snd].
        fold (database_lock db false). rewrite release_head. by eexists.
      * unfold transaction_close. cbn [snd].
        fold (database_lock db false). rewrite release_head. by eexists.
  - intros k Hno Hcan Hm.
    destruct (snapshot_enter_can db k fs Hwf Hcan Hm) as [fs1 E].
    assert (∀ t, fs !! pending_path db k ≠ Some (Symlink t)) as Hl.
    { intros t Ht. apply Hm. unfold marker_present. by rewrite Ht. }
    pose proof (snapshot_enter_spec db k fs Hwf Hl) as H. rewrite E in H.
    destruct H as (_ & _ & Hwf1 & Hpres & _).
    exists fs1. split_and!; [|done|done| |exists p; by left|].
    + rewrite snapshot_open_shared by done. by rewrite E.
    + intros k'. pose proof (snapshot_enter_lookup db k fs (pending_path db k'))
        as H. rewrite E in H. simpl in H.
      destruct H as [?|(_ & [(_ & _ & H)|(_ & H)])]; [done| |].
      * apply prefix_length in H. revert H. unfold pending_path, metadata_dir.
        repeat (rewrite ?length_app; simpl). lia.
      * by apply pending_not_lock in H.
    + unfold snapshot_close. fold (database_lock db true). apply release_head.
  - intros Hact k Hcan. by apply snapshot_open_blocked.
  - intros Hact moe Hcan. by apply transaction_open_blocked.
Qed.

(** C9, at the small store.  The holder [0] opens a transaction on [m3]
    and holds the lock exclusively: the holder [1] blocks on a snapshot of
    [m1] and on a transaction on [m2].  The holder [0] opens a snapshot of
    [m1] and holds the lock shared: the holder [1] opens a snapshot of [m2]
    beside it, and blocks on a transaction on [m2]. *)
Lemma database_lock_discipline_witness :
  (wf demo_fs ∧ database_free demo_db [] ∧
   can_make_dir (metadata_dir demo_db "m3") demo_fs ∧
   ¬ marker_present demo_db "m3" demo_fs) ∧
  (∃ fs1,
     transaction_open 0 demo_db (inl demo_m3) [] demo_fs
     = Done (Ok (Transaction_init demo_db (inl demo_m3)) fs1)
            [(0, database_lock demo_db false)] ∧
     snapshot_open 1 demo_db "m1" [(0, database_lock demo_db false)] fs1
     = Blocked ∧
     transaction_open 1 demo_db (inl demo_m2)
       [(0, database_lock demo_db false)] fs1 = Blocked) ∧
  (∃ fs2,
     snapshot_open 0 demo_db "m1" [] demo_fs
     = Done (Ok (mkSnapshot demo_db "m1") fs2)
            [(0, database_lock demo_db true)] ∧
     (∃ fs3, snapshot_open 1 demo_db "m2" [(0, database_lock demo_db true)] fs2
             = Done (Ok (mkSnapshot demo_db "m2") fs3)
                    [(1, database_lock demo_db true);
                     (0, database_lock demo_db true)]) ∧
     transaction_open 1 demo_db (inl demo_m2)
       [(0, database_lock demo_db true)] fs2 = Blocked).
Proof.
  assert (wf demo_fs) as H1 by by_compute.
  assert (database_free demo_db []) as H2
    by (intros h Hin; by apply elem_of_nil in Hin).
  assert (can_make_dir (metadata_dir demo_db "m3") demo_fs) as H3
    by (apply can_make_dir_intro; by_compute).
  assert (¬ marker_present demo_db "m3" demo_fs) as H4 by by_compute.
  assert (demo_fs !! metadata_dir demo_db "m1" = Some Dir) as D1
    by (vm_compute; reflexivity).
  assert (demo_fs !! metadata_dir demo_db "m2" = Some Dir) as D2
    by (vm_compute; reflexivity).
  assert (¬ marker_present demo_db "m1" demo_fs) as M1 by by_compute.
  assert (demo_fs !! pending_path demo_db "m2" = None) as M2
    by (vm_compute; reflexivity).
  split; [split_and!; assumption|].
  destruct (database_lock_discipline 0 demo_db [] demo_fs H1)
    as (Ht & Hs & _ & _).
  split.
  - destruct (Ht (inl demo_m3) H2 H3 H4)
      as (fs1 & Ha & _ & Hwf1 & Hp1 & Hact & _).
    exists fs1. split; [exact Ha|].
    destruct (database_lock_discipline 1 demo_db
                [(0, database_lock demo_db false)] fs1 Hwf1)
      as (_ & _ & Hbs & Hbt).
    split.
    + apply (Hbs Hact "m1"). apply can_make_dir_dir; [exact Hwf1|].
      apply Hp1. exact D1.
    + apply (Hbt (or_introl Hact) (inl demo_m2)).
      apply can_make_dir_dir; [exact Hwf1|]. apply Hp1. exact D2.
  - assert (¬ transaction_active demo_db []) as N0
      by (by apply database_free_not_active).
    destruct (Hs "m1" N0 (can_make_dir_dir _ _ H1 D1) M1)
      as (fs2 & Ha & Hwf2 & Hp2 & Hm2 & Hact & _).
    exists fs2. split; [exact Ha|].
    destruct (database_lock_discipline 1 demo_db
                [(0, database_lock demo_db true)] fs2 Hwf2)
      as (_ & Hs' & _ & Hbt).
    split.
    + assert (¬ transaction_active demo_db [(0, database_lock demo_db true)])
        as N1.
      { intros [q Hq]. apply list_elem_of_singleton in Hq. discriminate Hq. }
      assert (¬ marker_present demo_db "m2" fs2) as M2'.
      { unfold marker_present. rewrite Hm2, M2. by intros []. }
      destruct (Hs' "m2" N1 (can_make_dir_dir _ _ Hwf2 (Hp2 _ _ D2)) M2')
        as (fs3 & Hb & _).
      exists fs3. exact Hb.
    + apply (Hbt (or_intror Hact) (inl demo_m2)).
      apply can_make_dir_dir; [exact Hwf2|]. apply Hp2. exact D2.
Defined.
